(* ===================================================================== *)
(*  youtube-autopilot-hub: the batch uploader script (PYTHON_SCRIPT in   *)
(*  utils/pythonCode), the browser-side API client (apiService) and the  *)
(*  dashboard's file handling and upload loop, embedded as Rocq          *)
(*  functions, with the properties of the system specification stated    *)
(*  and settled against them, and further properties of the code.        *)
(* ===================================================================== *)

From stdpp Require Import gmap strings list sorting pretty.

Open Scope Z_scope.
Open Scope string_scope.

(* ===================================================================== *)
(*  Part I.  The Python uploader script                                   *)
(* ===================================================================== *)

Module Py.

(* --------------------------------------------------------------------- *)
(*  Values the script handles                                             *)
(* --------------------------------------------------------------------- *)

(* pathlib.Path, as far as the script looks at it: file_path.stem,
   file_path.name and video.with_suffix(ext).  The directory part plays no
   role in any decision of the script. *)
Record Path := mkPath { stem : string; suffix : string }.

Definition name (p : Path) : string := stem p +:+ suffix p.
Definition with_suffix (p : Path) (ext : string) : Path :=
  {| stem := stem p; suffix := ext |}.

(* googleapiclient.errors.HttpError: e.resp.status and str(e). *)
Record HttpError := mkHttpError { resp_status : Z; http_text : string }.

(* google.oauth2.credentials.Credentials, as far as _authenticate reads it:
   creds.valid, creds.expired, creds.refresh_token. *)
Record Credentials := mkCredentials {
  token : option string;
  refresh_token : option string;
  valid : bool;
  expired : bool
}.

(* Python truth value of an Optional[str]: None and the empty string are
   false. *)
Definition truthy (o : option string) : bool :=
  match o with
  | Some s => negb (String.eqb s "")
  | None => false
  end.

Inductive Level := INFO | WARNING | ERROR.

(* What captions().insert(...).execute() does: it returns, raises an
   HttpError, or raises something else. *)
Inductive CaptionResult :=
| CaptionOk
| CaptionHttpError (e : HttpError)
| CaptionException (msg : string).

(* Everything the script does to the outside world, in program order. *)
Inductive Event :=
| EvLog (lvl : Level) (msg : string)          (* logger.info/warning/error *)
| EvPrint (msg : string)                      (* print *)
| EvLoadToken (file : string)                 (* pickle.load *)
| EvRefresh (creds : Credentials)             (* creds.refresh(Request()) *)
| EvRunLocalServer                            (* flow.run_local_server(port=0) *)
| EvDumpToken (file : string) (creds : Credentials)   (* pickle.dump *)
| EvVideosInsert (title description categoryId privacyStatus : string)
| EvPbarOpen (total : Z)                      (* tqdm(total=file_size, ...) *)
| EvNextChunk (file : Path)                   (* request.next_chunk() *)
| EvPbarUpdate (delta : Z)                    (* pbar.update(delta) *)
| EvPbarClose
| EvCaptionsInsert (video_id language snippet_name caption_name : string)
    (answer : CaptionResult)                  (* captions().insert(...).execute() *)
.

(* How a call of a Python function ends when it does not return. *)
Inductive Failure :=
| RaiseHttp (e : HttpError)        (* an HttpError propagates to the caller *)
| RaiseOther (msg : string)        (* any other exception propagates *)
| SysExit (code : Z)               (* sys.exit(code) *)
| Starved.                         (* the recorded remote answers are used up
                                      while the upload loop still iterates *)

Inductive Result (A : Type) :=
| Return (a : A)
| Fail (f : Failure).
Arguments Return {A} a.
Arguments Fail {A} f.

(* A computation of the script: the events it performed and how it ended. *)
Record Proc (A : Type) := mkProc { trace : list Event; result : Result A }.
Arguments mkProc {A} trace result.
Arguments trace {A} p.
Arguments result {A} p.

Definition ret {A} (a : A) : Proc A := mkProc [] (Return a).
Definition emit (e : Event) : Proc unit := mkProc [e] (Return tt).
Definition log (lvl : Level) (msg : string) : Proc unit := emit (EvLog lvl msg).
Definition fail {A} (f : Failure) : Proc A := mkProc [] (Fail f).

Definition bind {A B} (m : Proc A) (k : A -> Proc B) : Proc B :=
  match result m with
  | Return a => mkProc (trace m ++ trace (k a)) (result (k a))
  | Fail f => mkProc (trace m) (Fail f)
  end.

#[global] Instance Proc_ret : MRet Proc := @ret.
#[global] Instance Proc_bind : MBind Proc := fun A B k m => bind m k.

(* --------------------------------------------------------------------- *)
(*  The world around the script                                           *)
(* --------------------------------------------------------------------- *)

(* The YouTube API answer to videos().insert: a JSON object; the script only
   tests and reads its "id" key. *)
Abbreviation Response := (gmap string string).

(* What one call of request.next_chunk() does: it returns the pair
   (status, response), status being None or an object whose
   resumable_progress is given, or it raises. *)
Inductive ChunkResult :=
| ChunkReturn (status : option Z) (response : option Response)
| ChunkHttpError (e : HttpError)
| ChunkException (msg : string).

(* The remote service and the local disk, as the upload path consults them.
   chunk_answers f lists what the successive calls of next_chunk do during
   the upload of f. *)
Record World := mkWorld {
  st_size : Path -> Z;
  path_exists : Path -> bool;
  chunk_answers : Path -> list ChunkResult;
  caption_answer : string -> Path -> CaptionResult
}.

(* --------------------------------------------------------------------- *)
(*  YouTubeUploader.upload_video                                          *)
(* --------------------------------------------------------------------- *)

Definition nl : string := String (Ascii.ascii_of_nat 10) "".

(* The variables of the while loop: previous_progress and the counter of
   the progress bar (tqdm's n, which pbar.update adds to). *)
Record LoopState := mkLoopState { previous_progress : Z; pbar_n : Z }.

Definition init_state : LoopState := {| previous_progress := 0; pbar_n := 0 |}.

Definition transient_statuses : list Z := [500; 502; 503; 504].

(* How one iteration of `while response is None` ends. *)
Inductive Step :=
| Next (s : LoopState)                         (* response still None *)
| Done (response : Response) (s : LoopState)   (* response received *)
| Stop (f : Failure).                          (* left by exit or raise *)

(* The body of the try statement after next_chunk returned. *)
Definition on_status (status : option Z) (s : LoopState) : list Event * LoopState :=
  match status with
  | Some current_progress =>
      ([EvPbarUpdate (current_progress - previous_progress s)],
       {| previous_progress := current_progress;
          pbar_n := pbar_n s + (current_progress - previous_progress s) |})
  | None => ([], s)
  end.

(* One iteration: the call of next_chunk with its answer a. *)
Definition chunk_step (s : LoopState) (a : ChunkResult) : list Event * Step :=
  match a with
  | ChunkReturn status response =>
      let '(evs, s') := on_status status s in
      match response with
      | None => (evs, Next s')
      | Some resp => (evs, Done resp s')
      end
  | ChunkHttpError e =>
      if (resp_status e =? 403)%Z then
        ([EvLog ERROR "[ERROR] Quota exceeded."], Stop (SysExit 1))
      else if bool_decide (resp_status e ∈ transient_statuses) then
        ([EvLog WARNING "[WARNING] Network error, retrying chunk..."], Next s)
      else
        ([EvLog ERROR ("[ERROR] HTTP Error: " +:+ http_text e)], Stop (RaiseHttp e))
  | ChunkException msg =>
      ([EvLog ERROR ("[ERROR] Unexpected error: " +:+ msg)], Stop (SysExit 1))
  end.

(* while response is None: ...   driven by the answers of the remote side. *)
Fixpoint upload_loop (file : Path) (answers : list ChunkResult) (s : LoopState)
  : Proc (Response * LoopState) :=
  match answers with
  | [] => fail Starved
  | a :: rest =>
      let '(evs, st) := chunk_step s a in
      match st with
      | Next s' =>
          let p := upload_loop file rest s' in
          mkProc (EvNextChunk file :: evs ++ trace p) (result p)
      | Done resp s' => mkProc (EvNextChunk file :: evs) (Return (resp, s'))
      | Stop f => mkProc (EvNextChunk file :: evs) (Fail f)
      end
  end.

Definition upload_video (w : World) (file_path : Path) : Proc (option string) :=
  let title := stem file_path in
  log INFO (nl +:+ "[UPLOAD] Processing: " +:+ name file_path) ≫= λ _,
  emit (EvVideosInsert title
          ("Uploaded via CLI automation. Source: " +:+ name file_path)
          "22" "private") ≫= λ _,
  let file_size := st_size w file_path in
  emit (EvPbarOpen file_size) ≫= λ _,
  upload_loop file_path (chunk_answers w file_path) init_state ≫= λ '(response, _),
  emit EvPbarClose ≫= λ _,
  match response !! "id" with
  | Some video_id =>
      log INFO ("[SUCCESS] Video uploaded. ID: " +:+ video_id) ≫= λ _,
      mret (Some video_id)
  | None =>
      log ERROR "[ERROR] Upload failed, no ID returned." ≫= λ _,
      mret None
  end.

(* Reading a session off its inputs and its trace. *)

(* The offsets that the answers of next_chunk report. *)
Definition reported (answers : list ChunkResult) : list Z :=
  omap (fun a => match a with ChunkReturn status _ => status | _ => None end) answers.

Definition is_next_chunk (e : Event) : bool :=
  match e with EvNextChunk _ => true | _ => false end.

(* The number of chunk requests made. *)
Definition calls (t : list Event) : nat := length (filter is_next_chunk t).

(* The successive values of the progress bar counter, starting from n. *)
Fixpoint pbar_history (n : Z) (t : list Event) : list Z :=
  match t with
  | [] => []
  | EvPbarUpdate d :: t' => (n + d) :: pbar_history (n + d) t'
  | _ :: t' => pbar_history n t'
  end.

(* The loop variables after the given answers, when each of them leaves
   response at None. *)
Fixpoint advance (s : LoopState) (answers : list ChunkResult) : option LoopState :=
  match answers with
  | [] => Some s
  | a :: rest =>
      match (chunk_step s a).2 with
      | Next s' => advance s' rest
      | _ => None
      end
  end.

Definition chunksize : Z := 1024 * 1024.

(** Modelled from the spec: the byte range that a call of next_chunk sends.
    The call is made by the googleapiclient library, which is not part of
    the repository, and the script passes it nothing: which bytes are sent
    is held by the request object, not by the variables of the loop.
    Following section 4.2 step 2 the session behind the request holds the
    acknowledged offset, and a call sends the next chunksize bytes (or the
    remainder) of the file starting at that offset. *)
Definition session_range (total acknowledged : Z) : Z * Z :=
  (acknowledged, Z.min (acknowledged + chunksize) total).

(** Modelled from the spec: the acknowledged offset of the session after a
    call of next_chunk (missing with the library, as above).  Following
    section 4.2 steps 2 and 3 a response that reports progress moves the
    offset to the reported one, and a call that fails leaves it where it
    was. *)
Definition session_after (acknowledged : Z) (a : ChunkResult) : Z :=
  match a with
  | ChunkReturn (Some offset) _ => offset
  | _ => acknowledged
  end.

(** Modelled from the spec: the byte ranges that the successive calls of
    next_chunk on one request send, when the session starts at the given
    offset and the calls are answered as given. *)
Fixpoint ranges (total acknowledged : Z) (answers : list ChunkResult) : list (Z * Z) :=
  match answers with
  | [] => []
  | a :: rest =>
      session_range total acknowledged
      :: ranges total (session_after acknowledged a) rest
  end.

(* --------------------------------------------------------------------- *)
(*  YouTubeUploader.upload_caption                                        *)
(* --------------------------------------------------------------------- *)

Definition default_language : string := "zh-TW".

Definition upload_caption (w : World) (video_id : string) (caption_path : Path)
    (language : string) : Proc unit :=
  log INFO ("[INFO] Found subtitle: " +:+ name caption_path +:+ ". Uploading...") ≫= λ _,
  emit (EvCaptionsInsert video_id language ("Default (" +:+ language +:+ ")")
          (name caption_path) (caption_answer w video_id caption_path)) ≫= λ _,
  match caption_answer w video_id caption_path with
  | CaptionOk =>
      log INFO ("[SUCCESS] Subtitle " +:+ name caption_path +:+
                " attached to Video " +:+ video_id +:+ ".")
  | CaptionHttpError e =>                       (* except HttpError as e *)
      log ERROR ("[ERROR] Failed to upload caption: " +:+ http_text e)
  | CaptionException msg =>                     (* no handler: propagates *)
      fail (RaiseOther msg)
  end.

(* --------------------------------------------------------------------- *)
(*  main: the loop over the video files                                   *)
(* --------------------------------------------------------------------- *)

Definition subtitle_extensions : list string := [".srt"; ".vtt"].

(* for sub_ext in [".srt", ".vtt"]: ... upload_caption(...); break *)
Fixpoint attach_subtitle (w : World) (video_id : string) (video : Path)
    (exts : list string) : Proc unit :=
  match exts with
  | [] => mret tt
  | sub_ext :: rest =>
      let sub_file := with_suffix video sub_ext in
      if path_exists w sub_file then
        upload_caption w video_id sub_file default_language
      else attach_subtitle w video_id video rest
  end.

(* The body of `for video in video_files`; the value it leaves in video_id
   is returned so that properties of one iteration can be stated. *)
Definition process_video (w : World) (video : Path) : Proc (option string) :=
  upload_video w video ≫= λ video_id,
  (if truthy video_id then
     match video_id with
     | Some v => attach_subtitle w v video subtitle_extensions
     | None => mret tt
     end
   else mret tt) ≫= λ _,
  mret video_id.

Fixpoint main_loop (w : World) (video_files : list Path) : Proc unit :=
  match video_files with
  | [] => mret tt
  | video :: rest => process_video w video ≫= λ _, main_loop w rest
  end.

(* Reading one iteration of the loop as a job. *)

Definition is_caption_insert (e : Event) : bool :=
  match e with EvCaptionsInsert _ _ _ _ _ => true | _ => false end.

Definition is_caption_ok (e : Event) : bool :=
  match e with EvCaptionsInsert _ _ _ _ CaptionOk => true | _ => false end.

(* The caption requests made. *)
Definition caption_requests (t : list Event) : list Event := filter is_caption_insert t.

Inductive JobStatus := JOB_PENDING | JOB_UPLOADING | JOB_COMPLETED | JOB_ERROR.

(** Modelled from the spec: the job record of section 3 (videoId,
    subtitleUploaded, status).  It is kept by the Job Manager of the web
    backend, which is not among the sources; the script keeps no record and
    only logs.  Here the record is read off one iteration of the script's
    loop: videoId is what upload_video returned, subtitleUploaded says that
    a caption request was answered without error, and the status is
    COMPLETED when the iteration ends normally with a video id, UPLOADING
    while the upload loop still waits, ERROR otherwise. *)
Record Job := mkJob {
  videoId : option string;
  subtitleUploaded : bool;
  status : JobStatus
}.

Definition job_of (w : World) (video : Path) : Job :=
  {| videoId :=
       match result (upload_video w video) with
       | Return video_id => video_id
       | Fail _ => None
       end;
     subtitleUploaded := existsb is_caption_ok (trace (process_video w video));
     status :=
       match result (process_video w video) with
       | Return video_id => if truthy video_id then JOB_COMPLETED else JOB_ERROR
       | Fail Starved => JOB_UPLOADING
       | Fail _ => JOB_ERROR
       end |}.

(* --------------------------------------------------------------------- *)
(*  YouTubeUploader._authenticate                                         *)
(* --------------------------------------------------------------------- *)

Definition token_file (user_profile : string) : string :=
  "token_" +:+ user_profile +:+ ".pickle".

Definition MISSING_CLIENT_SECRETS_MESSAGE : string :=
  nl +:+ "[ERROR] client_secrets.json not found." +:+ nl +:+
  "Please enable the YouTube Data API v3 in Google Cloud Console," +:+ nl +:+
  "download the OAuth 2.0 Client credentials, and save them as 'client_secrets.json'" +:+ nl +:+
  "in this directory." +:+ nl.

(* creds.refresh(Request()) and flow.run_local_server(port=0) either give a
   credential or raise. *)
Inductive Grant :=
| Granted (creds : Credentials)
| Refused (msg : string).

(* The identity provider and the client secrets file. *)
Record AuthEnv := mkAuthEnv {
  client_secrets_exists : bool;
  refresh_answer : Credentials -> Grant;
  flow_answer : Grant
}.

(* The token files on disk: file name to pickled credential. *)
Abbreviation Store := (gmap string Credentials).

(* `if os.path.exists(token_file): ... creds = pickle.load(token)` *)
Definition load_token (store : Store) (user_profile : string)
  : list Event * option Credentials :=
  match store !! token_file user_profile with
  | Some creds =>
      ([EvLog INFO ("[INFO] Loading credentials for user: " +:+ user_profile);
        EvLoadToken (token_file user_profile)], Some creds)
  | None => ([], None)
  end.

(* `not creds or not creds.valid` *)
Definition needs_renewal (creds : option Credentials) : bool :=
  match creds with
  | Some c => negb (valid c)
  | None => true
  end.

(* `creds and creds.expired and creds.refresh_token` *)
Definition refreshable (creds : option Credentials) : bool :=
  match creds with
  | Some c => expired c && truthy (refresh_token c)
  | None => false
  end.

(* `creds.refresh(Request())`; an exception of the refresh is not caught. *)
Definition refresh (env : AuthEnv) (c : Credentials) : Proc Credentials :=
  log INFO "[INFO] Refreshing expired token..." ≫= λ _,
  emit (EvRefresh c) ≫= λ _,
  match refresh_answer env c with
  | Granted c' => mret c'
  | Refused msg => fail (RaiseOther msg)
  end.

(* The else branch: the installed-app login flow, run by the script. *)
Definition login_flow (env : AuthEnv) (user_profile : string) : Proc Credentials :=
  log INFO ("[INFO] No valid token found for '" +:+ user_profile +:+
            "'. Starting login flow...") ≫= λ _,
  if client_secrets_exists env then
    emit EvRunLocalServer ≫= λ _,
    match flow_answer env with
    | Granted c' => mret c'
    | Refused msg => fail (RaiseOther msg)
    end
  else
    emit (EvPrint MISSING_CLIENT_SECRETS_MESSAGE) ≫= λ _,
    fail (SysExit 1).

Definition renew (env : AuthEnv) (user_profile : string)
    (creds : option Credentials) : Proc Credentials :=
  match creds with
  | Some c => if refreshable creds then refresh env c else login_flow env user_profile
  | None => login_flow env user_profile
  end.

(* `with open(token_file, "wb") as token: pickle.dump(creds, token)` *)
Definition save_token (user_profile : string) (creds : Credentials) : Proc unit :=
  emit (EvDumpToken (token_file user_profile) creds) ≫= λ _,
  log INFO ("[INFO] Credentials saved to " +:+ token_file user_profile).

(* The body of `if not creds or not creds.valid:`. *)
Definition renew_and_save (env : AuthEnv) (store : Store) (user_profile : string)
    (creds : option Credentials) : Proc Credentials * Store :=
  let p := renew env user_profile creds in
  match result p with
  | Return c =>
      (mkProc (trace p ++ trace (save_token user_profile c)) (Return c),
       <[token_file user_profile := c]> store)
  | Fail f => (mkProc (trace p) (Fail f), store)
  end.

Definition after (evs : list Event) {A} (ps : Proc A * Store) : Proc A * Store :=
  (mkProc (evs ++ trace ps.1) (result ps.1), ps.2).

(* The function returns how it ended and the token files it leaves. *)
Definition _authenticate (env : AuthEnv) (store : Store) (user_profile : string)
  : Proc Credentials * Store :=
  let '(evs, creds) := load_token store user_profile in
  match creds with
  | Some c =>
      if needs_renewal creds
      then after evs (renew_and_save env store user_profile creds)
      else (mkProc evs (Return c), store)
  | None => after evs (renew_and_save env store user_profile creds)
  end.

(* --------------------------------------------------------------------- *)
(*  Two runs of the script on the same token files                        *)
(* --------------------------------------------------------------------- *)

(* _authenticate cut at its accesses to the shared token file: the load,
   the renewal (a network call), the save. *)
Inductive AuthPc :=
| AtLoad
| AtCheck (creds : option Credentials)
| AtSave (creds : Credentials)
| Finished (r : Result Credentials).

Definition auth_step (env : AuthEnv) (user_profile : string) (pc : AuthPc)
    (store : Store) : list Event * AuthPc * Store :=
  match pc with
  | AtLoad =>
      let '(evs, creds) := load_token store user_profile in
      (evs, AtCheck creds, store)
  | AtCheck creds =>
      match creds with
      | Some c =>
          if needs_renewal creds then
            let p := renew env user_profile creds in
            match result p with
            | Return c' => (trace p, AtSave c', store)
            | Fail f => (trace p, Finished (Fail f), store)
            end
          else ([], Finished (Return c), store)
      | None =>
          let p := renew env user_profile creds in
          match result p with
          | Return c' => (trace p, AtSave c', store)
          | Fail f => (trace p, Finished (Fail f), store)
          end
      end
  | AtSave c =>
      (trace (save_token user_profile c), Finished (Return c),
       <[token_file user_profile := c]> store)
  | Finished r => ([], Finished r, store)
  end.

(* Two processes started for the same profile, and the events of both in
   the order they happened. *)
Record Pair := mkPair {
  first : AuthPc;
  second : AuthPc;
  files : Store;
  history : list Event
}.

Inductive Who := P1 | P2.

Definition pair_step (env : AuthEnv) (user_profile : string) (who : Who)
    (c : Pair) : Pair :=
  match who with
  | P1 =>
      let '(evs, pc, store) := auth_step env user_profile (first c) (files c) in
      {| first := pc; second := second c; files := store;
         history := history c ++ evs |}
  | P2 =>
      let '(evs, pc, store) := auth_step env user_profile (second c) (files c) in
      {| first := first c; second := pc; files := store;
         history := history c ++ evs |}
  end.

Definition run_schedule (env : AuthEnv) (user_profile : string)
    (schedule : list Who) (c : Pair) : Pair :=
  foldl (fun c who => pair_step env user_profile who c) c schedule.

Definition start (store : Store) : Pair :=
  {| first := AtLoad; second := AtLoad; files := store; history := [] |}.

Definition is_refresh (e : Event) : bool :=
  match e with EvRefresh _ => true | _ => false end.

Definition refresh_calls (t : list Event) : nat := length (filter is_refresh t).

Definition is_dump (e : Event) : bool :=
  match e with EvDumpToken _ _ => true | _ => false end.

(* The writes to token files. *)
Definition token_writes (t : list Event) : list Event := filter is_dump t.

(* The invariant of the loop: the counter of the bar and previous_progress
   move together. *)
Definition in_step (s : LoopState) : Prop := pbar_n s = previous_progress s.

(* What one retried chunk leaves in the trace. *)
Definition retry_events (f : Path) : list Event :=
  [EvNextChunk f; EvLog WARNING "[WARNING] Network error, retrying chunk..."].

(* The events of the stages of _authenticate. *)
Definition loading (user_profile : string) : list Event :=
  [EvLog INFO ("[INFO] Loading credentials for user: " +:+ user_profile);
   EvLoadToken (token_file user_profile)].

Definition refreshing (creds : Credentials) : list Event :=
  [EvLog INFO "[INFO] Refreshing expired token..."; EvRefresh creds].

Definition saving (user_profile : string) (creds : Credentials) : list Event :=
  [EvDumpToken (token_file user_profile) creds;
   EvLog INFO ("[INFO] Credentials saved to " +:+ token_file user_profile)].

Definition starting_login (user_profile : string) : Event :=
  EvLog INFO ("[INFO] No valid token found for '" +:+ user_profile +:+
              "'. Starting login flow...").

(* --------------------------------------------------------------------- *)
(*  YouTubeUploader.__init__ and main                                     *)
(* --------------------------------------------------------------------- *)

(* More ways of reading a trace. *)

Definition is_flow (e : Event) : bool :=
  match e with EvRunLocalServer => true | _ => false end.

(* The runs of the login flow. *)
Definition flow_calls (t : list Event) : nat := length (filter is_flow t).

Definition is_videos_insert (e : Event) : bool :=
  match e with EvVideosInsert _ _ _ _ => true | _ => false end.

(* The videos().insert requests prepared. *)
Definition video_inserts (t : list Event) : list Event := filter is_videos_insert t.

(* The files for which a chunk was requested, request by request. *)
Definition requested (t : list Event) : list Path :=
  omap (fun e => match e with EvNextChunk f => Some f | _ => None end) t.

(* What one iteration of the upload loop comes to when it ends the loop. *)
Definition ending (st : Step) : option (Result (Response * LoopState)) :=
  match st with
  | Next _ => None
  | Done resp s => Some (Return (resp, s))
  | Stop fl => Some (Fail fl)
  end.

(* The calls that can grant a credential: refreshes and login flows. *)
Definition grant_calls (t : list Event) : nat := (refresh_calls t + flow_calls t)%nat.

(* What a process has behind it at a point of _authenticate: at most one
   grant call once the renewal is passed, at most one write once it is
   finished. *)
Definition granted_by (pc : AuthPc) : nat :=
  match pc with
  | AtLoad | AtCheck _ => 0
  | AtSave _ | Finished _ => 1
  end.

Definition written_by (pc : AuthPc) : nat :=
  match pc with
  | Finished _ => 1
  | _ => 0
  end.

(* What holds of the two processes at every point of every schedule. *)
Definition within_bounds (user_profile : string) (store : Store) (c : Pair) : Prop :=
  (grant_calls (history c) <= granted_by (first c) + granted_by (second c))%nat
  /\ (length (token_writes (history c))
       <= written_by (first c) + written_by (second c))%nat
  /\ (forall other, other <> user_profile ->
        files c !! token_file other = store !! token_file other).

(* The request that upload_video prepares for a file. *)
Definition insert_of (f : Path) : Event :=
  EvVideosInsert (stem f) ("Uploaded via CLI automation. Source: " +:+ name f)
    "22" "private".

(* The caption request that upload_caption makes with the default language. *)
Definition caption_of (w : World) (video_id : string) (sub_file : Path) : Event :=
  EvCaptionsInsert video_id default_language
    ("Default (" +:+ default_language +:+ ")") (name sub_file)
    (caption_answer w video_id sub_file).

(* What path.iterdir() gives for one entry: the path and f.is_file(). *)
Record DirEntry := mkDirEntry { entry_path : Path; is_file : bool }.

(* target_dir.iterdir() lists the entries or raises (the path is no
   directory, or may not be read). *)
Inductive Listing :=
| Entries (l : list DirEntry)
| ListingError (msg : string).

(* The command line after argparse, with its defaults. *)
Record Args := mkArgs { user : string; folder : string }.

Definition default_args : Args := {| user := "default"; folder := "." |}.

(* The local disk as main consults it, and whether build("youtube", "v3")
   raises. *)
Record Host := mkHost {
  dir_exists : string -> bool;
  iterdir : string -> Listing;
  build_error : option string
}.

Definition video_extensions : gset string := {[ ".mp4"; ".mov"; ".mkv"; ".avi" ]}.

Section Main.

(* str.lower() *)
Variable lower : string -> string.

(* `f.suffix.lower() in video_extensions and f.is_file()` *)
Definition is_video (f : DirEntry) : bool :=
  bool_decide (lower (suffix (entry_path f)) ∈ video_extensions) && is_file f.

(* YouTubeUploader(user_profile): the credentials, then the API client. *)
Definition YouTubeUploader (env : AuthEnv) (h : Host) (store : Store)
    (user_profile : string) : Proc Credentials * Store :=
  let '(auth, store') := _authenticate env store user_profile in
  (auth ≫= λ credentials,
   match build_error h with
   | None => mret credentials
   | Some msg => fail (RaiseOther msg)
   end, store').

(* main, from the validation of the folder on. *)
Definition main (env : AuthEnv) (h : Host) (w : World) (store : Store)
    (args : Args) : Proc unit * Store :=
  if negb (dir_exists h (folder args)) then
    (log ERROR ("[ERROR] Directory '" +:+ folder args +:+ "' does not exist.") ≫= λ _,
     fail (SysExit 1), store)
  else
    let '(uploader, store') := YouTubeUploader env h store (user args) in
    (uploader ≫= λ _,
     match iterdir h (folder args) with
     | ListingError msg => fail (RaiseOther msg)
     | Entries entries =>
         let video_files := entry_path <$> filter is_video entries in
         match video_files with
         | [] => log INFO "[INFO] No video files found in target directory."
         | _ =>
             log INFO ("[INFO] Found " +:+ pretty (length video_files) +:+
                       " videos to process.") ≫= λ _,
             main_loop w video_files
         end
     end, store').

End Main.

(* str.lower() on the letters A to Z; other characters are kept. *)
Definition ascii_lower (c : Ascii.ascii) : Ascii.ascii :=
  let n := Ascii.nat_of_ascii c in
  if (65 <=? n)%nat && (n <=? 90)%nat then Ascii.ascii_of_nat (n + 32) else c.

Fixpoint lower_ascii (s : string) : string :=
  match s with
  | EmptyString => EmptyString
  | String c s' => String (ascii_lower c) (lower_ascii s')
  end.

(* --------------------------------------------------------------------- *)
(*  Sample data                                                           *)
(* --------------------------------------------------------------------- *)

(* A video, and the ways its upload session can go. *)
Definition clip : Path := {| stem := "clip"; suffix := ".mp4" |}.
Definition MiB : Z := 1024 * 1024.
Definition unavailable : HttpError := {| resp_status := 503; http_text := "Service Unavailable" |}.
Definition bad_gateway : HttpError := {| resp_status := 502; http_text := "Bad Gateway" |}.
Definition forbidden : HttpError := {| resp_status := 403; http_text := "quotaExceeded" |}.
Definition uploaded : Response := {[ "id" := "dQw4w9WgXcQ" ]}.

(* The world in which every upload session gets the given answers. *)
Definition answering (w : World) (answers : list ChunkResult) : World :=
  {| st_size := st_size w; path_exists := path_exists w;
     chunk_answers := fun _ => answers; caption_answer := caption_answer w |}.

(* A disk with clip.mp4 (3 MiB) and clip.srt, and a remote side that
   accepts every caption. *)
Definition quiet_world : World :=
  {| st_size := fun _ => 3 * MiB;
     path_exists := fun p => String.eqb (name p) "clip.mp4" || String.eqb (name p) "clip.srt";
     chunk_answers := fun _ => [];
     caption_answer := fun _ _ => CaptionOk |}.

(* Three chunks, the second one failing twice before it is accepted. *)
Definition session_with_retries : list ChunkResult :=
  [ ChunkReturn (Some MiB) None;
    ChunkHttpError unavailable; ChunkHttpError unavailable;
    ChunkReturn (Some (2 * MiB)) None;
    ChunkReturn None (Some uploaded) ].

(* The second chunk is refused with a 403; a third answer is on record but
   never asked for. *)
Definition session_with_quota : list ChunkResult :=
  [ ChunkReturn (Some MiB) None;
    ChunkHttpError forbidden;
    ChunkReturn None (Some uploaded) ].

(* The second chunk dies of an exception that is no HttpError. *)
Definition session_with_crash : list ChunkResult :=
  [ ChunkReturn (Some MiB) None;
    ChunkException "Connection reset by peer" ].

(* After a failed chunk the library reports a smaller offset than before. *)
Definition session_with_regress : list ChunkResult :=
  [ ChunkReturn (Some (2 * MiB)) None;
    ChunkHttpError unavailable;
    ChunkReturn (Some MiB) None;
    ChunkReturn None (Some uploaded) ].

(* Worlds in which the caption request for clip.srt is refused, crashes or
   is accepted. *)
Definition bad_caption : HttpError :=
  {| resp_status := 400; http_text := "invalidCaptionTrack" |}.

Definition world_with (answers : list ChunkResult) (caption : CaptionResult) : World :=
  {| st_size := fun _ => 3 * MiB;
     path_exists := fun p => String.eqb (name p) "clip.mp4" || String.eqb (name p) "clip.srt";
     chunk_answers := fun _ => answers;
     caption_answer := fun _ _ => caption |}.

Definition trailer : Path := {| stem := "trailer"; suffix := ".mov" |}.

(* An upload that ends with an answer carrying no "id". *)
Definition session_without_id : list ChunkResult :=
  [ ChunkReturn (Some MiB) None; ChunkReturn None (Some ∅) ].

(* One after the other, and step by step in turns. *)
Definition one_after_the_other : list Who := [P1; P1; P1; P2; P2; P2].
Definition in_turns : list Who := [P1; P2; P1; P2; P1; P2].

(* Credentials of the profile "default" and an identity provider that
   grants a fresh token on refresh and on login. *)
Definition good_creds : Credentials :=
  {| token := Some "ya29.live"; refresh_token := Some "1//refresh";
     valid := true; expired := false |}.
Definition stale_creds : Credentials :=
  {| token := Some "ya29.old"; refresh_token := Some "1//refresh";
     valid := false; expired := true |}.
Definition fresh_creds : Credentials :=
  {| token := Some "ya29.new"; refresh_token := Some "1//refresh";
     valid := true; expired := false |}.
Definition dead_creds : Credentials :=
  {| token := Some "ya29.old"; refresh_token := None;
     valid := false; expired := true |}.

Definition granting : AuthEnv :=
  {| client_secrets_exists := true;
     refresh_answer := fun _ => Granted fresh_creds;
     flow_answer := Granted fresh_creds |}.

Definition store_of (c : Credentials) : Store := {[ token_file "default" := c ]}.
Definition no_tokens : Store := ∅.

(* A folder with a video in upper case, its subtitle, a text file and a
   directory named like a video. *)
Definition holiday : Path := {| stem := "HOLIDAY"; suffix := ".MP4" |}.

Definition videos_folder : list DirEntry :=
  [ {| entry_path := holiday; is_file := true |};
    {| entry_path := {| stem := "HOLIDAY"; suffix := ".srt" |}; is_file := true |};
    {| entry_path := {| stem := "notes"; suffix := ".txt" |}; is_file := true |};
    {| entry_path := {| stem := "old"; suffix := ".mp4" |}; is_file := false |} ].

Definition docs_folder : list DirEntry :=
  [ {| entry_path := {| stem := "notes"; suffix := ".txt" |}; is_file := true |} ].

Definition home : Host :=
  {| dir_exists := fun d => String.eqb d "videos" || String.eqb d "docs";
     iterdir := fun d => if String.eqb d "videos" then Entries videos_folder
                         else if String.eqb d "docs" then Entries docs_folder
                         else ListingError "NotADirectoryError";
     build_error := None |}.

(* The second chunk is answered by a 404. *)
Definition not_found : HttpError := {| resp_status := 404; http_text := "notFound" |}.

Definition session_with_404 : list ChunkResult :=
  [ ChunkReturn (Some MiB) None;
    ChunkHttpError not_found;
    ChunkReturn None (Some uploaded) ].

End Py.

(* ===================================================================== *)
(*  Part II.  The browser-side API client (services/apiService)           *)
(* ===================================================================== *)

Module Api.

Definition API_BASE : string := "/api".

(* A browser File object; only its identity matters here. *)
Record File := mkFile { file_name : string }.

Inductive Privacy := private | unlisted | public.

Definition privacy_string (p : Privacy) : string :=
  match p with
  | private => "private"
  | unlisted => "unlisted"
  | public => "public"
  end.

(* The options object: every property may be missing (undefined). *)
Record UploadOptions := mkUploadOptions {
  profile : option string;
  title : option string;
  description : option string;
  privacy : option Privacy;
  language : option string
}.

(* `{}` *)
Definition no_options : UploadOptions :=
  {| profile := None; title := None; description := None; privacy := None;
     language := None |}.

(* JavaScript truth value of a string-or-undefined (or string-or-null). *)
Definition truthy (o : option string) : bool :=
  match o with
  | Some s => negb (String.eqb s "")
  | None => false
  end.

(* `o || d` on strings *)
Definition or_else (o : option string) (d : string) : string :=
  match o with
  | Some s => if truthy o then s else d
  | None => d
  end.

Inductive FormValue :=
| FormFile (f : File)
| FormString (s : string).

(* FormData: the appended entries in order. *)
Abbreviation FormData := (list (string * FormValue)).

Definition append (formData : FormData) (key : string) (v : FormValue) : FormData :=
  formData ++ [(key, v)].

(* formData.getAll(key) *)
Definition getAll (formData : FormData) (key : string) : list FormValue :=
  (filter (fun kv => String.eqb (fst kv) key) formData).*2.

(* formData.has(key) *)
Definition has (formData : FormData) (key : string) : bool :=
  existsb (fun kv => String.eqb (fst kv) key) formData.

(* The form built by uploadVideo; an omitted options argument is `{}`. *)
Definition uploadVideo_form (video : File) (subtitle : option File)
    (options : option UploadOptions) : FormData :=
  let options := default no_options options in
  let formData := [] in
  let formData := append formData "video" (FormFile video) in
  let formData :=
    match subtitle with
    | Some f => append formData "subtitle" (FormFile f)
    | None => formData
    end in
  let formData := append formData "profile" (FormString (or_else (profile options) "default")) in
  let formData :=
    match title options with
    | Some t => if truthy (title options)
                then append formData "title" (FormString t) else formData
    | None => formData
    end in
  let formData := append formData "description" (FormString (or_else (description options) "")) in
  let formData :=
    append formData "privacy"
      (FormString (match privacy options with
                   | Some p => privacy_string p
                   | None => "private"
                   end)) in
  let formData := append formData "language" (FormString (or_else (language options) "en")) in
  formData.

Record Request := mkRequest { url : string; method : string; body : FormData }.

Record UploadResponse := mkUploadResponse {
  r_job_id : string; r_message : string; r_status_url : string
}.

(* What fetch gives back for the upload request. *)
Inductive UploadAnswer :=
| UploadOk (r : UploadResponse)
    (* response.ok, and response.json() gives r *)
| UploadOkUnread (msg : string)
    (* response.ok, and response.json() rejects with an error of that message *)
| UploadNotOk (detail : option string)
    (* !response.ok, error.detail a string, or undefined or null *)
| UploadNotOkValue (is_truthy : bool) (text : string)
    (* !response.ok, error.detail a value of another type (a list, an
       object, a number, a boolean): its truth value, and what
       String(detail) gives *)
| UploadNotOkUnread (msg : string)
    (* !response.ok, and response.json() rejects, or gives null so that
       reading error.detail throws: an error of that message *)
| UploadRejected (msg : string).
    (* fetch itself rejects *)

(* uploadVideo: the request it sends, and the value or Error it settles to. *)
Definition uploadVideo (video : File) (subtitle : option File)
    (options : option UploadOptions) (answer : UploadAnswer)
  : Request * (UploadResponse + string) :=
  let formData := uploadVideo_form video subtitle options in
  ({| url := API_BASE +:+ "/upload"; method := "POST"; body := formData |},
   match answer with
   | UploadOk r => inl r
   | UploadOkUnread msg => inr msg
   | UploadNotOk detail => inr (or_else detail "Upload failed")
   | UploadNotOkValue is_truthy text =>
       inr (if is_truthy then text else "Upload failed")
   | UploadNotOkUnread msg => inr msg
   | UploadRejected msg => inr msg
   end).

(* ------------------------------------------------------------------- *)
(*  pollUploadStatus                                                    *)
(* ------------------------------------------------------------------- *)

Record UploadJob := mkUploadJob {
  job_id : string;
  job_profile : string;
  video_filename : string;
  subtitle_filename : option string;
  job_title : string;
  status : string;
  video_progress : Z;
  video_id : option string;
  video_url : option string;
  subtitle_uploaded : bool;
  completed : bool;
  error : option string;
  created_at : string
}.

(* getUploadStatus either resolves to the job or rejects (fetch fails, or
   the response is not ok). *)
Inductive StatusAnswer :=
| StatusJob (job : UploadJob)
| StatusRejected (msg : string).

Inductive PollEvent :=
| GetStatus (jobId : string)          (* fetch of /upload/status/{jobId} *)
| OnUpdate (job : UploadJob)          (* onUpdate(job) *)
| ConsoleError                        (* console.error('Polling error:', ...) *)
| SetTimeout (delay : Z).             (* setTimeout(poll, delay) *)

Inductive Scheduled := NoTimer | Timer (delay : Z).

(* The callback either returns or throws. *)
Inductive Completion := Returns | Throws.

Definition DEFAULT_INTERVAL_MS : Z := 1000.

(* `job.completed || job.error` as a condition *)
Definition terminal (job : UploadJob) : bool :=
  completed job || truthy (error job).

(* One run of the closure `poll`: its events, the value it leaves in
   `active`, and the timer it sets. *)
Definition poll (jobId : string) (onUpdate : UploadJob -> Completion)
    (intervalMs : Z) (active : bool) (a : StatusAnswer)
  : list PollEvent * bool * Scheduled :=
  if negb active then ([], active, NoTimer)
  else
    match a with
    | StatusJob job =>
        match onUpdate job with
        | Returns =>
            if terminal job
            then ([GetStatus jobId; OnUpdate job], false, NoTimer)
            else ([GetStatus jobId; OnUpdate job], active, Timer intervalMs)
        | Throws =>
            ([GetStatus jobId; OnUpdate job; ConsoleError], active,
             Timer (intervalMs * 2))
        end
    | StatusRejected _ =>
        ([GetStatus jobId; ConsoleError], active, Timer (intervalMs * 2))
    end.

(* What happens around one firing of poll: whether the returned cancel
   function was called before the firing begins, and what the status
   request gives.  `active` is read once, at the start of a firing: a
   cancel while a request is under way shows at the next firing. *)
Record Tick := mkTick { cancelled : bool; answer : StatusAnswer }.

(* pollUploadStatus: the first poll() and every later firing of the timer. *)
Fixpoint poll_loop (jobId : string) (onUpdate : UploadJob -> Completion)
    (intervalMs : Z) (active : bool) (ticks : list Tick) : list PollEvent :=
  match ticks with
  | [] => []
  | t :: rest =>
      let active := if cancelled t then false else active in
      let '(evs, active', timer) := poll jobId onUpdate intervalMs active (answer t) in
      match timer with
      | NoTimer => evs
      | Timer d => evs ++ SetTimeout d :: poll_loop jobId onUpdate intervalMs active' rest
      end
  end.

Definition pollUploadStatus (jobId : string) (onUpdate : UploadJob -> Completion)
    (intervalMs : option Z) (ticks : list Tick) : list PollEvent :=
  poll_loop jobId onUpdate (default DEFAULT_INTERVAL_MS intervalMs) true ticks.

(* ------------------------------------------------------------------- *)
(*  generateResponse                                                    *)
(* ------------------------------------------------------------------- *)







(* ------------------------------------------------------------------- *)
(*  Reading a run of the polling loop                                   *)
(* ------------------------------------------------------------------- *)

(* The jobs handed to the callback, in order. *)
Definition updates (t : list PollEvent) : list UploadJob :=
  omap (fun e => match e with OnUpdate job => Some job | _ => None end) t.

(* The job ids asked for, request by request. *)
Definition requests (t : list PollEvent) : list string :=
  omap (fun e => match e with GetStatus jobId => Some jobId | _ => None end) t.

(* The job that a tick delivers, if its request succeeds. *)
Definition tick_job (t : Tick) : option UploadJob :=
  match answer t with
  | StatusJob job => Some job
  | StatusRejected _ => None
  end.

(* The keys of a form, in the order of their entries. *)
Definition keys (formData : FormData) : list string := formData.*1.

Definition FORM_KEYS : list string :=
  ["video"; "subtitle"; "profile"; "title"; "description"; "privacy"; "language"].

(* Sample data: a job that is still uploading, the same job reported with
   an error that is the empty string, and a callback that never throws. *)
Definition uploading_job : UploadJob :=
  {| job_id := "job-1"; job_profile := "default"; video_filename := "clip.mp4";
     subtitle_filename := None; job_title := "clip"; status := "uploading";
     video_progress := 40; video_id := None; video_url := None;
     subtitle_uploaded := false; completed := false; error := None;
     created_at := "2025-01-01T00:00:00" |}.

Definition blank_error_job : UploadJob :=
  {| job_id := "job-1"; job_profile := "default"; video_filename := "clip.mp4";
     subtitle_filename := None; job_title := "clip"; status := "error";
     video_progress := 40; video_id := None; video_url := None;
     subtitle_uploaded := false; completed := false; error := Some "";
     created_at := "2025-01-01T00:00:00" |}.

Definition quiet : UploadJob -> Completion := fun _ => Returns.

(* The job reported as completed, and a callback that throws on every
   status. *)
Definition finished_job : UploadJob :=
  {| job_id := "job-1"; job_profile := "default"; video_filename := "clip.mp4";
     subtitle_filename := None; job_title := "clip"; status := "completed";
     video_progress := 100; video_id := Some "abc";
     video_url := Some "https://youtu.be/abc";
     subtitle_uploaded := false; completed := true; error := None;
     created_at := "2025-01-01T00:00:00" |}.

Definition throwing : UploadJob -> Completion := fun _ => Throws.

Definition clip_file : File := {| file_name := "clip.mp4" |}.
Definition srt_file : File := {| file_name := "clip.srt" |}.

(* What a run of the polling loop looks like at each of its positions. *)
Definition well_paced (onUpdate : UploadJob -> Completion) (ms : Z)
    (t : list PollEvent) : Prop :=
  (forall i job,
      t !! i = Some (OnUpdate job) -> onUpdate job = Returns ->
      if terminal job then length t = S i
      else t !! S i = Some (SetTimeout ms))
  /\ (forall i, t !! i = Some ConsoleError -> t !! S i = Some (SetTimeout (ms * 2)))
  /\ (forall i d, t !! i = Some (SetTimeout d) -> d = ms \/ d = ms * 2)
  /\ (forall i jobId, t !! i = Some (GetStatus jobId) ->
        i = 0%nat \/ exists j d, i = S j /\ t !! j = Some (SetTimeout d)).

End Api.

(* ===================================================================== *)
(*  Part II b.  The dashboard (components/Dashboard)                      *)
(* ===================================================================== *)

Module Dash.

Inductive FileStatus := StPending | StUploading | StCompleted | StError.

(* interface UploadFile *)
Record UploadFile := mkUploadFile {
  id : string;
  video : Api.File;
  subtitle : option Api.File;
  title : string;
  status : FileStatus;
  progress : Z;
  jobId : option string;
  videoUrl : option string;
  error : option string
}.

(* Case folding of a regular expression with the flag i and without the
   flag u: a character is compared by its upper case.  Strings are held as
   UTF-8 bytes; the bytes of a character outside ASCII never compare equal
   to an ASCII character, as the folding of such a character never does. *)
Definition canonicalize (c : Ascii.ascii) : Ascii.ascii :=
  let n := Ascii.nat_of_ascii c in
  if (97 <=? n)%nat && (n <=? 122)%nat then Ascii.ascii_of_nat (n - 32) else c.

(* The whole of s matches the literal pat, case folded. *)
Fixpoint eqb_ci (pat s : string) : bool :=
  match pat, s with
  | EmptyString, EmptyString => true
  | String x pat', String y s' =>
      Ascii.eqb (canonicalize x) (canonicalize y) && eqb_ci pat' s'
  | _, _ => false
  end.

(* /pat$/i.test(s): some end of s matches pat. *)
Fixpoint ends_ci (pat s : string) : bool :=
  eqb_ci pat s ||
  match s with
  | EmptyString => false
  | String _ s' => ends_ci pat s'
  end.

Definition VIDEO_TYPES : list string := ["mp4"; "mov"; "mkv"; "avi"; "wmv"; "flv"; "webm"].
Definition SUBTITLE_TYPES : list string := ["srt"; "vtt"; "sbv"; "sub"; "ass"].

(* /\.(a|b|...)$/i.test(name) *)
Definition test_types (types : list string) (name : string) : bool :=
  existsb (fun t => ends_ci ("." +:+ t) name) types.

Definition is_video (f : Api.File) : bool := test_types VIDEO_TYPES (Api.file_name f).
Definition is_subtitle (f : Api.File) : bool := test_types SUBTITLE_TYPES (Api.file_name f).

Definition slash : Ascii.ascii := Eval cbv in Ascii.ascii_of_nat 47.
Definition dot : Ascii.ascii := Eval cbv in Ascii.ascii_of_nat 46.

(* [^/.]+$ : the whole of s, not empty, has neither a slash nor a dot. *)
Fixpoint plain (s : string) : bool :=
  match s with
  | EmptyString => true
  | String c s' =>
      negb (Ascii.eqb c slash) && negb (Ascii.eqb c dot) && plain s'
  end.

Definition is_extension (s : string) : bool :=
  match s with
  | EmptyString => false
  | _ => plain s
  end.

(* name.replace(/\.[^/.]+$/, ''): the first place at which a dot followed
   by an extension ends the name is where the name is cut. *)
Fixpoint strip_extension (s : string) : string :=
  match s with
  | EmptyString => EmptyString
  | String c s' =>
      if Ascii.eqb c dot && is_extension s' then EmptyString
      else String c (strip_extension s')
  end.

Inductive LogLevel := INFO | UPLOAD | SUCCESS | ERROR.

Section Files.

(* String.prototype.toLowerCase *)
Variable toLowerCase : string -> string.

(* Math.random().toString(36).substr(2, 9), call after call *)
Variable random_id : nat -> string.

(* subtitleFiles.find(sub => ...) for a video of the given base name *)
Definition matching_subtitle (subtitleFiles : list Api.File) (baseName : string)
  : option Api.File :=
  head (filter (fun sub =>
          String.eqb (toLowerCase (strip_extension (Api.file_name sub)))
                     (toLowerCase baseName)) subtitleFiles).

(* The entries that processFiles makes for the files dropped. *)
Definition new_files (filesArray : list Api.File) : list UploadFile :=
  let videoFiles := filter is_video filesArray in
  let subtitleFiles := filter is_subtitle filesArray in
  imap (fun i video =>
          let baseName := strip_extension (Api.file_name video) in
          {| id := random_id i;
             video := video;
             subtitle := matching_subtitle subtitleFiles baseName;
             title := baseName;
             status := StPending;
             progress := 0;
             jobId := None;
             videoUrl := None;
             error := None |}) videoFiles.

(* The line logged for a new entry. *)
Definition added_message (f : UploadFile) : string :=
  "已添加: " +:+ Api.file_name (video f) +:+
  match subtitle f with
  | Some sub => " (+字幕: " +:+ Api.file_name sub +:+ ")"
  | None => ""
  end.

(* processFiles: the new value of the state `files` and the lines logged
   (the id and the time that addLog gives a line are left out). *)
Definition processFiles (files : list UploadFile) (filesArray : list Api.File)
  : list UploadFile * list (LogLevel * string) :=
  let newFiles := new_files filesArray in
  ((files ++ newFiles)%list, (fun f => (INFO, added_message f)) <$> newFiles).

End Files.

(* removeFile *)
Definition removeFile (files : list UploadFile) (file_id : string) : list UploadFile :=
  filter (fun f => negb (String.eqb (id f) file_id)) files.

(* ------------------------------------------------------------------- *)
(*  startUpload                                                         *)
(* ------------------------------------------------------------------- *)

(* api.AuthStatus; startUpload reads only `authenticated`. *)
Record AuthStatus := mkAuthStatus { authenticated : bool }.

(* The state of the component that startUpload reads besides `files`. *)
Record Settings := mkSettings {
  authStatus : option AuthStatus;
  profile : string;
  privacy : Api.Privacy;
  language : string
}.

(* What startUpload does, apart from the updates of `files`. *)
Inductive UiEvent :=
| AddLog (level : LogLevel) (message : string)
| SetIsProcessing (b : bool)
| UploadVideo (r : Api.Request)       (* the request of api.uploadVideo *)
| Polling (e : Api.PollEvent).        (* a step of api.pollUploadStatus *)

(* What the server does for one file: its answer to the upload request,
   and then to the status requests, one after the other. *)
Record Served := mkServed {
  upload_answer : Api.UploadAnswer;
  status_answers : list Api.StatusAnswer
}.

(* setFiles(prev => prev.map(f => f.id === file_id ? g(f) : f)) *)
Definition set_where (file_id : string) (g : UploadFile -> UploadFile)
    (prev : list UploadFile) : list UploadFile :=
  (fun f => if String.eqb (id f) file_id then g f else f) <$> prev.

(* { ...f, status: 'uploading' } *)
Definition with_status (s : FileStatus) (f : UploadFile) : UploadFile :=
  {| id := id f; video := video f; subtitle := subtitle f; title := title f;
     status := s; progress := progress f; jobId := jobId f;
     videoUrl := videoUrl f; error := error f |}.

(* { ...f, jobId: response.job_id } *)
Definition with_jobId (job_id : string) (f : UploadFile) : UploadFile :=
  {| id := id f; video := video f; subtitle := subtitle f; title := title f;
     status := status f; progress := progress f; jobId := Some job_id;
     videoUrl := videoUrl f; error := error f |}.

(* job.completed ? 'completed' : job.error ? 'error' : 'uploading' *)
Definition job_status (job : Api.UploadJob) : FileStatus :=
  if Api.completed job then StCompleted
  else if Api.truthy (Api.error job) then StError
  else StUploading.

(* { ...f, progress: job.video_progress, status: ..., videoUrl: job.video_url,
     error: job.error } *)
Definition with_job (job : Api.UploadJob) (f : UploadFile) : UploadFile :=
  {| id := id f; video := video f; subtitle := subtitle f; title := title f;
     status := job_status job; progress := Api.video_progress job;
     jobId := jobId f; videoUrl := Api.video_url job; error := Api.error job |}.

(* { ...f, status: 'error', error: errorMsg } *)
Definition with_failure (errorMsg : string) (f : UploadFile) : UploadFile :=
  {| id := id f; video := video f; subtitle := subtitle f; title := title f;
     status := StError; progress := progress f; jobId := jobId f;
     videoUrl := videoUrl f; error := Some errorMsg |}.

(* The callback given to pollUploadStatus for `file`: the new value of
   `files`, the lines logged, and whether resolve() was called. *)
Definition on_job (file : UploadFile) (job : Api.UploadJob) (prev : list UploadFile)
  : list UploadFile * list UiEvent * bool :=
  let prev := set_where (id file) (with_job job) prev in
  if Api.completed job then
    (prev,
     AddLog SUCCESS ("上傳完成: " +:+ Api.file_name (video file) +:+ " → "
                     +:+ default "null" (Api.video_url job))
     :: (if Api.subtitle_uploaded job
         then [AddLog SUCCESS ("字幕已附加: "
                 +:+ from_option Api.file_name "undefined" (subtitle file))]
         else []),
     true)
  else if Api.truthy (Api.error job) then
    (prev, [AddLog ERROR ("上傳失敗: " +:+ default "" (Api.error job))], true)
  else (prev, [], false).

(* A run of the polling loop seen from the dashboard: each call of the
   callback does what on_job does. *)
Fixpoint deliver (file : UploadFile) (evs : list Api.PollEvent) (prev : list UploadFile)
  : list UploadFile * list UiEvent * bool :=
  match evs with
  | [] => (prev, [], false)
  | e :: evs' =>
      match e with
      | Api.OnUpdate job =>
          let called := on_job file job prev in
          let later := deliver file evs' called.1.1 in
          (later.1.1, (Polling e :: called.1.2 ++ later.1.2)%list,
           called.2 || later.2)
      | _ =>
          let later := deliver file evs' prev in
          (later.1.1, Polling e :: later.1.2, later.2)
      end
  end.

(* { profile, title: file.title, privacy, language } *)
Definition options_for (st : Settings) (file : UploadFile) : Api.UploadOptions :=
  {| Api.profile := Some (profile st); Api.title := Some (title file);
     Api.description := None; Api.privacy := Some (privacy st);
     Api.language := Some (language st) |}.

(* The body of the loop for a file that is not completed: the new value
   of `files`, what was done, and whether the body came to its end (the
   promise was resolved, or the request failed and was caught). *)
Definition upload_one (st : Settings) (file : UploadFile) (s : Served)
    (prev : list UploadFile) : list UploadFile * list UiEvent * bool :=
  let prev := set_where (id file) (with_status StUploading) prev in
  let started := AddLog UPLOAD ("正在上傳: " +:+ Api.file_name (video file)) in
  let call :=
    Api.uploadVideo (video file) (subtitle file) (Some (options_for st file))
      (upload_answer s) in
  match call.2 with
  | inl response =>
      let prev := set_where (id file) (with_jobId (Api.r_job_id response)) prev in
      let polled :=
        deliver file
          (Api.pollUploadStatus (Api.r_job_id response) Api.quiet None
             (Api.mkTick false <$> status_answers s)) prev in
      (polled.1.1, started :: UploadVideo call.1 :: polled.1.2, polled.2)
  | inr errorMsg =>
      (set_where (id file) (with_failure errorMsg) prev,
       [started; UploadVideo call.1; AddLog ERROR ("上傳失敗: " +:+ errorMsg)],
       true)
  end.

(* The loop over the files of the closure, with `prev` the current value
   of the state.  The run is followed as far as the server's answers go:
   the last component tells whether the loop came to its end. *)
Fixpoint upload_each (st : Settings) (todo : list UploadFile) (served : list Served)
    (prev : list UploadFile) : list UploadFile * list UiEvent * bool :=
  match todo with
  | [] => (prev, [], true)
  | file :: rest =>
      match status file with
      | StCompleted => upload_each st rest served prev
      | _ =>
          match served with
          | [] => (prev, [], false)
          | s :: served' =>
              let one := upload_one st file s prev in
              if one.2 then
                let more := upload_each st rest served' one.1.1 in
                (more.1.1, (one.1.2 ++ more.1.2)%list, more.2)
              else one
          end
      end
  end.

(* authStatus?.authenticated as a condition *)
Definition signed_in (st : Settings) : bool :=
  match authStatus st with
  | Some a => authenticated a
  | None => false
  end.

(* startUpload, called while `files` is the current value of the state
   and nothing else changes it: the final value of the state, what was
   done, and whether the function returned. *)
Definition startUpload (st : Settings) (files : list UploadFile) (served : list Served)
  : list UploadFile * list UiEvent * bool :=
  if negb (signed_in st) then
    (files, [AddLog ERROR "請先登錄 Google 帳戶"], true)
  else
    match files with
    | [] => (files, [AddLog ERROR "請先添加視頻文件"], true)
    | _ =>
        let run := upload_each st files served files in
        (run.1.1,
         SetIsProcessing true
         :: AddLog INFO ("開始上傳 " +:+ pretty (length files) +:+ " 個視頻...")
         :: (run.1.2
             ++ (if run.2 then [AddLog INFO "批量上傳完成!"; SetIsProcessing false]
                 else []))%list,
         run.2)
    end.

(* The upload requests of a run, in order. *)
Definition uploads (evs : list UiEvent) : list Api.Request :=
  omap (fun e => match e with UploadVideo r => Some r | _ => None end) evs.

(* The steps of the polling loops of a run, in order. *)
Definition pollings (evs : list UiEvent) : list Api.PollEvent :=
  omap (fun e => match e with Polling p => Some p | _ => None end) evs.

(* The lines logged by a run, in order. *)
Definition logged (evs : list UiEvent) : list (LogLevel * string) :=
  omap (fun e => match e with AddLog l m => Some (l, m) | _ => None end) evs.

(* file.status === 'completed' *)
Definition is_completed (f : UploadFile) : bool :=
  match status f with
  | StCompleted => true
  | _ => false
  end.

(* The files that a run of startUpload has to upload. *)
Definition unfinished (files : list UploadFile) : list UploadFile :=
  filter (fun f => negb (is_completed f)) files.


(* 'completed' or 'error' *)
Definition settled (f : UploadFile) : bool :=
  match status f with
  | StCompleted | StError => true
  | _ => false
  end.


(* What an update of the entries of one id leaves of an entry. *)
Definition touches (i : string) (f f' : UploadFile) : Prop :=
  id f' = id f /\ video f' = video f /\ subtitle f' = subtitle f
  /\ title f' = title f /\ (id f <> i -> f' = f).

(* An update that keeps what identifies an entry. *)
Definition keeps (g : UploadFile -> UploadFile) : Prop :=
  forall f, id (g f) = id f /\ video (g f) = video f
            /\ subtitle (g f) = subtitle f /\ title (g f) = title f.

(* What a run of the loop over `todo` makes of an entry. *)
Definition batch (todo : list UploadFile) (fin : bool) (f f' : UploadFile) : Prop :=
  id f' = id f /\ video f' = video f /\ subtitle f' = subtitle f
  /\ title f' = title f
  /\ ((id f ∉ id <$> unfinished todo) -> f' = f)
  /\ (fin = true -> (id f ∈ id <$> unfinished todo) -> settled f' = true).

(* Two lists of types of which none ends another. *)
Definition apart (ts us : list string) : bool :=
  forallb (fun t =>
    forallb (fun u =>
      negb (ends_ci ("." +:+ t) ("." +:+ u) || ends_ci ("." +:+ u) ("." +:+ t))) us) ts.

(* toLowerCase on the letters A to Z. *)
Definition ascii_lower (c : Ascii.ascii) : Ascii.ascii :=
  let n := Ascii.nat_of_ascii c in
  if (65 <=? n)%nat && (n <=? 90)%nat then Ascii.ascii_of_nat (n + 32) else c.

Fixpoint lower_ascii (s : string) : string :=
  match s with
  | EmptyString => EmptyString
  | String c s' => String (ascii_lower c) (lower_ascii s')
  end.

(* Sample data: a drop of two videos, a subtitle and a picture. *)
Definition trip_mp4 : Api.File := {| Api.file_name := "Trip.2024.MP4" |}.
Definition trip_srt : Api.File := {| Api.file_name := "trip.2024.srt" |}.
Definition talk_webm : Api.File := {| Api.file_name := "talk.webm" |}.
Definition cover_png : Api.File := {| Api.file_name := "cover.png" |}.

Definition drop : list Api.File := [trip_mp4; cover_png; trip_srt; talk_webm].

Definition numbered : nat -> string := fun i => "id" +:+ pretty i.

(* A signed-in dashboard, the queue that the drop makes, and a server
   that takes the first video and turns the second away. *)
Definition signed : Settings :=
  {| authStatus := Some (mkAuthStatus true); profile := "default";
     privacy := Api.private; language := "en" |}.

Definition queue : list UploadFile := new_files lower_ascii numbered drop.

Definition done_job : Api.UploadJob :=
  {| Api.job_id := "job-1"; Api.job_profile := "default";
     Api.video_filename := "Trip.2024.MP4";
     Api.subtitle_filename := Some "trip.2024.srt"; Api.job_title := "Trip.2024";
     Api.status := "completed"; Api.video_progress := 100;
     Api.video_id := Some "abc"; Api.video_url := Some "https://youtu.be/abc";
     Api.subtitle_uploaded := true; Api.completed := true; Api.error := None;
     Api.created_at := "2025-01-01T00:00:00" |}.

Definition accepted : Api.UploadResponse :=
  {| Api.r_job_id := "job-1"; Api.r_message := "Upload started";
     Api.r_status_url := "/api/upload/status/job-1" |}.

Definition server : list Served :=
  [ {| upload_answer := Api.UploadOk accepted;
       status_answers := [Api.StatusJob Api.uploading_job;
                          Api.StatusRejected "Failed to get upload status";
                          Api.StatusJob done_job] |};
    {| upload_answer := Api.UploadNotOk (Some "Quota exceeded");
       status_answers := [] |} ].

End Dash.

(* ===================================================================== *)
(*  Part III.  Properties of the uploader script                          *)
(* ===================================================================== *)

Module PyFacts.
Import Py.
#[local] Open Scope list_scope.

Section Monad.
Context {A B : Type}.

Lemma bind_return (m : Proc A) (k : A -> Proc B) a :
  result m = Return a ->
  m ≫= k = mkProc (trace m ++ trace (k a)) (result (k a)).
Proof. intros H. unfold mbind, Proc_bind, bind. by rewrite H. Qed.

Lemma bind_fail (m : Proc A) (k : A -> Proc B) f :
  result m = Fail f -> m ≫= k = mkProc (trace m) (Fail f).
Proof. intros H. unfold mbind, Proc_bind, bind. by rewrite H. Qed.

End Monad.

(* --------------------------------------------------------------------- *)
(*  The upload loop                                                       *)
(* --------------------------------------------------------------------- *)

Lemma calls_cons_next f t : calls (EvNextChunk f :: t) = S (calls t).
Proof. reflexivity. Qed.

Lemma calls_app t1 t2 : calls (t1 ++ t2) = (calls t1 + calls t2)%nat.
Proof. unfold calls. by rewrite filter_app, length_app. Qed.

(* Case analysis on the answer of next_chunk and on the tests that
   chunk_step makes on it. *)
Ltac by_chunk_cases a :=
  destruct a as [[?|] [?|]|?|?]; simpl; repeat case_match;
  intros; simpl in *; simplify_eq; simpl; try done; try lia.

(* What one iteration emits besides the request: no request, and at most
   the one update of the progress bar that on_status makes. *)
Lemma chunk_step_calls s a t : calls ((chunk_step s a).1 ++ t) = calls t.
Proof.
  by_chunk_cases a.
Qed.

Lemma chunk_step_history s a t :
  pbar_history (pbar_n s) ((chunk_step s a).1 ++ t) =
    match a with
    | ChunkReturn (Some p) _ =>
        let n := pbar_n s + (p - previous_progress s) in n :: pbar_history n t
    | _ => pbar_history (pbar_n s) t
    end.
Proof.
  by_chunk_cases a.
Qed.

Lemma chunk_step_in_step s a s' :
  in_step s -> (chunk_step s a).2 = Next s' -> in_step s'.
Proof.
  unfold in_step. intros Hs. revert Hs. by_chunk_cases a.
Qed.


Lemma chunk_step_pbar s a s' :
  (chunk_step s a).2 = Next s' ->
  pbar_n s' =
    match a with
    | ChunkReturn (Some p) _ => pbar_n s + (p - previous_progress s)
    | _ => pbar_n s
    end.
Proof.
  by_chunk_cases a.
Qed.

Lemma reported_cons a rest :
  reported (a :: rest) =
    match a with
    | ChunkReturn (Some p) _ => p :: reported rest
    | _ => reported rest
    end.
Proof. by destruct a as [[?|] ?|?|?]. Qed.

Lemma upload_loop_cons f a rest s :
  upload_loop f (a :: rest) s =
    match (chunk_step s a).2 with
    | Next s' =>
        mkProc (EvNextChunk f :: (chunk_step s a).1 ++ trace (upload_loop f rest s'))
               (result (upload_loop f rest s'))
    | Done resp s' => mkProc (EvNextChunk f :: (chunk_step s a).1) (Return (resp, s'))
    | Stop fl => mkProc (EvNextChunk f :: (chunk_step s a).1) (Fail fl)
    end.
Proof. simpl. by destruct (chunk_step s a) as [evs [?|? ?|?]]. Qed.

#[local] Arguments calls : simpl never.
#[local] Arguments reported : simpl never.
#[local] Arguments upload_loop : simpl never.
#[local] Arguments chunk_step : simpl never.

(* The progress bar shows, update after update, the offsets that the
   answered calls reported. *)
Lemma upload_loop_history f answers s :
  in_step s ->
  pbar_history (pbar_n s) (trace (upload_loop f answers s)) =
  reported (take (calls (trace (upload_loop f answers s))) answers).
Proof.
  revert s. induction answers as [|a rest IH]; intros s Hs; [done|].
  rewrite upload_loop_cons.
  pose proof (chunk_step_in_step s a) as Hi.
  pose proof (chunk_step_pbar s a) as Hp.
  destruct ((chunk_step s a).2) as [s'|resp s'|fl]; simpl trace.
  - specialize (Hi s' Hs eq_refl). specialize (Hp s' eq_refl).
    rewrite calls_cons_next, chunk_step_calls. simpl pbar_history.
    rewrite chunk_step_history, firstn_cons, reported_cons, <- (IH s' Hi).
    unfold in_step in Hs.
    destruct a as [[q|] ?|?|?]; simpl; rewrite <- ?Hp; try done.
    f_equal; lia.
  - rewrite calls_cons_next, <- (app_nil_r (chunk_step s a).1), chunk_step_calls.
    simpl pbar_history. rewrite chunk_step_history, firstn_cons, reported_cons.
    unfold in_step in Hs.
    destruct a as [[q|] ?|?|?]; simpl; try done. f_equal; lia.
  - rewrite calls_cons_next, <- (app_nil_r (chunk_step s a).1), chunk_step_calls.
    simpl pbar_history. rewrite chunk_step_history, firstn_cons, reported_cons.
    unfold in_step in Hs.
    destruct a as [[q|] ?|?|?]; simpl; try done. f_equal; lia.
Qed.

Lemma transient_not_quota e :
  resp_status e ∈ transient_statuses -> (resp_status e =? 403)%Z = false.
Proof.
  unfold transient_statuses. rewrite !elem_of_cons, elem_of_nil. lia.
Qed.

Lemma chunk_step_transient s e :
  resp_status e ∈ transient_statuses ->
  chunk_step s (ChunkHttpError e) =
    ([EvLog WARNING "[WARNING] Network error, retrying chunk..."], Next s).
Proof.
  intros H. unfold chunk_step.
  by rewrite (transient_not_quota e H), bool_decide_eq_true_2.
Qed.

Lemma reported_take_sorted k answers :
  StronglySorted Z.le (0 :: reported answers) ->
  StronglySorted Z.le (0 :: reported (take k answers)).
Proof.
  rewrite <- (take_drop k answers) at 1. unfold reported.
  rewrite omap_app, app_comm_cons. apply StronglySorted_app_1_l.
Qed.

Lemma last_cons_default (p d : Z) l : List.last (p :: l) d = List.last l p.
Proof.
  revert p d. induction l as [|q l IH]; intros p d; [done|].
  change (List.last (q :: l) d = List.last (q :: l) p). by rewrite !IH.
Qed.

#[local] Arguments List.last : simpl never.

(* While the loop runs, previous_progress is the offset reported last and
   the counter of the bar agrees with it. *)
Lemma advance_tracks pre s0 s :
  in_step s0 ->
  advance s0 pre = Some s ->
  in_step s /\ previous_progress s = List.last (reported pre) (previous_progress s0).
Proof.
  revert s0. induction pre as [|a pre IH]; intros s0 Hs0; simpl advance.
  - intros [= <-]. done.
  - pose proof (chunk_step_in_step s0 a) as Hi.
    destruct ((chunk_step s0 a).2) as [s1|? ?|?] eqn:Hstep; [|done..].
    intros Hadv. destruct (IH s1 (Hi s1 Hs0 eq_refl) Hadv) as [Hin ->].
    split; [done|]. rewrite reported_cons.
    revert Hstep. unfold chunk_step.
    destruct a as [[q|] [?|]|e|?]; simpl; try done.
    + intros [= <-]. by rewrite last_cons_default.
    + by intros [= <-].
    + destruct (resp_status e =? 403)%Z; [done|].
      destruct (bool_decide (resp_status e ∈ transient_statuses)); [|done].
      by intros [= <-].
Qed.

(** C1, as the script has it.  During a session the counter of the
    progress bar takes, update after update, exactly the offsets that the
    answered calls of next_chunk reported, and while the loop runs
    previous_progress and the counter both equal the offset reported last;
    a chunk answered by a 500, 502, 503 or 504 reports nothing and leaves
    previous_progress and the counter as they were; so the count never
    decreases as long as the offsets reported by the upload library do
    not. *)
Theorem progress_follows_reported_offsets (f : Path) (answers : list ChunkResult) :
  let p := upload_loop f answers init_state in
  pbar_history 0 (trace p) = reported (take (calls (trace p)) answers)
  /\ (forall pre s, advance init_state pre = Some s ->
        pbar_n s = previous_progress s
        /\ previous_progress s = List.last (reported pre) 0)
  /\ (forall s e, resp_status e ∈ transient_statuses ->
        (chunk_step s (ChunkHttpError e)).2 = Next s)
  /\ (StronglySorted Z.le (0 :: reported answers) ->
        StronglySorted Z.le (0 :: pbar_history 0 (trace p))).
Proof.
  intros p.
  assert (Hh : pbar_history 0 (trace p) = reported (take (calls (trace p)) answers))
    by (apply (upload_loop_history f answers init_state); reflexivity).
  split; [exact Hh|]. split; [|split].
  - intros pre s Hadv. by apply (advance_tracks pre init_state s).
  - intros s e He. by rewrite chunk_step_transient.
  - intros Hs. rewrite Hh. by apply reported_take_sorted.
Qed.

Lemma progress_follows_reported_offsets_witness :
  (StronglySorted Z.le (0 :: reported session_with_retries)
   /\ StronglySorted Z.le
        (0 :: pbar_history 0 (trace (upload_loop clip session_with_retries init_state))))
  /\ (resp_status unavailable ∈ transient_statuses
      /\ (chunk_step init_state (ChunkHttpError unavailable)).2 = Next init_state)
  /\ (advance init_state (take 4 session_with_retries)
        = Some {| previous_progress := 2 * MiB; pbar_n := 2 * MiB |}
      /\ 2 * MiB = List.last (reported (take 4 session_with_retries)) 0).
Proof.
  pose proof (progress_follows_reported_offsets clip session_with_retries)
    as (_ & Hadv & Hretry & Hsorted).
  assert (H : StronglySorted Z.le (0 :: reported session_with_retries)).
  { vm_compute. repeat constructor; discriminate. }
  assert (Ht : resp_status unavailable ∈ transient_statuses).
  { apply list_elem_of_In. vm_compute. tauto. }
  split; [exact (conj H (Hsorted H))|].
  split; [exact (conj Ht (Hretry init_state unavailable Ht))|].
  split; [reflexivity|].
  exact (proj2 (Hadv (take 4 session_with_retries) _ eq_refl)).
Defined.

(** C1 as stated fails: when the library reports 2 MiB, the next chunk fails
    with a 503, and the library then reports 1 MiB, the script passes
    -1 MiB to pbar.update and the count goes from 2 MiB back to 1 MiB. *)
Lemma progress_can_regress :
  let t := trace (upload_loop clip session_with_regress init_state) in
  pbar_history 0 t = [2 * MiB; MiB]
  /\ (EvPbarUpdate (- MiB) ∈ t)
  /\ ~ StronglySorted Z.le (pbar_history 0 t).
Proof.
  split; [reflexivity|]. split.
  - apply list_elem_of_In. vm_compute. do 5 right. by left.
  - vm_compute. intros H. inversion H as [|? ? ? Hall]; subst.
    inversion Hall as [|? ? Hle]; subst. by apply Hle.
Qed.

(* --------------------------------------------------------------------- *)
(*  Transient failures                                                    *)
(* --------------------------------------------------------------------- *)

Lemma upload_loop_retries f e n rest s :
  resp_status e ∈ transient_statuses ->
  upload_loop f (replicate n (ChunkHttpError e) ++ rest) s =
    mkProc (mjoin (replicate n (retry_events f)) ++ trace (upload_loop f rest s))
           (result (upload_loop f rest s)).
Proof.
  intros He. induction n as [|n IH]; simpl.
  - by destruct (upload_loop f rest s).
  - rewrite upload_loop_cons, (chunk_step_transient s e He). simpl.
    by rewrite IH.
Qed.

Lemma pbar_history_retries f n m t :
  pbar_history m (mjoin (replicate n (retry_events f)) ++ t) = pbar_history m t.
Proof. induction n as [|n IH]; simpl; done. Qed.

Lemma pbar_history_ext evs t1 t2 :
  (forall m, pbar_history m t1 = pbar_history m t2) ->
  forall m, pbar_history m (evs ++ t1) = pbar_history m (evs ++ t2).
Proof.
  intros H. induction evs as [|ev evs IH]; intros m; simpl; [done|].
  destruct ev; by rewrite ?IH.
Qed.

Lemma pbar_history_quiet_tail t tail :
  (forall m, pbar_history m tail = []) ->
  forall m, pbar_history m (t ++ tail) = pbar_history m t.
Proof.
  intros H. induction t as [|ev t IH]; intros m; simpl; [done|].
  destruct ev; by rewrite ?IH.
Qed.

(* Failures put anywhere into a session change neither how the loop ends
   nor what the progress bar shows. *)
Lemma upload_loop_insert f e n pre post s :
  resp_status e ∈ transient_statuses ->
  result (upload_loop f (pre ++ replicate n (ChunkHttpError e) ++ post) s) =
    result (upload_loop f (pre ++ post) s)
  /\ forall m,
      pbar_history m (trace (upload_loop f (pre ++ replicate n (ChunkHttpError e) ++ post) s)) =
      pbar_history m (trace (upload_loop f (pre ++ post) s)).
Proof.
  intros He. revert s. induction pre as [|a pre IH]; intros s.
  - simpl app. rewrite upload_loop_retries by done. simpl. split; [done|].
    intros m. apply pbar_history_retries.
  - simpl app. rewrite !upload_loop_cons.
    destruct ((chunk_step s a).2) as [s'|resp s'|fl]; simpl; try done.
    destruct (IH s') as [Hr Hh]. split; [done|].
    intros m. by apply pbar_history_ext.
Qed.

(* upload_video in terms of its loop. *)
Lemma upload_video_loop w f :
  let p := upload_loop f (chunk_answers w f) init_state in
  let opening :=
    [EvLog INFO (nl +:+ "[UPLOAD] Processing: " +:+ name f);
     EvVideosInsert (stem f) ("Uploaded via CLI automation. Source: " +:+ name f)
       "22" "private";
     EvPbarOpen (st_size w f)] in
  upload_video w f =
    match result p with
    | Return (response, _) =>
        match response !! "id" with
        | Some video_id =>
            mkProc (opening ++ trace p ++
                    [EvPbarClose; EvLog INFO ("[SUCCESS] Video uploaded. ID: " +:+ video_id)])
                   (Return (Some video_id))
        | None =>
            mkProc (opening ++ trace p ++
                    [EvPbarClose; EvLog ERROR "[ERROR] Upload failed, no ID returned."])
                   (Return None)
        end
    | Fail fl => mkProc (opening ++ trace p) (Fail fl)
    end.
Proof.
  intros p opening. unfold upload_video. fold p. unfold opening.
  destruct p as [tr [[response s]|fl]]; cbn; [|done].
  destruct (response !! "id"); cbn; done.
Qed.

Lemma upload_loop_advance f pre rest s s' :
  advance s pre = Some s' ->
  exists t,
    calls t = length pre
    /\ upload_loop f (pre ++ rest) s =
         mkProc (t ++ trace (upload_loop f rest s')) (result (upload_loop f rest s')).
Proof.
  revert s. induction pre as [|a pre IH]; intros s; simpl advance.
  - intros [= <-]. exists []. split; [done|]. simpl.
    by destruct (upload_loop f rest s).
  - simpl app. rewrite upload_loop_cons.
    destruct ((chunk_step s a).2) as [s1|resp s1|fl]; [|done..].
    intros H. destruct (IH _ H) as (t & Hc & ->). simpl.
    exists (EvNextChunk f :: (chunk_step s a).1 ++ t). split.
    + by rewrite calls_cons_next, chunk_step_calls, Hc.
    + by rewrite <- app_comm_cons, <- app_assoc.
Qed.

Lemma transient_literal e :
  resp_status e = 500 \/ resp_status e = 502 \/ resp_status e = 503
  \/ resp_status e = 504 ->
  resp_status e ∈ transient_statuses.
Proof.
  intros H. apply list_elem_of_In. unfold transient_statuses. simpl.
  destruct H as [->|[->|[->| ->]]]; tauto.
Qed.

Lemma upload_loop_calls_first f a rest s :
  (1 <= calls (trace (upload_loop f (a :: rest) s)))%nat.
Proof.
  rewrite upload_loop_cons.
  destruct (chunk_step s a).2; cbn [trace]; rewrite calls_cons_next; lia.
Qed.

Lemma ranges_app total acknowledged pre post :
  ranges total acknowledged (pre ++ post) =
    ranges total acknowledged pre
    ++ ranges total (foldl session_after acknowledged pre) post.
Proof.
  revert acknowledged. induction pre as [|a pre IH]; intros acknowledged; [done|].
  simpl. by rewrite IH.
Qed.

Lemma ranges_length total acknowledged answers :
  length (ranges total acknowledged answers) = length answers.
Proof.
  revert acknowledged. induction answers as [|a answers IH]; intros acknowledged;
    simpl; [done|]. by rewrite IH.
Qed.

(** C2.  A chunk request answered by a 500, 502, 503 or 504 only logs a
    warning: previous_progress and the progress bar stay as they were, and
    the loop goes on with a new call of next_chunk on the same request.
    However many such failures occur, at whatever point of the session,
    the upload ends as it would have without them and shows the same
    progress; while they last the loop keeps asking and ends in no result
    of its own.  The call that follows a failed one is made, and in the
    session of the request it sends the byte range that the failed call
    sent. *)
Theorem transient_failure_retries_same_chunk
    (w : World) (f : Path) (s : LoopState) (e : HttpError) (total : Z) :
  resp_status e = 500 \/ resp_status e = 502 \/ resp_status e = 503
  \/ resp_status e = 504 ->
  chunk_step s (ChunkHttpError e) =
    ([EvLog WARNING "[WARNING] Network error, retrying chunk..."], Next s)
  /\ (forall n rest,
        upload_loop f (replicate n (ChunkHttpError e) ++ rest) s =
          mkProc (mjoin (replicate n (retry_events f)) ++ trace (upload_loop f rest s))
                 (result (upload_loop f rest s)))
  /\ (forall n, result (upload_loop f (replicate n (ChunkHttpError e)) s) = Fail Starved)
  /\ (forall n pre post,
        let failing := answering w (pre ++ replicate n (ChunkHttpError e) ++ post) in
        let smooth := answering w (pre ++ post) in
        result (upload_video failing f) = result (upload_video smooth f)
        /\ pbar_history 0 (trace (upload_video failing f)) =
           pbar_history 0 (trace (upload_video smooth f)))
  /\ (forall s0 acknowledged pre a rest,
        advance s0 pre = Some s ->
        let answers := pre ++ ChunkHttpError e :: a :: rest in
        (length pre + 2 <= calls (trace (upload_loop f answers s0)))%nat
        /\ exists range,
             ranges total acknowledged answers !! length pre = Some range
             /\ ranges total acknowledged answers !! S (length pre) = Some range).
Proof.
  intros Hlit. pose proof (transient_literal e Hlit) as He.
  split; [by apply chunk_step_transient|]. split; [|split; [|split]].
  - intros n rest. by apply upload_loop_retries.
  - intros n. rewrite <- (app_nil_r (replicate n _)).
    by rewrite upload_loop_retries.
  - intros n pre post failing smooth.
    rewrite !upload_video_loop. simpl chunk_answers. simpl st_size.
    destruct (upload_loop_insert f e n pre post init_state He) as [Hr Hh].
    rewrite Hr.
    destruct (result (upload_loop f (pre ++ post) init_state)) as [[resp ?]|fl];
      [destruct (resp !! "id")|]; simpl; (split; [done|]);
      rewrite ?pbar_history_quiet_tail by done; apply Hh.
  - intros s0 acknowledged pre a rest Hadv answers. split.
    + unfold answers.
      destruct (upload_loop_advance f pre (ChunkHttpError e :: a :: rest) _ _ Hadv)
        as (t & Hc & ->).
      cbn [trace]. rewrite upload_loop_cons, (chunk_step_transient s e He).
      cbn [fst snd trace]. rewrite calls_app, Hc, calls_cons_next.
      change (?x :: ?l) with ([x] ++ l) at 1. rewrite calls_app.
      pose proof (upload_loop_calls_first f a rest s). lia.
    + exists (session_range total (foldl session_after acknowledged pre)).
      unfold answers. rewrite ranges_app.
      rewrite !lookup_app_r by (rewrite ranges_length; lia).
      rewrite ranges_length.
      replace (length pre - length pre)%nat with 0%nat by lia.
      replace (S (length pre) - length pre)%nat with 1%nat by lia.
      done.
Qed.

Lemma transient_failure_retries_same_chunk_witness :
  result (upload_loop clip (replicate 7 (ChunkHttpError bad_gateway)) init_state)
    = Fail Starved
  /\ exists range,
       ranges (3 * MiB) 0 session_with_retries !! 1%nat = Some range
       /\ ranges (3 * MiB) 0 session_with_retries !! 2%nat = Some range.
Proof.
  split.
  - exact (proj1 (proj2 (proj2
      (transient_failure_retries_same_chunk quiet_world clip init_state bad_gateway
         (3 * MiB) (or_intror (or_introl eq_refl))))) 7%nat).
  - exact (proj2 (proj2 (proj2 (proj2 (proj2
      (transient_failure_retries_same_chunk quiet_world clip
         {| previous_progress := MiB; pbar_n := MiB |} unavailable
         (3 * MiB) (or_intror (or_intror (or_introl eq_refl)))))))
      init_state 0 [ChunkReturn (Some MiB) None] (ChunkHttpError unavailable)
      [ChunkReturn (Some (2 * MiB)) None; ChunkReturn None (Some uploaded)]
      eq_refl)).
Defined.

(* The second chunk fails twice and is then accepted: the upload returns
   the video id, and the bar shows 1 MiB, then 2 MiB. *)
Example upload_with_retries :
  let p := upload_video (answering quiet_world session_with_retries) clip in
  result p = Return (Some "dQw4w9WgXcQ")
  /\ pbar_history 0 (trace p) = [MiB; 2 * MiB]
  /\ calls (trace p) = 5%nat.
Proof. repeat split. Qed.

(* --------------------------------------------------------------------- *)
(*  Quota failures                                                        *)
(* --------------------------------------------------------------------- *)

Lemma upload_loop_quota f e rest s :
  resp_status e = 403 ->
  upload_loop f (ChunkHttpError e :: rest) s =
    mkProc [EvNextChunk f; EvLog ERROR "[ERROR] Quota exceeded."] (Fail (SysExit 1)).
Proof.
  intros He. rewrite upload_loop_cons. unfold chunk_step. by rewrite He.
Qed.

Lemma main_loop_fail w f others fl :
  result (upload_video w f) = Fail fl ->
  main_loop w (f :: others) = mkProc (trace (upload_video w f)) (Fail fl).
Proof.
  intros H. simpl. unfold process_video.
  by rewrite (bind_fail _ _ _ H).
Qed.

(** C3, as the script has it.  A chunk request answered by a 403 is not
    retried: the script logs the quota message and calls sys.exit(1).  The
    call of upload_video does not return; the exit ends the loop over the
    videos as well, so that after the refused request there is no further
    chunk request, neither for this video nor for a later one. *)
Theorem quota_failure_exits_process
    (w : World) (f : Path) (others : list Path)
    (pre rest : list ChunkResult) (e : HttpError) :
  resp_status e = 403 ->
  chunk_answers w f = pre ++ ChunkHttpError e :: rest ->
  is_Some (advance init_state pre) ->
  let p := upload_video w f in
  result p = Fail (SysExit 1)
  /\ calls (trace p) = S (length pre)
  /\ last (trace p) = Some (EvLog ERROR "[ERROR] Quota exceeded.")
  /\ main_loop w (f :: others) = mkProc (trace p) (Fail (SysExit 1)).
Proof.
  intros He Hw [s' Hs'] p.
  destruct (upload_loop_advance f pre (ChunkHttpError e :: rest) _ _ Hs')
    as (t & Hc & Hl).
  rewrite (upload_loop_quota f e rest s' He) in Hl. simpl in Hl.
  assert (Hp : p = mkProc
            ([EvLog INFO (nl +:+ "[UPLOAD] Processing: " +:+ name f);
              EvVideosInsert (stem f)
                ("Uploaded via CLI automation. Source: " +:+ name f) "22" "private";
              EvPbarOpen (st_size w f)] ++
             t ++ [EvNextChunk f; EvLog ERROR "[ERROR] Quota exceeded."])
            (Fail (SysExit 1))).
  { unfold p. rewrite upload_video_loop, Hw, Hl. done. }
  assert (Hr : result p = Fail (SysExit 1)) by (by rewrite Hp).
  split; [exact Hr|]. split; [|split].
  - rewrite Hp. cbn [trace]. rewrite !calls_app, Hc. unfold calls. simpl. lia.
  - rewrite Hp. cbn [trace]. by rewrite !last_app.
  - by apply main_loop_fail.
Qed.

Lemma quota_failure_exits_process_witness :
  let w := answering quiet_world session_with_quota in
  main_loop w [clip; clip] = mkProc (trace (upload_video w clip)) (Fail (SysExit 1))
  /\ calls (trace (main_loop w [clip; clip])) = 2%nat.
Proof.
  intros w.
  destruct (quota_failure_exits_process w clip [clip]
              [ChunkReturn (Some MiB) None] [ChunkReturn None (Some uploaded)]
              forbidden eq_refl eq_refl (mk_is_Some _ _ eq_refl))
    as (_ & Hc & _ & Hm).
  split; [exact Hm|]. rewrite Hm. exact Hc.
Defined.

(** C3 as stated fails: on a 403 upload_video hands no value to its caller,
    and the way it ends, sys.exit(1), is the same as for an exception that
    is no HttpError, so the caller is given no quota classification. *)
Lemma quota_failure_returns_nothing :
  let quota := answering quiet_world session_with_quota in
  let crash := answering quiet_world session_with_crash in
  result (upload_video quota clip) = Fail (SysExit 1)
  /\ (forall r, result (upload_video quota clip) <> Return r)
  /\ result (upload_video quota clip) = result (upload_video crash clip).
Proof. repeat split; intros; done. Qed.

(* --------------------------------------------------------------------- *)
(*  Captions                                                              *)
(* --------------------------------------------------------------------- *)

Lemma caption_requests_app t1 t2 :
  caption_requests (t1 ++ t2) = caption_requests t1 ++ caption_requests t2.
Proof. apply filter_app. Qed.

Lemma no_request_no_caption t :
  caption_requests t = [] -> existsb is_caption_ok t = false.
Proof.
  induction t as [|e t IH]; [done|].
  unfold caption_requests. rewrite filter_cons.
  destruct e; simpl; try done. all: exact IH.
Qed.

Lemma chunk_step_no_caption s a : caption_requests (chunk_step s a).1 = [].
Proof. unfold chunk_step. by_chunk_cases a. Qed.

Lemma caption_requests_next f t :
  caption_requests (EvNextChunk f :: t) = caption_requests t.
Proof. reflexivity. Qed.

Lemma upload_loop_no_caption f answers s :
  caption_requests (trace (upload_loop f answers s)) = [].
Proof.
  revert s. induction answers as [|a rest IH]; intros s; [done|].
  rewrite upload_loop_cons.
  destruct ((chunk_step s a).2) as [s'|resp s'|fl]; simpl trace;
    rewrite caption_requests_next, ?caption_requests_app, ?IH,
      chunk_step_no_caption; done.
Qed.

Lemma upload_video_no_caption w f :
  caption_requests (trace (upload_video w f)) = [].
Proof.
  rewrite upload_video_loop.
  destruct (result (upload_loop f (chunk_answers w f) init_state)) as [[resp ?]|fl];
    [destruct (resp !! "id")|]; cbn [trace];
    rewrite !caption_requests_app, upload_loop_no_caption; done.
Qed.

(* The inner loop uploads the first subtitle file that exists, if any. *)
Lemma attach_subtitle_cases w vid video exts :
  attach_subtitle w vid video exts = mret tt
  \/ exists sub_ext,
       sub_ext ∈ exts
       /\ path_exists w (with_suffix video sub_ext) = true
       /\ attach_subtitle w vid video exts =
            upload_caption w vid (with_suffix video sub_ext) default_language.
Proof.
  induction exts as [|ext exts IH]; simpl; [by left|].
  destruct (path_exists w (with_suffix video ext)) eqn:Hex.
  - right. exists ext. split; [left|done].
  - destruct IH as [IH|(sub_ext & Hin & Hp & IH)]; [by left|].
    right. exists sub_ext. split; [by right|done].
Qed.

(* upload_caption, answer by answer. *)
Lemma upload_caption_cases w vid sub language :
  let request :=
    EvCaptionsInsert vid language ("Default (" +:+ language +:+ ")") (name sub)
      (caption_answer w vid sub) in
  let found := EvLog INFO ("[INFO] Found subtitle: " +:+ name sub +:+ ". Uploading...") in
  upload_caption w vid sub language =
    match caption_answer w vid sub with
    | CaptionOk =>
        mkProc [found; request;
                EvLog INFO ("[SUCCESS] Subtitle " +:+ name sub +:+
                            " attached to Video " +:+ vid +:+ ".")] (Return tt)
    | CaptionHttpError e =>
        mkProc [found; request;
                EvLog ERROR ("[ERROR] Failed to upload caption: " +:+ http_text e)]
               (Return tt)
    | CaptionException msg => mkProc [found; request] (Fail (RaiseOther msg))
    end.
Proof. unfold upload_caption. by destruct (caption_answer w vid sub). Qed.

Lemma truthy_Some vid : truthy (Some vid) = true <-> vid <> "".
Proof.
  simpl. destruct (String.eqb_spec vid ""); simpl; split; congruence.
Qed.

(* One iteration of the loop, case by case. *)
Lemma process_video_cases w video :
  let u := upload_video w video in
  (exists fl, result u = Fail fl /\ process_video w video = mkProc (trace u) (Fail fl))
  \/ (exists id, result u = Return id /\ truthy id = false
        /\ process_video w video = mkProc (trace u) (Return id))
  \/ (exists vid, result u = Return (Some vid) /\ vid <> ""
        /\ (process_video w video = mkProc (trace u) (Return (Some vid))
            \/ exists sub_ext,
                 sub_ext ∈ subtitle_extensions
                 /\ path_exists w (with_suffix video sub_ext) = true
                 /\ let c := upload_caption w vid (with_suffix video sub_ext)
                               default_language in
                    process_video w video =
                      mkProc (trace u ++ trace c)
                             (match result c with
                              | Return _ => Return (Some vid)
                              | Fail fl => Fail fl
                              end))).
Proof.
  intros u. unfold process_video. fold u.
  destruct (result u) as [id|fl] eqn:Hu.
  - rewrite (bind_return _ _ _ Hu).
    destruct (truthy id) eqn:Hid.
    + destruct id as [vid|]; [|done].
      right; right. exists vid. split; [done|]. split; [by apply truthy_Some|].
      destruct (attach_subtitle_cases w vid video subtitle_extensions)
        as [->|(sub_ext & Hin & Hex & ->)].
      * left. simpl. by rewrite app_nil_r.
      * right. exists sub_ext. split; [done|]. split; [done|].
        destruct (upload_caption w vid (with_suffix video sub_ext) default_language)
          as [tc [[]|fl]]; simpl; by rewrite ?app_nil_r.
    + right; left. exists id. repeat split; try done. simpl. by rewrite app_nil_r.
  - left. exists fl. split; [done|]. by rewrite (bind_fail _ _ _ Hu).
Qed.

Lemma upload_caption_requests w vid sub language :
  caption_requests (trace (upload_caption w vid sub language)) =
    [EvCaptionsInsert vid language ("Default (" +:+ language +:+ ")") (name sub)
       (caption_answer w vid sub)].
Proof.
  rewrite upload_caption_cases. by destruct (caption_answer w vid sub).
Qed.

(** C5.  In every iteration of the loop over the videos the caption request,
    if there is one, comes after upload_video has returned, and it is made
    for the non-empty id that upload_video returned; read as a job,
    subtitleUploaded is never true unless videoId is set; and when
    upload_video returns no id no caption request is made. *)
Theorem caption_only_after_video_id (w : World) (video : Path) :
  let u := upload_video w video in
  let p := process_video w video in
  (exists t,
      trace p = trace u ++ t
      /\ caption_requests (trace u) = []
      /\ (caption_requests t = []
          \/ exists vid sub_file,
               result u = Return (Some vid) /\ vid <> ""
               /\ caption_requests t =
                    [EvCaptionsInsert vid default_language
                       ("Default (" +:+ default_language +:+ ")") (name sub_file)
                       (caption_answer w vid sub_file)]))
  /\ (subtitleUploaded (job_of w video) = true ->
      exists vid, videoId (job_of w video) = Some vid /\ vid <> "")
  /\ (result u = Return None -> caption_requests (trace p) = []).
Proof.
  intros u p.
  assert (Hfirst : exists t,
      trace p = trace u ++ t
      /\ caption_requests (trace u) = []
      /\ (caption_requests t = []
          \/ exists vid sub_file,
               result u = Return (Some vid) /\ vid <> ""
               /\ caption_requests t =
                    [EvCaptionsInsert vid default_language
                       ("Default (" +:+ default_language +:+ ")") (name sub_file)
                       (caption_answer w vid sub_file)])).
  { pose proof (upload_video_no_caption w video) as Hu. fold u in Hu.
    destruct (process_video_cases w video)
      as [(fl & Hr & Hp)|[(id & Hr & Hid & Hp)|(vid & Hr & Hvid & [Hp|(ext & _ & _ & Hp)])]];
      fold u in Hr, Hp; fold p in Hp.
    - exists []. rewrite Hp, app_nil_r. by auto.
    - exists []. rewrite Hp, app_nil_r. by auto.
    - exists []. rewrite Hp, app_nil_r. by auto.
    - cbv zeta in Hp. eexists. rewrite Hp. cbn [trace]. split; [done|]. split; [done|].
      right. exists vid, (with_suffix video ext).
      by rewrite upload_caption_requests. }
  split; [exact Hfirst|].
  destruct Hfirst as (t & Ht & Hu & Hcases). split.
  - unfold job_of. cbn [subtitleUploaded videoId]. fold p u. rewrite Ht.
    intros Hok. destruct Hcases as [Hnone|(vid & sub & Hr & Hvid & _)].
    + rewrite existsb_app in Hok.
      rewrite (no_request_no_caption _ Hu), (no_request_no_caption _ Hnone) in Hok.
      done.
    + exists vid. by rewrite Hr.
  - intros Hnone. rewrite Ht, caption_requests_app, Hu.
    destruct Hcases as [->|(vid & sub & Hr & _)]; [done|congruence].
Qed.

Lemma caption_only_after_video_id_witness :
  (subtitleUploaded (job_of (world_with session_with_retries CaptionOk) clip) = true
   /\ exists vid,
        videoId (job_of (world_with session_with_retries CaptionOk) clip) = Some vid
        /\ vid <> "")
  /\ (result (upload_video (world_with session_without_id CaptionOk) clip) = Return None
      /\ caption_requests (trace (process_video (world_with session_without_id CaptionOk) clip))
           = []).
Proof.
  split.
  - assert (H : subtitleUploaded (job_of (world_with session_with_retries CaptionOk) clip)
                = true) by reflexivity.
    split; [exact H|].
    exact (proj1 (proj2
      (caption_only_after_video_id (world_with session_with_retries CaptionOk) clip)) H).
  - assert (H : result (upload_video (world_with session_without_id CaptionOk) clip)
                = Return None) by reflexivity.
    split; [exact H|].
    exact (proj2 (proj2
      (caption_only_after_video_id (world_with session_without_id CaptionOk) clip)) H).
Defined.

(** C4, as the script has it.  When the video upload has returned an id
    and the caption request is answered by an HttpError, upload_caption
    logs the failure and returns: the iteration ends normally with the
    video id, the job stays COMPLETED with subtitleUploaded false, and the
    loop goes on to the next video.  (An exception that is no HttpError
    has no handler in upload_caption.) *)
Theorem caption_http_error_is_not_fatal
    (w : World) (video : Path) (others : list Path) (vid : string) :
  result (upload_video w video) = Return (Some vid) ->
  vid <> "" ->
  (forall sub, exists e, caption_answer w vid sub = CaptionHttpError e) ->
  let p := process_video w video in
  result p = Return (Some vid)
  /\ status (job_of w video) = JOB_COMPLETED
  /\ videoId (job_of w video) = Some vid
  /\ subtitleUploaded (job_of w video) = false
  /\ (caption_requests (trace p) = []
      \/ exists e, EvLog ERROR ("[ERROR] Failed to upload caption: " +:+ http_text e)
                     ∈ trace p)
  /\ main_loop w (video :: others) =
       mkProc (trace p ++ trace (main_loop w others)) (result (main_loop w others)).
Proof.
  intros Hu Hvid Hcap p.
  pose proof (upload_video_no_caption w video) as Hnc.
  assert (Hp : result p = Return (Some vid)
               /\ existsb is_caption_ok (trace p) = false
               /\ (caption_requests (trace p) = []
                   \/ exists e, EvLog ERROR ("[ERROR] Failed to upload caption: "
                                              +:+ http_text e) ∈ trace p)).
  { destruct (process_video_cases w video)
      as [(fl & Hr & _)|[(id & Hr & Hid & _)|(vid' & Hr & _ & [Hp|(ext & _ & _ & Hp)])]].
    - congruence.
    - rewrite Hu in Hr. injection Hr as <-. apply truthy_Some in Hvid. congruence.
    - fold p in Hp. rewrite Hu in Hr. injection Hr as <-.
      rewrite Hp. cbn [trace result].
      split; [done|]. split; [by apply no_request_no_caption|by left].
    - fold p in Hp. rewrite Hu in Hr. injection Hr as <-. cbv zeta in Hp.
      rewrite upload_caption_cases in Hp.
      destruct (Hcap (with_suffix video ext)) as [e He]. rewrite He in Hp.
      rewrite Hp. cbn [trace result]. split; [done|]. split.
      + by rewrite existsb_app, (no_request_no_caption _ Hnc).
      + right. exists e. rewrite elem_of_app. right. do 2 right. left. }
  destruct Hp as (Hr & Hok & Hlog).
  split; [exact Hr|]. unfold job_of. cbn [status videoId subtitleUploaded].
  fold p. rewrite Hr, Hu, Hok.
  split; [by rewrite (proj2 (truthy_Some vid) Hvid)|].
  split; [done|]. split; [done|]. split; [exact Hlog|].
  simpl. by rewrite (bind_return _ _ _ Hr).
Qed.

Lemma caption_http_error_is_not_fatal_witness :
  let w := world_with session_with_retries (CaptionHttpError bad_caption) in
  status (job_of w clip) = JOB_COMPLETED
  /\ main_loop w [clip; trailer] =
       mkProc (trace (process_video w clip) ++ trace (main_loop w [trailer]))
              (result (main_loop w [trailer])).
Proof.
  intros w.
  assert (Hid : "dQw4w9WgXcQ" <> "") by discriminate.
  destruct (caption_http_error_is_not_fatal w clip [trailer] "dQw4w9WgXcQ"
              eq_refl Hid (fun _ => ex_intro _ bad_caption eq_refl))
    as (_ & Hs & _ & _ & _ & Hm).
  exact (conj Hs Hm).
Defined.

(** C4 as stated fails: when the caption request raises an exception that
    is no HttpError, nothing in upload_caption catches it; it leaves
    upload_caption and the loop over the videos, the job of the uploaded
    video does not stay COMPLETED, and the next video is never started. *)
Lemma caption_exception_is_fatal :
  let w := world_with session_with_retries (CaptionException "timed out") in
  result (upload_video w clip) = Return (Some "dQw4w9WgXcQ")
  /\ result (upload_caption w "dQw4w9WgXcQ" (with_suffix clip ".srt") default_language)
       = Fail (RaiseOther "timed out")
  /\ status (job_of w clip) = JOB_ERROR
  /\ main_loop w [clip; trailer] =
       mkProc (trace (process_video w clip)) (Fail (RaiseOther "timed out")).
Proof. repeat split. Qed.

(* --------------------------------------------------------------------- *)
(*  Authentication                                                        *)
(* --------------------------------------------------------------------- *)

Lemma load_token_hit (store : Store) user_profile creds :
  store !! token_file user_profile = Some creds ->
  load_token store user_profile = (loading user_profile, Some creds).
Proof. intros H. unfold load_token. by rewrite H. Qed.

Lemma load_token_miss (store : Store) user_profile :
  store !! token_file user_profile = None ->
  load_token store user_profile = ([], None).
Proof. intros H. unfold load_token. by rewrite H. Qed.

Lemma authenticate_valid env (store : Store) user_profile creds :
  store !! token_file user_profile = Some creds ->
  valid creds = true ->
  _authenticate env store user_profile =
    (mkProc (loading user_profile) (Return creds), store).
Proof.
  intros Hload Hvalid. unfold _authenticate.
  rewrite (load_token_hit _ _ _ Hload). unfold needs_renewal. by rewrite Hvalid.
Qed.

(** C6.  When the token file of the profile holds a credential that is
    valid, _authenticate returns that credential as it was loaded; it makes
    no refresh call, does not run the login flow, writes no token file and
    leaves the stored files as they were. *)
Theorem valid_credential_returned_unchanged
    (env : AuthEnv) (store : Store) (user_profile : string) (creds : Credentials) :
  store !! token_file user_profile = Some creds ->
  valid creds = true ->
  _authenticate env store user_profile =
    (mkProc (loading user_profile) (Return creds), store)
  /\ refresh_calls (trace (_authenticate env store user_profile).1) = 0%nat
  /\ token_writes (trace (_authenticate env store user_profile).1) = []
  /\ (EvRunLocalServer ∉ trace (_authenticate env store user_profile).1).
Proof.
  intros Hload Hvalid.
  rewrite (authenticate_valid env store user_profile creds Hload Hvalid).
  split; [done|]. split; [done|]. split; [done|].
  cbn [fst trace]. unfold loading.
  rewrite !elem_of_cons, elem_of_nil. intros [|[|]]; done.
Qed.

Lemma valid_credential_returned_unchanged_witness :
  _authenticate granting (store_of good_creds) "default" =
    (mkProc (loading "default") (Return good_creds), store_of good_creds).
Proof.
  exact (proj1 (valid_credential_returned_unchanged granting (store_of good_creds)
                  "default" good_creds eq_refl eq_refl)).
Defined.

(* A process that is given three steps in a row goes from its start to its
   end as _authenticate does. *)
Lemma three_steps env user_profile store :
  let '(evs1, pc1, store1) := auth_step env user_profile AtLoad store in
  let '(evs2, pc2, store2) := auth_step env user_profile pc1 store1 in
  let '(evs3, pc3, store3) := auth_step env user_profile pc2 store2 in
  (evs1 ++ evs2 ++ evs3, pc3, store3) =
    (trace (_authenticate env store user_profile).1,
     Finished (result (_authenticate env store user_profile).1),
     (_authenticate env store user_profile).2).
Proof.
  unfold _authenticate, renew_and_save, after. cbn [auth_step].
  destruct (load_token store user_profile) as [evs [c|]]; cbn [auth_step].
  - destruct (needs_renewal (Some c)).
    + destruct (renew env user_profile (Some c)) as [t [c'|fl]];
        cbn; by rewrite ?app_nil_r.
    + cbn. by rewrite ?app_nil_r.
  - destruct (renew env user_profile None) as [t [c'|fl]];
      cbn; by rewrite ?app_nil_r.
Qed.

Lemma first_alone env user_profile c :
  first c = AtLoad ->
  run_schedule env user_profile [P1; P1; P1] c =
    {| first := Finished (result (_authenticate env (files c) user_profile).1);
       second := second c;
       files := (_authenticate env (files c) user_profile).2;
       history := history c ++ trace (_authenticate env (files c) user_profile).1 |}.
Proof.
  destruct c as [pc1 pc2 store h]. cbn [first second files history]. intros ->.
  pose proof (three_steps env user_profile store) as H.
  unfold run_schedule. cbn [foldl]. unfold pair_step. cbn [first second files history].
  destruct (auth_step env user_profile AtLoad store) as [[evs1 pc] st1].
  cbn [first second files history].
  destruct (auth_step env user_profile pc st1) as [[evs2 pc'] st2].
  cbn [first second files history].
  destruct (auth_step env user_profile pc' st2) as [[evs3 pc''] st3].
  cbn [first second files history].
  injection H as <- <- <-. by rewrite <- !app_assoc.
Qed.

Lemma second_alone env user_profile c :
  second c = AtLoad ->
  run_schedule env user_profile [P2; P2; P2] c =
    {| first := first c;
       second := Finished (result (_authenticate env (files c) user_profile).1);
       files := (_authenticate env (files c) user_profile).2;
       history := history c ++ trace (_authenticate env (files c) user_profile).1 |}.
Proof.
  destruct c as [pc1 pc2 store h]. cbn [first second files history]. intros ->.
  pose proof (three_steps env user_profile store) as H.
  unfold run_schedule. cbn [foldl]. unfold pair_step. cbn [first second files history].
  destruct (auth_step env user_profile AtLoad store) as [[evs1 pc] st1].
  cbn [first second files history].
  destruct (auth_step env user_profile pc st1) as [[evs2 pc'] st2].
  cbn [first second files history].
  destruct (auth_step env user_profile pc' st2) as [[evs3 pc''] st3].
  cbn [first second files history].
  injection H as <- <- <-. by rewrite <- !app_assoc.
Qed.

Lemma refresh_calls_app t1 t2 :
  refresh_calls (t1 ++ t2) = (refresh_calls t1 + refresh_calls t2)%nat.
Proof. unfold refresh_calls. by rewrite filter_app, length_app. Qed.

Lemma authenticate_refresh env (store : Store) user_profile creds :
  store !! token_file user_profile = Some creds ->
  valid creds = false ->
  expired creds = true ->
  truthy (refresh_token creds) = true ->
  _authenticate env store user_profile =
    match refresh_answer env creds with
    | Granted c' =>
        (mkProc (loading user_profile ++ refreshing creds ++ saving user_profile c')
                (Return c'),
         <[token_file user_profile := c']> store)
    | Refused msg =>
        (mkProc (loading user_profile ++ refreshing creds) (Fail (RaiseOther msg)),
         store)
    end.
Proof.
  intros Hload Hvalid Hexp Hrt.
  unfold _authenticate. rewrite (load_token_hit _ _ _ Hload).
  unfold needs_renewal, renew_and_save, renew, refreshable, refresh, after.
  rewrite Hvalid, Hexp, Hrt. cbn.
  by destruct (refresh_answer env creds).
Qed.

(** C7, as the script has it.  When the token file of the profile holds a
    credential that is not valid, is expired and has a refresh token,
    _authenticate makes exactly one refresh call and does not run the login
    flow; when the refresh is granted, the refreshed credential is written
    to the token file of the profile before it is returned, and when it is
    refused the exception leaves _authenticate and nothing is written.  Two
    runs for the same profile, one after the other, make one refresh call
    in all when the refreshed credential is valid: the second run finds it
    in the token file.  (Nothing serializes runs that overlap.) *)
Theorem expired_credential_refreshed_once
    (env : AuthEnv) (store : Store) (user_profile : string) (creds : Credentials) :
  store !! token_file user_profile = Some creds ->
  valid creds = false ->
  expired creds = true ->
  truthy (refresh_token creds) = true ->
  let p := (_authenticate env store user_profile).1 in
  let store' := (_authenticate env store user_profile).2 in
  refresh_calls (trace p) = 1%nat
  /\ (EvRunLocalServer ∉ trace p)
  /\ (match refresh_answer env creds with
      | Granted c' =>
          trace p = loading user_profile ++ refreshing creds ++ saving user_profile c'
          /\ result p = Return c'
          /\ store' = <[token_file user_profile := c']> store
          /\ (valid c' = true ->
              let final := run_schedule env user_profile one_after_the_other
                             (start store) in
              first final = Finished (Return c')
              /\ second final = Finished (Return c')
              /\ refresh_calls (history final) = 1%nat)
      | Refused msg =>
          result p = Fail (RaiseOther msg) /\ token_writes (trace p) = []
          /\ store' = store
      end).
Proof.
  intros Hload Hvalid Hexp Hrt p store'.
  pose proof (authenticate_refresh env store user_profile creds Hload Hvalid Hexp Hrt)
    as Hauth.
  unfold p, store'. clear p store'.
  destruct (refresh_answer env creds) as [c'|msg]; rewrite Hauth in *;
    cbn [fst snd trace result] in *.
  - split; [done|]. split.
    { unfold loading, refreshing, saving. cbn [app].
      rewrite !elem_of_cons, elem_of_nil. intros H. by decompose [or] H. }
    split; [done|]. split; [done|]. split; [done|].
    intros Hfresh. unfold one_after_the_other.
    change [P1; P1; P1; P2; P2; P2] with ([P1; P1; P1] ++ [P2; P2; P2]).
    unfold run_schedule. rewrite foldl_app.
    fold (run_schedule env user_profile [P1; P1; P1] (start store)).
    rewrite first_alone by done. cbn [start files history app]. rewrite Hauth.
    cbn [fst snd trace result].
    match goal with
    | |- context [foldl ?f ?c [P2; P2; P2]] =>
        change (foldl f c [P2; P2; P2])
          with (run_schedule env user_profile [P2; P2; P2] c)
    end.
    rewrite second_alone by done. cbn [first second files history].
    rewrite (authenticate_valid env (<[token_file user_profile := c']> store)
               user_profile c' (lookup_insert_eq _ _ _) Hfresh).
    cbn [fst snd trace result]. split; [done|]. split; [done|].
    by rewrite refresh_calls_app.
  - split; [done|]. split.
    { unfold loading, refreshing. cbn [app].
      rewrite !elem_of_cons, elem_of_nil. intros H. by decompose [or] H. }
    done.
Qed.

Lemma expired_credential_refreshed_once_witness :
  let final := run_schedule granting "default" one_after_the_other
                 (start (store_of stale_creds)) in
  first final = Finished (Return fresh_creds)
  /\ second final = Finished (Return fresh_creds)
  /\ refresh_calls (history final) = 1%nat.
Proof.
  exact (proj2 (proj2 (proj2 (proj2 (proj2
    (expired_credential_refreshed_once granting (store_of stale_creds) "default"
       stale_creds eq_refl eq_refl eq_refl eq_refl))))) eq_refl).
Defined.

(** C7 as stated fails: two runs for the same profile that overlap, each
    loading the expired credential before the other has saved, make two
    refresh calls, and both write the token file. *)
Lemma overlapping_runs_refresh_twice :
  let final := run_schedule granting "default" in_turns (start (store_of stale_creds)) in
  first final = Finished (Return fresh_creds)
  /\ second final = Finished (Return fresh_creds)
  /\ refresh_calls (history final) = 2%nat
  /\ length (token_writes (history final)) = 2%nat.
Proof. repeat split. Qed.

Lemma renew_login env user_profile creds :
  refreshable creds = false ->
  renew env user_profile creds = login_flow env user_profile.
Proof. intros H. unfold renew. rewrite H. by destruct creds. Qed.

Lemma authenticate_login env (store : Store) user_profile :
  needs_renewal (store !! token_file user_profile) = true ->
  refreshable (store !! token_file user_profile) = false ->
  _authenticate env store user_profile =
    after (load_token store user_profile).1
      (let p := login_flow env user_profile in
       match result p with
       | Return c =>
           (mkProc (trace p ++ saving user_profile c) (Return c),
            <[token_file user_profile := c]> store)
       | Fail fl => (mkProc (trace p) (Fail fl), store)
       end).
Proof.
  intros Hneeds Hnot. unfold _authenticate, load_token.
  destruct (store !! token_file user_profile) as [c|] eqn:Hload;
    cbn [fst]; rewrite ?Hneeds; unfold renew_and_save;
    rewrite (renew_login _ _ _ Hnot); done.
Qed.

(** C8, as the script has it.  When the profile has no token file, or its
    credential is not valid and cannot be refreshed, _authenticate makes no
    refresh call and starts the login flow itself: with client_secrets.json
    in place it runs flow.run_local_server, and the credential this gives
    is written to the token file of the profile and returned (an exception
    of the flow leaves _authenticate, nothing being written); without
    client_secrets.json it prints the message and exits with status 1,
    running no flow and writing nothing. *)
Theorem missing_credential_starts_login_flow
    (env : AuthEnv) (store : Store) (user_profile : string) :
  needs_renewal (store !! token_file user_profile) = true ->
  refreshable (store !! token_file user_profile) = false ->
  let p := (_authenticate env store user_profile).1 in
  let store' := (_authenticate env store user_profile).2 in
  refresh_calls (trace p) = 0%nat
  /\ (starting_login user_profile ∈ trace p)
  /\ (if client_secrets_exists env then
        (EvRunLocalServer ∈ trace p)
        /\ match flow_answer env with
           | Granted c =>
               result p = Return c
               /\ token_writes (trace p) = [EvDumpToken (token_file user_profile) c]
               /\ store' = <[token_file user_profile := c]> store
           | Refused msg =>
               result p = Fail (RaiseOther msg)
               /\ token_writes (trace p) = [] /\ store' = store
           end
      else
        result p = Fail (SysExit 1)
        /\ (EvRunLocalServer ∉ trace p)
        /\ (EvPrint MISSING_CLIENT_SECRETS_MESSAGE ∈ trace p)
        /\ token_writes (trace p) = [] /\ store' = store).
Proof.
  intros Hneeds Hnot p store'. unfold p, store'. clear p store'.
  rewrite (authenticate_login env store user_profile Hneeds Hnot).
  unfold after, login_flow, load_token, starting_login, log.
  destruct (store !! token_file user_profile) as [c0|];
    destruct (client_secrets_exists env); [destruct (flow_answer env)| |destruct (flow_answer env)|];
    cbn; rewrite ?elem_of_cons, ?elem_of_nil; repeat split; auto 10;
    try (intros H; decompose [or] H; done).
Qed.

Lemma missing_credential_starts_login_flow_witness :
  (EvRunLocalServer ∈ trace (_authenticate granting no_tokens "default").1)
  /\ result (_authenticate granting no_tokens "default").1 = Return fresh_creds.
Proof.
  destruct (missing_credential_starts_login_flow granting no_tokens "default" eq_refl eq_refl)
    as (_ & _ & Hflow & Hres & _).
  exact (conj Hflow Hres).
Defined.

(** C8 as stated fails: for a profile without a token file, and for one
    whose expired credential has no refresh token, _authenticate signals
    nothing to its caller; it runs the login flow itself and returns the
    credential the flow gives. *)
Lemma login_flow_is_run_by_authenticate :
  (result (_authenticate granting no_tokens "default").1 = Return fresh_creds
   /\ EvRunLocalServer ∈ trace (_authenticate granting no_tokens "default").1)
  /\ (result (_authenticate granting (store_of dead_creds) "default").1 = Return fresh_creds
      /\ EvRunLocalServer ∈ trace (_authenticate granting (store_of dead_creds) "default").1).
Proof.
  repeat split; apply list_elem_of_In; vm_compute; tauto.
Qed.

End PyFacts.

(* ===================================================================== *)
(*  Part IV.  Properties of the API client                                *)
(* ===================================================================== *)

Module ApiFacts.
Import Api.
#[local] Open Scope list_scope.

Lemma truthy_spec (o : option string) :
  truthy o = true <-> exists s, o = Some s /\ s <> "".
Proof.
  destruct o as [s|]; simpl.
  - destruct (String.eqb_spec s ""); simpl; split.
    + done.
    + intros (s' & [= <-] & Hs). done.
    + intros _. by exists s.
    + done.
  - split; [done|]. by intros (s & ? & _).
Qed.

(* `o || d` on a string option, case by case. *)
Lemma or_else_given (s d : string) : s <> "" -> or_else (Some s) d = s.
Proof. intros Hs. unfold or_else, truthy. by destruct (String.eqb_spec s ""). Qed.

Lemma or_else_missing (o : option string) (d : string) :
  o = None \/ o = Some "" -> or_else o d = d.
Proof. by intros [-> | ->]. Qed.

(** C10.  Whatever options are passed to uploadVideo, or none, the form it
    posts to /api/upload has exactly one profile, description, privacy and
    language entry.  Each holds the option given when that is not empty:
    the profile, the description and the language as they are, and
    "private", "unlisted" or "public" for the privacy.  When the option is
    missing or empty the entry holds "default", "", "private" and "en".
    The form has a title entry, holding the title, only when a non-empty
    title is given, a subtitle entry if and only if the subtitle argument
    is not null, and one video entry. *)
Theorem uploadVideo_form_fields
    (video : File) (subtitle : option File) (options : option UploadOptions)
    (answer : UploadAnswer) :
  let form := uploadVideo_form video subtitle options in
  let o := default no_options options in
  (options = None ->
     profile o = None /\ title o = None /\ description o = None
     /\ privacy o = None /\ language o = None)
  /\ (forall given, options = Some given -> o = given)
  /\ (uploadVideo video subtitle options answer).1 =
       {| url := "/api/upload"; method := "POST"; body := form |}
  /\ getAll form "video" = [FormFile video]
  /\ (forall p, profile o = Some p -> p <> "" ->
        getAll form "profile" = [FormString p])
  /\ (profile o = None \/ profile o = Some "" ->
        getAll form "profile" = [FormString "default"])
  /\ (forall d, description o = Some d ->
        getAll form "description" = [FormString d])
  /\ (description o = None -> getAll form "description" = [FormString ""])
  /\ (privacy o = Some private -> getAll form "privacy" = [FormString "private"])
  /\ (privacy o = Some unlisted -> getAll form "privacy" = [FormString "unlisted"])
  /\ (privacy o = Some public -> getAll form "privacy" = [FormString "public"])
  /\ (privacy o = None -> getAll form "privacy" = [FormString "private"])
  /\ (forall l, language o = Some l -> l <> "" ->
        getAll form "language" = [FormString l])
  /\ (language o = None \/ language o = Some "" ->
        getAll form "language" = [FormString "en"])
  /\ (forall t, title o = Some t -> t <> "" ->
        getAll form "title" = [FormString t] /\ has form "title" = true)
  /\ (title o = None \/ title o = Some "" ->
        getAll form "title" = [] /\ has form "title" = false)
  /\ (forall f, subtitle = Some f ->
        getAll form "subtitle" = [FormFile f] /\ has form "subtitle" = true)
  /\ (subtitle = None ->
        getAll form "subtitle" = [] /\ has form "subtitle" = false)
  /\ uploadVideo_form video subtitle None =
       [("video", FormFile video)]
       ++ match subtitle with Some f => [("subtitle", FormFile f)] | None => [] end
       ++ [("profile", FormString "default"); ("description", FormString "");
           ("privacy", FormString "private"); ("language", FormString "en")].
Proof.
  intros form o.
  assert (Hshape :
    getAll form "video" = [FormFile video]
    /\ getAll form "profile" = [FormString (or_else (profile o) "default")]
    /\ getAll form "description" = [FormString (or_else (description o) "")]
    /\ getAll form "privacy" =
         [FormString (match privacy o with
                      | Some p => privacy_string p
                      | None => "private"
                      end)]
    /\ getAll form "language" = [FormString (or_else (language o) "en")]
    /\ getAll form "title" =
         match title o with
         | Some t => if truthy (title o) then [FormString t] else []
         | None => []
         end
    /\ has form "title" = truthy (title o)
    /\ getAll form "subtitle" =
         match subtitle with Some f => [FormFile f] | None => [] end
    /\ has form "subtitle" = match subtitle with Some _ => true | None => false end).
  { unfold form, o, uploadVideo_form, append.
    destruct options as [[pr ti de pv la]|]; destruct subtitle as [f|];
      try (destruct ti as [t|]; [destruct (String.eqb t "") eqn:Ht|]);
      cbn; rewrite ?Ht; cbn; repeat split; reflexivity. }
  destruct Hshape as (Hv & Hp & Hd & Hpv & Hl & Ht & Hht & Hs & Hhs).
  split; [by intros ->|]. split; [by intros given ->|].
  split; [done|]. split; [exact Hv|].
  split; [intros p Ho Hne; by rewrite Hp, Ho, or_else_given|].
  split; [intros Ho; by rewrite Hp, or_else_missing|].
  split.
  { intros d Ho. rewrite Hd, Ho. unfold or_else, truthy.
    by destruct (String.eqb_spec d "") as [->|]. }
  split; [intros Ho; by rewrite Hd, Ho|].
  split; [intros Ho; by rewrite Hpv, Ho|].
  split; [intros Ho; by rewrite Hpv, Ho|].
  split; [intros Ho; by rewrite Hpv, Ho|].
  split; [intros Ho; by rewrite Hpv, Ho|].
  split; [intros l Ho Hne; by rewrite Hl, Ho, or_else_given|].
  split; [intros Ho; by rewrite Hl, or_else_missing|].
  split.
  { intros t Ho Hne. rewrite Ht, Hht, Ho. unfold truthy.
    by destruct (String.eqb_spec t ""). }
  split.
  { intros Ho. rewrite Ht, Hht. by destruct Ho as [-> | ->]. }
  split; [intros f ->; by rewrite Hs, Hhs|].
  split; [intros ->; by rewrite Hs, Hhs|].
  unfold uploadVideo_form, append. by destruct subtitle.
Qed.

(* --------------------------------------------------------------------- *)
(*  Polling                                                               *)
(* --------------------------------------------------------------------- *)

Lemma terminal_spec (job : UploadJob) :
  terminal job = true <->
  completed job = true \/ exists e, error job = Some e /\ e <> "".
Proof.
  unfold terminal. rewrite orb_true_iff, truthy_spec. done.
Qed.

Lemma well_paced_nil onUpdate ms : well_paced onUpdate ms [].
Proof. repeat split; intros; simplify_eq. Qed.

Lemma poll_loop_well_paced jobId onUpdate ms ticks active :
  well_paced onUpdate ms (poll_loop jobId onUpdate ms active ticks).
Proof.
  revert active. induction ticks as [|[c a] rest IH]; intros active;
    [apply well_paced_nil|].
  cbn [poll_loop cancelled answer]. unfold poll.
  destruct (if c then false else active) eqn:Hact; cbn [negb];
    [|apply well_paced_nil].
  destruct a as [job|msg]; [destruct (onUpdate job) eqn:Hcb;
    [destruct (terminal job) eqn:Hterm|]|].
  - (* a terminal job: the update is the last event *)
    repeat split.
    + intros [|[|i]] job' H Hr; simplify_eq/=. by rewrite Hterm.
    + intros [|[|i]] H; simplify_eq/=.
    + intros [|[|i]] d H; simplify_eq/=.
    + intros [|[|i]] j H; simplify_eq/=. by left.
  - (* a job still under way: the timer is set to the interval *)
    destruct (IH true) as (I1 & I2 & I3 & I4). repeat split.
    + intros [|[|[|i]]] job' H Hr; simplify_eq/=.
      * by rewrite Hterm.
      * specialize (I1 i job' H Hr). destruct (terminal job'); [by rewrite I1|done].
    + intros [|[|[|i]]] H; simplify_eq/=. by apply I2.
    + intros [|[|[|i]]] d H; simplify_eq/=; [by left|by eapply I3].
    + intros [|[|[|i]]] j H; simplify_eq/=; [by left|]. right.
      destruct (I4 i j H) as [->|(k & d & -> & Hk)]; [by exists 2%nat, ms|].
      by exists (S (S (S k))), d.
  - (* the callback throws: the error is logged, the timer doubled *)
    destruct (IH true) as (I1 & I2 & I3 & I4). repeat split.
    + intros [|[|[|[|i]]]] job' H Hr; simplify_eq/=; [congruence|].
      specialize (I1 i job' H Hr). destruct (terminal job'); [by rewrite I1|done].
    + intros [|[|[|[|i]]]] H; simplify_eq/=; [done|by apply I2].
    + intros [|[|[|[|i]]]] d H; simplify_eq/=; [by right|by eapply I3].
    + intros [|[|[|[|i]]]] j H; simplify_eq/=; [by left|]. right.
      destruct (I4 i j H) as [->|(k & d & -> & Hk)]; [by exists 3%nat, (ms * 2)|].
      by exists (S (S (S (S k)))), d.
  - (* the status request fails: the error is logged, the timer doubled *)
    destruct (IH true) as (I1 & I2 & I3 & I4). repeat split.
    + intros [|[|[|i]]] job' H Hr; simplify_eq/=.
      specialize (I1 i job' H Hr). destruct (terminal job'); [by rewrite I1|done].
    + intros [|[|[|i]]] H; simplify_eq/=; [done|by apply I2].
    + intros [|[|[|i]]] d H; simplify_eq/=; [by right|by eapply I3].
    + intros [|[|[|i]]] j H; simplify_eq/=; [by left|]. right.
      destruct (I4 i j H) as [->|(k & d & -> & Hk)]; [by exists 2%nat, (ms * 2)|].
      by exists (S (S (S k))), d.
Qed.

(* One firing of poll in a loop that was not cancelled, case by case. *)
Lemma poll_loop_rejected jobId onUpdate ms msg rest :
  poll_loop jobId onUpdate ms true (mkTick false (StatusRejected msg) :: rest) =
    GetStatus jobId :: ConsoleError :: SetTimeout (ms * 2)
    :: poll_loop jobId onUpdate ms true rest.
Proof. reflexivity. Qed.

Lemma poll_loop_throws jobId onUpdate ms job rest :
  onUpdate job = Throws ->
  poll_loop jobId onUpdate ms true (mkTick false (StatusJob job) :: rest) =
    GetStatus jobId :: OnUpdate job :: ConsoleError :: SetTimeout (ms * 2)
    :: poll_loop jobId onUpdate ms true rest.
Proof. intros H. cbn. by rewrite H. Qed.

Lemma poll_loop_stops jobId onUpdate ms job rest :
  onUpdate job = Returns ->
  completed job = true \/ (exists e, error job = Some e /\ e <> "") ->
  poll_loop jobId onUpdate ms true (mkTick false (StatusJob job) :: rest) =
    [GetStatus jobId; OnUpdate job].
Proof.
  intros H Hterm. apply terminal_spec in Hterm. cbn. by rewrite H, Hterm.
Qed.

Lemma poll_loop_goes_on jobId onUpdate ms job rest :
  onUpdate job = Returns ->
  completed job = false ->
  error job = None \/ error job = Some "" ->
  poll_loop jobId onUpdate ms true (mkTick false (StatusJob job) :: rest) =
    GetStatus jobId :: OnUpdate job :: SetTimeout ms
    :: poll_loop jobId onUpdate ms true rest.
Proof.
  intros H Hc He.
  assert (Hterm : terminal job = false).
  { unfold terminal. rewrite Hc. by destruct He as [-> | ->]. }
  cbn. by rewrite H, Hterm.
Qed.

(** C9, as the client has it.  Until its caller cancels it, the polling
    loop works firing by firing.  A firing asks for the status of the job.
    When the request fails, or the callback throws on the status it is
    handed, the error is logged and the next firing is set after twice
    intervalMs, never more.  When the callback returns and the job has
    completed true or an error that is a non-empty string, the loop stops:
    no timer is set and no further request is made, whatever the server
    would answer.  When the callback returns and the job has completed
    false and an error that is null or the empty string, the next firing
    is set after intervalMs, which is 1000 ms unless the caller passes
    another value.  Every request but the first follows a timer, and a
    firing that begins after the loop was cancelled does nothing. *)
Theorem polling_schedule
    (jobId : string) (onUpdate : UploadJob -> Completion) (intervalMs : option Z)
    (ticks : list Tick) :
  let ms := default DEFAULT_INTERVAL_MS intervalMs in
  let run := pollUploadStatus jobId onUpdate intervalMs in
  (intervalMs = None -> ms = 1000)
  /\ (forall given, intervalMs = Some given -> ms = given)
  /\ (forall msg rest,
        run (mkTick false (StatusRejected msg) :: rest) =
          GetStatus jobId :: ConsoleError :: SetTimeout (ms * 2) :: run rest)
  /\ (forall job rest,
        onUpdate job = Throws ->
        run (mkTick false (StatusJob job) :: rest) =
          GetStatus jobId :: OnUpdate job :: ConsoleError :: SetTimeout (ms * 2)
          :: run rest)
  /\ (forall job rest,
        onUpdate job = Returns ->
        completed job = true \/ (exists e, error job = Some e /\ e <> "") ->
        run (mkTick false (StatusJob job) :: rest) = [GetStatus jobId; OnUpdate job])
  /\ (forall job rest,
        onUpdate job = Returns ->
        completed job = false ->
        error job = None \/ error job = Some "" ->
        run (mkTick false (StatusJob job) :: rest) =
          GetStatus jobId :: OnUpdate job :: SetTimeout ms :: run rest)
  /\ (forall a rest, run (mkTick true a :: rest) = [])
  /\ well_paced onUpdate ms (run ticks)
  /\ (forall job,
        terminal job = true <->
        completed job = true \/ exists e, error job = Some e /\ e <> "").
Proof.
  intros ms run. unfold run, pollUploadStatus. fold ms.
  split; [by intros ->|]. split; [by intros given ->|].
  split; [intros; apply poll_loop_rejected|].
  split; [intros; by apply poll_loop_throws|].
  split; [intros; by apply poll_loop_stops|].
  split; [intros; by apply poll_loop_goes_on|].
  split; [done|]. split; [apply poll_loop_well_paced|apply terminal_spec].
Qed.

Lemma polling_schedule_witness :
  pollUploadStatus "job-1" quiet None
    [ mkTick false (StatusJob uploading_job);
      mkTick false (StatusRejected "Failed to get upload status");
      mkTick false (StatusJob finished_job);
      mkTick false (StatusJob uploading_job) ] =
  [ GetStatus "job-1"; OnUpdate uploading_job; SetTimeout 1000;
    GetStatus "job-1"; ConsoleError; SetTimeout 2000;
    GetStatus "job-1"; OnUpdate finished_job ].
Proof.
  destruct (polling_schedule "job-1" quiet None [])
    as (_ & _ & Hrej & _ & Hstop & Hgo & _).
  rewrite (Hgo uploading_job _ eq_refl eq_refl (or_introl eq_refl)).
  rewrite Hrej.
  rewrite (Hstop finished_job _ eq_refl (or_introl eq_refl)).
  reflexivity.
Defined.

(** C9 as stated fails.  A job reported with completed true does not stop
    the loop when the callback throws on it: the error is logged and the
    next request is made after 2000 ms.  And a job reported with completed
    false and an error that is not null but the empty string does not stop
    it either: the next request is made after 1000 ms, as for a job under
    way. *)
Lemma reported_job_does_not_stop_polling :
  (completed finished_job = true
   /\ pollUploadStatus "job-1" throwing None
        [ mkTick false (StatusJob finished_job);
          mkTick false (StatusJob finished_job) ] =
      [ GetStatus "job-1"; OnUpdate finished_job; ConsoleError; SetTimeout 2000;
        GetStatus "job-1"; OnUpdate finished_job; ConsoleError; SetTimeout 2000 ])
  /\ (completed blank_error_job = false
      /\ error blank_error_job <> None
      /\ pollUploadStatus "job-1" quiet None
           [ mkTick false (StatusJob blank_error_job);
             mkTick false (StatusJob blank_error_job) ] =
         [ GetStatus "job-1"; OnUpdate blank_error_job; SetTimeout 1000;
           GetStatus "job-1"; OnUpdate blank_error_job; SetTimeout 1000 ]).
Proof. repeat split. done. Qed.

End ApiFacts.

(* ===================================================================== *)
(*  Part V.  More about the uploader script                               *)
(* ===================================================================== *)

Module PyMore.
Import Py PyFacts.
#[local] Open Scope list_scope.

#[local] Arguments calls : simpl never.
#[local] Arguments upload_loop : simpl never.
#[local] Arguments chunk_step : simpl never.

(* --------------------------------------------------------------------- *)
(*  The monad of the script                                               *)
(* --------------------------------------------------------------------- *)

Lemma proc_eta {A} (p : Proc A) : mkProc (trace p) (result p) = p.
Proof. by destruct p. Qed.

Lemma bind_assoc {A B C} (m : Proc A) (f : A -> Proc B) (g : B -> Proc C) :
  (m ≫= f) ≫= g = m ≫= (λ a, f a ≫= g).
Proof.
  unfold mbind, Proc_bind, bind. destruct m as [t [a|fl]]; simpl; [|done].
  destruct (f a) as [t' [b|fl]]; simpl; [|done]. by rewrite app_assoc.
Qed.

Lemma bind_ret_l {A B} (a : A) (f : A -> Proc B) : mret a ≫= f = f a.
Proof. unfold mbind, Proc_bind, bind. simpl. by destruct (f a). Qed.

(* --------------------------------------------------------------------- *)
(*  upload_video: how a session ends                                      *)
(* --------------------------------------------------------------------- *)

Lemma chunk_step_no_close s a : EvPbarClose ∉ (chunk_step s a).1.
Proof.
  unfold chunk_step.
  destruct a as [[?|] [?|]|e|?]; simpl;
    try destruct (resp_status e =? 403)%Z;
    try destruct (bool_decide (resp_status e ∈ transient_statuses)); simpl;
    rewrite ?elem_of_cons, ?elem_of_nil; intuition discriminate.
Qed.

Lemma upload_loop_no_close f answers s :
  EvPbarClose ∉ trace (upload_loop f answers s).
Proof.
  revert s. induction answers as [|a rest IH]; intros s.
  - cbn. apply not_elem_of_nil.
  - rewrite upload_loop_cons. pose proof (chunk_step_no_close s a) as Hs.
    destruct ((chunk_step s a).2) as [s'|? ?|?]; cbn [trace];
      rewrite ?elem_of_cons, ?elem_of_app; try specialize (IH s');
      intuition discriminate.
Qed.

(** X1.  upload_video returns exactly when its loop received a response:
    it returns the value under "id" when the response has that key and None
    when it has not, and a loop left by sys.exit or by an exception ends
    upload_video the same way.  pbar.close() is reached exactly when
    upload_video returns; on exit and on an exception the bar is never
    closed. *)
Theorem upload_video_returns_iff_response (w : World) (f : Path) :
  let p := upload_video w f in
  let l := upload_loop f (chunk_answers w f) init_state in
  (EvPbarClose ∈ trace p <-> exists r, result p = Return r)
  /\ (forall r, result p = Return r <->
        exists resp s, result l = Return (resp, s) /\ resp !! "id" = r)
  /\ (forall fl, result p = Fail fl <-> result l = Fail fl).
Proof.
  intros p l. unfold p. rewrite upload_video_loop. fold l.
  pose proof (upload_loop_no_close f (chunk_answers w f) init_state) as Hnc.
  fold l in Hnc.
  destruct (result l) as [[resp s]|fl]; [destruct (resp !! "id") as [v|] eqn:Hid|];
    cbn [trace result]; rewrite ?elem_of_app, ?elem_of_cons, ?elem_of_nil.
  - split; [split; [by eauto|intros _; right; right; by left]|]. split.
    + intros r. split; [intros [= <-]; by eauto|].
      intros (resp' & s' & [= <- <-] & <-). by rewrite Hid.
    + intros fl. split; done.
  - split; [split; [by eauto|intros _; right; right; by left]|]. split.
    + intros r. split; [intros [= <-]; by eauto|].
      intros (resp' & s' & [= <- <-] & <-). by rewrite Hid.
    + intros fl. split; done.
  - split; [split; [|intros [r Hr]; done]|].
    + intros [H|H]; [|done]. decompose [or] H; done.
    + split; [|intros fl'; split; congruence].
      intros r. split; [done|]. intros (resp' & s' & ? & _). done.
Qed.

(** X2.  The upload loop ends at the first answer that is fatal: an
    HttpError whose status is 403 exits with status 1, one whose status is
    none of 403, 500, 502, 503, 504 leaves upload_video as that same
    HttpError, and any other exception exits with status 1.  An ERROR line
    is the last thing done, the failing request is the last chunk request
    made, and the failure ends the loop over the videos as well: no later
    video is started. *)
Theorem fatal_answer_ends_session
    (w : World) (f : Path) (others : list Path)
    (pre rest : list ChunkResult) (a : ChunkResult) (s : LoopState) (fl : Failure) :
  chunk_answers w f = pre ++ a :: rest ->
  advance init_state pre = Some s ->
  (exists e, a = ChunkHttpError e /\ resp_status e = 403 /\ fl = SysExit 1)
  \/ (exists e, a = ChunkHttpError e
        /\ resp_status e <> 403 /\ resp_status e <> 500 /\ resp_status e <> 502
        /\ resp_status e <> 503 /\ resp_status e <> 504
        /\ fl = RaiseHttp e)
  \/ (exists msg, a = ChunkException msg /\ fl = SysExit 1) ->
  let p := upload_video w f in
  result p = Fail fl
  /\ calls (trace p) = S (length pre)
  /\ (exists line, last (trace p) = Some (EvLog ERROR line))
  /\ main_loop w (f :: others) = mkProc (trace p) (Fail fl).
Proof.
  intros Hw Hs Hfatal p.
  assert (Hstep : exists line, chunk_step s a = ([EvLog ERROR line], Stop fl)).
  { unfold chunk_step.
    destruct Hfatal as [(e & -> & He & ->)|[(e & -> & H3 & H0 & H2 & H5 & H4 & ->)
                                           |(msg & -> & ->)]].
    - rewrite He. cbn. eauto.
    - destruct (resp_status e =? 403)%Z eqn:Hq; [apply Z.eqb_eq in Hq; done|].
      rewrite bool_decide_eq_false_2; [eauto|].
      unfold transient_statuses. rewrite !elem_of_cons, elem_of_nil. tauto.
    - eauto. }
  destruct Hstep as (line & Hstep).
  destruct (upload_loop_advance f pre (a :: rest) _ _ Hs) as (t & Hc & Hl).
  rewrite upload_loop_cons, Hstep in Hl. cbn [fst snd trace result] in Hl.
  assert (Hr : result p = Fail fl).
  { unfold p. rewrite upload_video_loop, Hw, Hl. done. }
  split; [exact Hr|]. split; [|split].
  - unfold p. rewrite upload_video_loop, Hw, Hl. cbn [trace result].
    rewrite !calls_app, Hc, calls_cons_next.
    unfold calls. simpl. lia.
  - exists line. unfold p. rewrite upload_video_loop, Hw, Hl. cbn [trace result].
    rewrite !app_assoc.
    change (EvNextChunk f :: [EvLog ERROR line])
      with ([EvNextChunk f] ++ [EvLog ERROR line]).
    rewrite !app_assoc. apply last_snoc.
  - by apply main_loop_fail.
Qed.

Lemma fatal_answer_ends_session_witness :
  let w := answering quiet_world session_with_404 in
  result (upload_video w clip) = Fail (RaiseHttp not_found)
  /\ main_loop w [clip; trailer] =
       mkProc (trace (upload_video w clip)) (Fail (RaiseHttp not_found)).
Proof.
  intros w.
  assert (Hfatal :
    (exists e, ChunkHttpError not_found = ChunkHttpError e
       /\ resp_status e = 403 /\ RaiseHttp not_found = SysExit 1)
    \/ (exists e, ChunkHttpError not_found = ChunkHttpError e
          /\ resp_status e <> 403 /\ resp_status e <> 500 /\ resp_status e <> 502
          /\ resp_status e <> 503 /\ resp_status e <> 504
          /\ RaiseHttp not_found = RaiseHttp e)
    \/ (exists msg, ChunkHttpError not_found = ChunkException msg
          /\ RaiseHttp not_found = SysExit 1)).
  { right. left. exists not_found. repeat split; discriminate. }
  destruct (fatal_answer_ends_session w clip [trailer]
              [ChunkReturn (Some MiB) None] [ChunkReturn None (Some uploaded)]
              (ChunkHttpError not_found) _ (RaiseHttp not_found)
              eq_refl eq_refl Hfatal)
    as (Hr & _ & _ & Hm).
  exact (conj Hr Hm).
Defined.

Lemma pbar_history_length n m t :
  length (pbar_history n t) = length (pbar_history m t).
Proof.
  revert n m. induction t as [|e t IH]; intros n m; [done|].
  destruct e; simpl; auto.
Qed.

Lemma chunk_step_updates s a n t :
  (length (pbar_history n ((chunk_step s a).1 ++ t)) <= S (length (pbar_history n t)))%nat.
Proof.
  unfold chunk_step.
  destruct a as [[?|] [?|]|e|?]; simpl;
    try destruct (resp_status e =? 403)%Z;
    try destruct (bool_decide (resp_status e ∈ transient_statuses)); simpl;
    rewrite ?(pbar_history_length _ n); lia.
Qed.

Lemma requested_app t1 t2 : requested (t1 ++ t2) = requested t1 ++ requested t2.
Proof. apply omap_app. Qed.

Lemma chunk_step_requested s a : requested (chunk_step s a).1 = [].
Proof.
  unfold chunk_step.
  destruct a as [[?|] [?|]|e|?]; simpl;
    try destruct (resp_status e =? 403)%Z;
    try destruct (bool_decide (resp_status e ∈ transient_statuses)); done.
Qed.

Lemma upload_loop_counts f answers s n :
  let p := upload_loop f answers s in
  (length (pbar_history n (trace p)) <= calls (trace p))%nat
  /\ (calls (trace p) <= length answers)%nat
  /\ requested (trace p) = replicate (calls (trace p)) f
  /\ (result p = Fail Starved -> calls (trace p) = length answers).
Proof.
  revert s n. induction answers as [|a rest IH]; intros s n; [by cbn|].
  cbv zeta. rewrite upload_loop_cons.
  pose proof (chunk_step_updates s a n) as Hu.
  assert (Hstop : forall fl, (chunk_step s a).2 = Stop fl -> fl <> Starved).
  { unfold chunk_step. destruct a as [[?|] [?|]|e|?]; simpl;
      try destruct (resp_status e =? 403)%Z;
      try destruct (bool_decide (resp_status e ∈ transient_statuses));
      intros fl H; simplify_eq/=; discriminate. }
  destruct ((chunk_step s a).2) as [s'|resp s'|fl]; cbn [trace result].
  - destruct (IH s' n) as (I1 & I2 & I3 & I4).
    rewrite calls_cons_next, chunk_step_calls. cbn [pbar_history].
    change (EvNextChunk f :: (chunk_step s a).1 ++ trace (upload_loop f rest s'))
      with ([EvNextChunk f] ++ (chunk_step s a).1 ++ trace (upload_loop f rest s')).
    rewrite !requested_app, chunk_step_requested, I3. cbn [length].
    specialize (Hu (trace (upload_loop f rest s'))).
    split; [lia|]. split; [lia|]. split; [done|]. intros H. by rewrite I4.
  - rewrite calls_cons_next, <- (app_nil_r (chunk_step s a).1), chunk_step_calls.
    cbn [pbar_history]. specialize (Hu []). rewrite app_nil_r in *.
    change (EvNextChunk f :: (chunk_step s a).1)
      with ([EvNextChunk f] ++ (chunk_step s a).1).
    rewrite requested_app, chunk_step_requested.
    change (calls []) with 0%nat. cbn [pbar_history length] in *.
    split; [lia|]. split; [lia|]. split; done.
  - rewrite calls_cons_next, <- (app_nil_r (chunk_step s a).1), chunk_step_calls.
    cbn [pbar_history]. specialize (Hu []). rewrite app_nil_r in *.
    change (EvNextChunk f :: (chunk_step s a).1)
      with ([EvNextChunk f] ++ (chunk_step s a).1).
    rewrite requested_app, chunk_step_requested.
    change (calls []) with 0%nat. cbn [pbar_history length] in *.
    split; [lia|]. split; [lia|]. split; [done|].
    intros [= ->]. by destruct (Hstop Starved).
Qed.

(* The requests and the progress of upload_video are those of its loop. *)
Lemma upload_video_reads w f :
  let p := upload_video w f in
  let l := upload_loop f (chunk_answers w f) init_state in
  calls (trace p) = calls (trace l)
  /\ requested (trace p) = requested (trace l)
  /\ pbar_history 0 (trace p) = pbar_history 0 (trace l).
Proof.
  intros p l. unfold p. rewrite upload_video_loop. fold l.
  destruct (result l) as [[resp s]|fl]; [destruct (resp !! "id")|]; cbn [trace];
    rewrite !calls_app, !requested_app; cbn [app pbar_history];
    rewrite ?pbar_history_quiet_tail by done;
    change (calls [EvLog ?a ?b; EvVideosInsert ?c ?d ?e ?g; EvPbarOpen ?h]) with 0%nat;
    change (requested [EvLog ?a ?b; EvVideosInsert ?c ?d ?e ?g; EvPbarOpen ?h])
      with (@nil Path);
    try change (calls [EvPbarClose; EvLog ?a ?b]) with 0%nat;
    try change (requested [EvPbarClose; EvLog ?a ?b]) with (@nil Path);
    rewrite ?app_nil_r; cbn [app]; (split; [lia|]); done.
Qed.

Lemma upload_video_fails w f fl :
  result (upload_video w f) = Fail fl ->
  result (upload_loop f (chunk_answers w f) init_state) = Fail fl.
Proof.
  rewrite upload_video_loop.
  destruct (result (upload_loop f (chunk_answers w f) init_state))
    as [[resp s]|fl']; [destruct (resp !! "id")|]; simpl; congruence.
Qed.

(** X3.  Every iteration of the upload loop makes one call of next_chunk,
    for the file being uploaded, and updates the progress bar at most once:
    upload_video never makes more requests than there are answers, never
    updates the bar more often than it made requests, and as long as no
    answer ends the loop every answer on record is asked for. *)
Theorem one_request_per_iteration (w : World) (f : Path) :
  let p := upload_video w f in
  (length (pbar_history 0 (trace p)) <= calls (trace p))%nat
  /\ (calls (trace p) <= length (chunk_answers w f))%nat
  /\ requested (trace p) = replicate (calls (trace p)) f
  /\ (result p = Fail Starved -> calls (trace p) = length (chunk_answers w f)).
Proof.
  intros p.
  destruct (upload_video_reads w f) as (Hc & Hq & Hh). fold p in Hc, Hq, Hh.
  destruct (upload_loop_counts f (chunk_answers w f) init_state 0)
    as (H1 & H2 & H3 & H4).
  rewrite Hc, Hq, Hh. split; [done|]. split; [done|]. split; [done|].
  intros Hp. apply H4. by apply upload_video_fails.
Qed.

Lemma one_request_per_iteration_witness :
  calls (trace (upload_video (answering quiet_world (replicate 3 (ChunkHttpError unavailable)))
                  clip)) = 3%nat.
Proof.
  exact (proj2 (proj2 (proj2 (one_request_per_iteration
    (answering quiet_world (replicate 3 (ChunkHttpError unavailable))) clip))) eq_refl).
Defined.

(* --------------------------------------------------------------------- *)
(*  The loop over the videos                                              *)
(* --------------------------------------------------------------------- *)

Lemma video_inserts_app t1 t2 :
  video_inserts (t1 ++ t2) = video_inserts t1 ++ video_inserts t2.
Proof. apply filter_app. Qed.

Lemma chunk_step_no_insert s a : video_inserts (chunk_step s a).1 = [].
Proof.
  unfold chunk_step.
  destruct a as [[?|] [?|]|e|?]; simpl;
    try destruct (resp_status e =? 403)%Z;
    try destruct (bool_decide (resp_status e ∈ transient_statuses)); done.
Qed.

Lemma upload_loop_no_insert f answers s :
  video_inserts (trace (upload_loop f answers s)) = [].
Proof.
  revert s. induction answers as [|a rest IH]; intros s; [done|].
  rewrite upload_loop_cons.
  destruct ((chunk_step s a).2) as [s'|? ?|?]; cbn [trace];
    change (EvNextChunk f :: ?t) with ([EvNextChunk f] ++ t);
    rewrite !video_inserts_app, ?IH, chunk_step_no_insert; done.
Qed.

Lemma upload_video_inserts w f :
  video_inserts (trace (upload_video w f)) = [insert_of f].
Proof.
  rewrite upload_video_loop.
  destruct (result (upload_loop f (chunk_answers w f) init_state))
    as [[resp s]|fl]; [destruct (resp !! "id")|]; cbn [trace];
    rewrite !video_inserts_app, upload_loop_no_insert; done.
Qed.

Lemma process_video_inserts w v :
  video_inserts (trace (process_video w v)) = [insert_of v].
Proof.
  pose proof (upload_video_inserts w v) as Hu.
  destruct (process_video_cases w v)
    as [(fl & _ & ->)|[(id & _ & _ & ->)|(vid & _ & _ & [->|(ext & _ & _ & Hp)])]];
    cbn [trace]; try done.
  cbv zeta in Hp. rewrite Hp. cbn [trace].
  rewrite video_inserts_app, Hu, upload_caption_cases.
  by destruct (caption_answer w vid (with_suffix v ext)).
Qed.

Lemma main_loop_cons w v rest :
  main_loop w (v :: rest) = process_video w v ≫= λ _, main_loop w rest.
Proof. reflexivity. Qed.

(** X4.  The videos().insert requests that a batch prepares are, in the
    order of the video list, those of the videos up to the one at which the
    batch ended: one per video, each with the stem of the file as title,
    category 22 and privacy status private.  When the loop over the videos
    returns, every video of the list had its request. *)
Theorem every_insert_is_private (w : World) (videos : list Path) :
  exists k,
    (k <= length videos)%nat
    /\ video_inserts (trace (main_loop w videos)) = insert_of <$> take k videos
    /\ (result (main_loop w videos) = Return tt -> k = length videos).
Proof.
  induction videos as [|v rest IH].
  - exists 0%nat. by cbn.
  - destruct IH as (k & Hk & Hins & Hret). rewrite main_loop_cons.
    pose proof (process_video_inserts w v) as Hv.
    destruct (result (process_video w v)) as [id|fl] eqn:Hr.
    + exists (S k). rewrite (bind_return _ _ _ Hr). cbn [trace result length].
      rewrite video_inserts_app, Hv, Hins. split; [lia|]. split; [done|].
      intros H. by rewrite Hret.
    + exists 1%nat. rewrite (bind_fail _ _ _ Hr). cbn [trace result length].
      rewrite Hv. split; [lia|]. split; [done|]. done.
Qed.

Lemma every_insert_is_private_witness :
  video_inserts (trace (main_loop (world_with session_with_retries CaptionOk)
                          [clip; trailer]))
    = [insert_of clip; insert_of trailer].
Proof.
  destruct (every_insert_is_private (world_with session_with_retries CaptionOk)
              [clip; trailer]) as (k & _ & Hins & Hret).
  rewrite Hins, (Hret eq_refl). reflexivity.
Defined.

Lemma bind_caption_requests {A B} (m : Proc A) (k : A -> Proc B) :
  caption_requests (trace (m ≫= k)) =
    caption_requests (trace m) ++
    match result m with
    | Return a => caption_requests (trace (k a))
    | Fail _ => []
    end.
Proof.
  unfold mbind, Proc_bind, bind.
  destruct (result m); cbn [trace]; by rewrite ?caption_requests_app, ?app_nil_r.
Qed.

(** X5.  For a video whose upload returned a non-empty id, the loop over
    the subtitle extensions makes at most one caption request: for the .srt
    file beside the video when it exists, otherwise for the .vtt file when
    that exists, otherwise none.  A .vtt file is never uploaded when a .srt
    file is there. *)
Theorem srt_before_vtt (w : World) (video : Path) (vid : string) :
  result (upload_video w video) = Return (Some vid) ->
  vid <> "" ->
  caption_requests (trace (process_video w video)) =
    if path_exists w (with_suffix video ".srt")
    then [caption_of w vid (with_suffix video ".srt")]
    else if path_exists w (with_suffix video ".vtt")
         then [caption_of w vid (with_suffix video ".vtt")]
         else [].
Proof.
  intros Hu Hvid. unfold process_video.
  rewrite bind_caption_requests, Hu, upload_video_no_caption. cbn [app].
  rewrite (proj2 (truthy_Some vid) Hvid), bind_caption_requests.
  unfold subtitle_extensions, caption_of. cbn [attach_subtitle].
  destruct (path_exists w (with_suffix video ".srt"));
    [|destruct (path_exists w (with_suffix video ".vtt"))];
    rewrite ?upload_caption_requests; cbn [trace mret Proc_ret ret];
    [destruct (result (upload_caption w vid (with_suffix video ".srt") default_language))
    |destruct (result (upload_caption w vid (with_suffix video ".vtt") default_language))
    |]; done.
Qed.

Lemma srt_before_vtt_witness :
  caption_requests
    (trace (process_video (world_with session_with_retries CaptionOk) clip))
  = [caption_of (world_with session_with_retries CaptionOk) "dQw4w9WgXcQ"
       (with_suffix clip ".srt")].
Proof.
  assert (H : "dQw4w9WgXcQ" <> "") by discriminate.
  exact (srt_before_vtt (world_with session_with_retries CaptionOk) clip
           "dQw4w9WgXcQ" eq_refl H).
Defined.

(** X6.  The loop over the videos works through the list in order: on a
    list made of two parts it does what it does on the first part and then,
    if that returned, what it does on the second.  It returns exactly when
    the iteration of every video returns; the first iteration that exits
    or raises ends it. *)
Theorem main_loop_in_order (w : World) (xs ys : list Path) :
  main_loop w (xs ++ ys) = (main_loop w xs ≫= λ _, main_loop w ys)
  /\ (result (main_loop w xs) = Return tt <->
      Forall (fun v => exists id, result (process_video w v) = Return id) xs)
  /\ (forall v fl,
        result (main_loop w xs) = Return tt ->
        result (process_video w v) = Fail fl ->
        main_loop w (xs ++ v :: ys) =
          mkProc (trace (main_loop w xs) ++ trace (process_video w v)) (Fail fl)).
Proof.
  assert (Happ : forall xs ys,
             main_loop w (xs ++ ys) = (main_loop w xs ≫= λ _, main_loop w ys)).
  { clear xs ys. intros xs ys. induction xs as [|x xs IH].
    - cbn [app main_loop]. by rewrite bind_ret_l.
    - cbn [app]. by rewrite !main_loop_cons, bind_assoc, IH. }
  split; [apply Happ|]. split.
  - induction xs as [|x xs IH]; [by split|].
    rewrite main_loop_cons, Forall_cons, <- IH.
    destruct (result (process_video w x)) as [id|fl] eqn:Hr.
    + rewrite (bind_return _ _ _ Hr). cbn [result]. split; [by eauto|by intros [_ ?]].
    + rewrite (bind_fail _ _ _ Hr). cbn [result].
      split; [done|]. by intros [[id ?] _].
  - intros v fl Hxs Hv.
    rewrite Happ, (bind_return _ _ _ Hxs), main_loop_cons, (bind_fail _ _ _ Hv).
    done.
Qed.

Lemma main_loop_in_order_witness :
  let w := answering quiet_world session_with_404 in
  main_loop w ([] ++ clip :: [trailer]) =
    mkProc (trace (main_loop w []) ++ trace (process_video w clip))
           (Fail (RaiseHttp not_found)).
Proof.
  intros w.
  exact (proj2 (proj2 (main_loop_in_order w [] [trailer])) clip
           (RaiseHttp not_found) eq_refl eq_refl).
Defined.

(* --------------------------------------------------------------------- *)
(*  _authenticate                                                         *)
(* --------------------------------------------------------------------- *)

(* Case analysis on everything _authenticate looks at. *)
Ltac auth_cases env store user_profile :=
  unfold _authenticate, load_token, after, renew_and_save, renew, refreshable,
    needs_renewal, refresh, login_flow, save_token;
  destruct (store !! token_file user_profile) as [[tk rt [] []]|] eqn:Hload;
  cbn [valid expired refresh_token negb andb];
  try destruct (truthy rt);
  try destruct (refresh_answer env _);
  try destruct (client_secrets_exists env);
  try destruct (flow_answer env);
  cbn.

Lemma authenticate_persists env (store : Store) user_profile c :
  result (_authenticate env store user_profile).1 = Return c ->
  (_authenticate env store user_profile).2 !! token_file user_profile = Some c.
Proof.
  auth_cases env store user_profile; intros H; simplify_eq;
    rewrite ?lookup_insert_eq; done.
Qed.

(** X7.  Whenever _authenticate returns a credential, that credential is
    what the token file of the profile holds afterwards, whether it was
    loaded, refreshed or obtained by the login flow. *)
Theorem returned_credential_is_persisted
    (env : AuthEnv) (store : Store) (user_profile : string) (c : Credentials) :
  result (_authenticate env store user_profile).1 = Return c ->
  (_authenticate env store user_profile).2 !! token_file user_profile = Some c.
Proof. apply authenticate_persists. Qed.

Lemma returned_credential_is_persisted_witness :
  (_authenticate granting (store_of stale_creds) "default").2 !! token_file "default"
    = Some fresh_creds.
Proof.
  exact (returned_credential_is_persisted granting (store_of stale_creds) "default"
           fresh_creds eq_refl).
Defined.

Lemma string_app_length (a b : string) :
  String.length (a +:+ b) = (String.length a + String.length b)%nat.
Proof.
  induction a as [|c a IH]; [done|].
  change (S (String.length (a +:+ b)) = S (String.length a + String.length b)).
  by rewrite IH.
Qed.

Lemma string_app_inv_r (u v s : string) : u +:+ s = v +:+ s -> u = v.
Proof.
  revert v. induction u as [|c u IH]; intros [|d v] H; [done| | |].
  - apply (f_equal String.length) in H. rewrite !string_app_length in H.
    cbn in H. lia.
  - apply (f_equal String.length) in H. rewrite !string_app_length in H.
    cbn in H. lia.
  - change (String c (u +:+ s) = String d (v +:+ s)) in H.
    injection H as -> H. f_equal. by apply IH.
Qed.

(* Different profiles have different token files. *)
Lemma token_file_inj u v : token_file u = token_file v -> u = v.
Proof.
  unfold token_file. intros H. apply (inj (String.app "token_")) in H.
  by apply string_app_inv_r in H.
Qed.



(** X9.  One run of _authenticate makes at most one call that can grant a
    credential, a refresh or a login flow and never both, and writes the
    token file at most once: exactly once when it returns after such a
    call, and not at all when it returns the credential it loaded or ends
    in an exit or an exception. *)
Theorem at_most_one_grant
    (env : AuthEnv) (store : Store) (user_profile : string) :
  let p := (_authenticate env store user_profile).1 in
  (grant_calls (trace p) <= 1)%nat
  /\ length (token_writes (trace p)) =
       match result p with
       | Return _ => grant_calls (trace p)
       | Fail _ => 0%nat
       end.
Proof.
  cbv zeta. auth_cases env store user_profile; split; vm_compute; (done || lia).
Qed.

(** X10.  _authenticate is idempotent on success: when a run returns a
    credential that is valid, a second run for the same profile on the
    token files the first one left only loads that credential and returns
    it, with no refresh, no login flow and no write. *)
Theorem second_run_only_loads
    (env : AuthEnv) (store : Store) (user_profile : string) (c : Credentials) :
  result (_authenticate env store user_profile).1 = Return c ->
  valid c = true ->
  let store' := (_authenticate env store user_profile).2 in
  _authenticate env store' user_profile =
    (mkProc (loading user_profile) (Return c), store').
Proof.
  intros Hr Hv store'. apply authenticate_valid; [|done].
  by apply authenticate_persists.
Qed.

Lemma second_run_only_loads_witness :
  _authenticate granting (_authenticate granting no_tokens "default").2 "default" =
    (mkProc (loading "default") (Return fresh_creds),
     (_authenticate granting no_tokens "default").2).
Proof.
  exact (second_run_only_loads granting no_tokens "default" fresh_creds
           eq_refl eq_refl).
Defined.

(* --------------------------------------------------------------------- *)
(*  Two runs, in any interleaving                                         *)
(* --------------------------------------------------------------------- *)

Lemma grant_calls_app t1 t2 :
  grant_calls (t1 ++ t2) = (grant_calls t1 + grant_calls t2)%nat.
Proof.
  unfold grant_calls, refresh_calls, flow_calls.
  rewrite !filter_app, !length_app. lia.
Qed.

Lemma token_writes_app t1 t2 :
  token_writes (t1 ++ t2) = token_writes t1 ++ token_writes t2.
Proof. apply filter_app. Qed.

(* One step of one process: what it adds to the grant calls and to the
   writes, and which files it leaves alone. *)
Lemma auth_step_bounds env user_profile pc (store : Store) :
  (grant_calls (auth_step env user_profile pc store).1.1 + granted_by pc
     <= granted_by (auth_step env user_profile pc store).1.2)%nat
  /\ (length (token_writes (auth_step env user_profile pc store).1.1) + written_by pc
       <= written_by (auth_step env user_profile pc store).1.2)%nat
  /\ (forall other, other <> user_profile ->
        (auth_step env user_profile pc store).2 !! token_file other
          = store !! token_file other).
Proof.
  destruct pc as [|creds|c|r].
  - unfold auth_step, load_token.
    destruct (store !! token_file user_profile); vm_compute; repeat split; lia.
  - unfold auth_step, needs_renewal, renew, refreshable, refresh, login_flow.
    destruct creds as [[tk rt [] []]|]; cbn [valid expired refresh_token negb andb];
      try destruct (truthy rt);
      try destruct (refresh_answer env _);
      try destruct (client_secrets_exists env);
      try destruct (flow_answer env);
      vm_compute; repeat split; lia.
  - cbn [auth_step fst snd]. split; [vm_compute; lia|]. split; [vm_compute; lia|].
    intros other Hne. rewrite lookup_insert_ne; [done|].
    intros H. apply token_file_inj in H. congruence.
  - vm_compute. repeat split; lia.
Qed.

Lemma pair_step_within_bounds env user_profile store who c :
  within_bounds user_profile store c ->
  within_bounds user_profile store (pair_step env user_profile who c).
Proof.
  intros (Hg & Hw & Hf). unfold within_bounds, pair_step.
  destruct who.
  - pose proof (auth_step_bounds env user_profile (first c) (files c)) as (Bg & Bw & Bf).
    destruct (auth_step env user_profile (first c) (files c)) as [[evs pc] st].
    cbn [fst snd first second files history] in *.
    rewrite grant_calls_app, token_writes_app, length_app.
    split; [lia|]. split; [lia|]. intros other Hne. by rewrite Bf, Hf.
  - pose proof (auth_step_bounds env user_profile (second c) (files c)) as (Bg & Bw & Bf).
    destruct (auth_step env user_profile (second c) (files c)) as [[evs pc] st].
    cbn [fst snd first second files history] in *.
    rewrite grant_calls_app, token_writes_app, length_app.
    split; [lia|]. split; [lia|]. intros other Hne. by rewrite Bf, Hf.
Qed.

Lemma run_schedule_within_bounds env user_profile store schedule c :
  within_bounds user_profile store c ->
  within_bounds user_profile store (run_schedule env user_profile schedule c).
Proof.
  revert c. induction schedule as [|who rest IH]; intros c Hc; [done|].
  apply IH. by apply pair_step_within_bounds.
Qed.

Lemma granted_by_le pc : (granted_by pc <= 1)%nat.
Proof. destruct pc; cbn; lia. Qed.

Lemma written_by_le pc : (written_by pc <= 1)%nat.
Proof. destruct pc; cbn; lia. Qed.

(** X11.  Two runs of _authenticate for the same profile, interleaved in
    any way at their accesses to the token file, make at most two calls
    that can grant a credential and at most two writes in all, one per
    run, and leave the token file of every other profile as it was. *)
Theorem any_schedule_bounded
    (env : AuthEnv) (store : Store) (user_profile : string) (schedule : list Who) :
  let final := run_schedule env user_profile schedule (start store) in
  (grant_calls (history final) <= 2)%nat
  /\ (length (token_writes (history final)) <= 2)%nat
  /\ (forall other, other <> user_profile ->
        files final !! token_file other = store !! token_file other).
Proof.
  intros final.
  assert (H0 : within_bounds user_profile store (start store)).
  { unfold within_bounds. cbn. split; [vm_compute; lia|]. split; [lia|done]. }
  destruct (run_schedule_within_bounds env user_profile store schedule _ H0)
    as (Hg & Hw & Hf). fold final in Hg, Hw, Hf.
  pose proof (granted_by_le (first final)). pose proof (granted_by_le (second final)).
  pose proof (written_by_le (first final)). pose proof (written_by_le (second final)).
  split; [lia|]. split; [lia|done].
Qed.

Lemma any_schedule_bounded_witness :
  files (run_schedule granting "gaming" in_turns (start (store_of stale_creds)))
    !! token_file "default" = Some stale_creds.
Proof.
  assert (H : "default" <> "gaming") by discriminate.
  exact (proj2 (proj2 (any_schedule_bounded granting (store_of stale_creds) "gaming"
                         in_turns)) "default" H).
Defined.

(* --------------------------------------------------------------------- *)
(*  main                                                                  *)
(* --------------------------------------------------------------------- *)

Lemma authenticate_no_requests env (store : Store) user_profile :
  requested (trace (_authenticate env store user_profile).1) = [].
Proof. auth_cases env store user_profile; done. Qed.

Lemma process_video_requested w v :
  Forall (eq v) (requested (trace (process_video w v))).
Proof.
  destruct (upload_video_reads w v) as (_ & Hq & _).
  destruct (upload_loop_counts v (chunk_answers w v) init_state 0) as (_ & _ & H3 & _).
  rewrite H3 in Hq.
  assert (Hu : Forall (eq v) (requested (trace (upload_video w v)))).
  { rewrite Hq. apply Forall_forall. by intros x ->%elem_of_replicate_inv. }
  destruct (process_video_cases w v)
    as [(fl & _ & ->)|[(id & _ & _ & ->)|(vid & _ & _ & [->|(ext & _ & _ & Hp)])]];
    cbn [trace]; try done.
  cbv zeta in Hp. rewrite Hp. cbn [trace]. rewrite requested_app, upload_caption_cases.
  destruct (caption_answer w vid (with_suffix v ext)); cbn; by rewrite app_nil_r.
Qed.

Lemma main_loop_requested w videos :
  Forall (fun f => f ∈ videos) (requested (trace (main_loop w videos))).
Proof.
  induction videos as [|v rest IH]; [by cbn|].
  rewrite main_loop_cons. pose proof (process_video_requested w v) as Hv.
  assert (Hv' : Forall (fun f => f ∈ v :: rest) (requested (trace (process_video w v)))).
  { eapply Forall_impl; [exact Hv|]. intros f <-. by left. }
  destruct (result (process_video w v)) as [id|fl] eqn:Hr.
  - rewrite (bind_return _ _ _ Hr). cbn [trace]. rewrite requested_app.
    apply Forall_app. split; [done|].
    eapply Forall_impl; [exact IH|]. intros f Hf. by right.
  - by rewrite (bind_fail _ _ _ Hr).
Qed.

Lemma bind_requested {A B} (m : Proc A) (k : A -> Proc B) :
  requested (trace (m ≫= k)) =
    requested (trace m) ++
    match result m with
    | Return a => requested (trace (k a))
    | Fail _ => []
    end.
Proof.
  unfold mbind, Proc_bind, bind.
  destruct (result m); cbn [trace]; by rewrite ?requested_app, ?app_nil_r.
Qed.

Section MainFacts.
Variable lower : string -> string.

(** X12.  Whatever the folder holds, main requests chunks only for entries
    that the listing of the folder gave as regular files and whose suffix,
    put in lower case, is .mp4, .mov, .mkv or .avi; directories and files of
    other types are never uploaded, and nothing is uploaded when the folder
    does not exist. *)
Theorem main_uploads_only_listed_videos
    (env : AuthEnv) (h : Host) (w : World) (store : Store) (args : Args) (f : Path) :
  f ∈ requested (trace (main lower env h w store args).1) ->
  dir_exists h (folder args) = true
  /\ exists entries,
       iterdir h (folder args) = Entries entries
       /\ {| entry_path := f; is_file := true |} ∈ entries
       /\ lower (suffix f) ∈ video_extensions.
Proof.
  unfold main, YouTubeUploader.
  destruct (dir_exists h (folder args)); cbn [negb].
  2: { cbn. by intros ?%elem_of_nil. }
  pose proof (authenticate_no_requests env store (user args)) as Hauth.
  destruct (_authenticate env store (user args)) as [auth st].
  cbn [fst snd] in *. rewrite !bind_requested, Hauth. cbn [app].
  unfold mbind at 1, Proc_bind at 1, bind at 1.
  destruct (result auth) as [c|fl]; cbn [result]; [|by intros ?%elem_of_nil].
  destruct (build_error h) as [msg|]; cbn [result mret Proc_ret ret fail trace];
    [by intros ?%elem_of_nil|].
  change (requested []) with (@nil Path). cbn [app].
  destruct (iterdir h (folder args)) as [entries|msg];
    [|by intros ?%elem_of_nil].
  intros Hf. split; [done|]. exists entries. split; [done|].
  assert (Hin : f ∈ entry_path <$> filter (is_video lower) entries).
  { revert Hf. cbv zeta.
    destruct (entry_path <$> filter (is_video lower) entries) as [|v vs] eqn:Hvs.
    - by intros ?%elem_of_nil.
    - rewrite bind_requested. intros Hf.
      by apply (proj1 (Forall_forall _ _) (main_loop_requested w (v :: vs))). }
  apply list_elem_of_fmap in Hin as ([f' isf] & -> & Hin).
  apply list_elem_of_filter in Hin as [Hv Hin].
  unfold is_video in Hv. cbn [entry_path is_file] in *.
  apply andb_prop_elim in Hv as [Hs Hfile].
  apply bool_decide_unpack in Hs. destruct isf; [done|by destruct Hfile].
Qed.

(** X13.  main checks the folder before it authenticates and
    authenticates before it lists the folder.  When the folder does not
    exist it logs the error and exits with status 1 without touching a
    credential.  Otherwise it leaves the token files as _authenticate
    leaves them, whatever happens later; a failure of _authenticate ends
    main as it ended _authenticate; and when no entry of the folder is a
    video file main logs that and returns, having authenticated. *)
Theorem main_checks_folder_then_authenticates
    (env : AuthEnv) (h : Host) (w : World) (store : Store) (args : Args) :
  let auth := _authenticate env store (user args) in
  let m := main lower env h w store args in
  (dir_exists h (folder args) = false ->
     m = (mkProc [EvLog ERROR ("[ERROR] Directory '" +:+ folder args +:+
                               "' does not exist.")] (Fail (SysExit 1)), store))
  /\ (dir_exists h (folder args) = true ->
       m.2 = auth.2
       /\ (exists t, trace m.1 = trace auth.1 ++ t)
       /\ (forall fl, result auth.1 = Fail fl ->
             m.1 = mkProc (trace auth.1) (Fail fl))
       /\ (forall c entries,
             result auth.1 = Return c ->
             build_error h = None ->
             iterdir h (folder args) = Entries entries ->
             filter (is_video lower) entries = [] ->
             m.1 = mkProc (trace auth.1 ++
                           [EvLog INFO "[INFO] No video files found in target directory."])
                          (Return tt))).
Proof.
  intros auth m. unfold m, main, YouTubeUploader. fold auth.
  split; [by intros ->|]. intros ->. cbn [negb].
  destruct auth as [[ta ra] st]. cbn [fst snd trace result].
  split; [done|]. split; [|split].
  - destruct ra as [c|fl]; [|exists []; by rewrite app_nil_r].
    rewrite (bind_assoc (mkProc ta (Return c))).
    rewrite (bind_return (mkProc ta (Return c)) _ c eq_refl). cbn [trace]. by eauto.
  - intros fl ->. done.
  - intros c entries -> -> -> ->. cbn. by rewrite !app_nil_r.
Qed.

End MainFacts.

Lemma main_uploads_only_listed_videos_witness :
  dir_exists home "videos" = true
  /\ exists entries,
       iterdir home "videos" = Entries entries
       /\ {| entry_path := holiday; is_file := true |} ∈ entries
       /\ lower_ascii (suffix holiday) ∈ video_extensions.
Proof.
  apply (main_uploads_only_listed_videos lower_ascii granting home
           (world_with session_with_retries CaptionOk) (store_of good_creds)
           {| user := "default"; folder := "videos" |} holiday).
  apply list_elem_of_In. vm_compute. by left.
Defined.

Lemma main_checks_folder_then_authenticates_witness :
  main lower_ascii granting home quiet_world (store_of stale_creds)
    {| user := "default"; folder := "nowhere" |}
  = (mkProc [EvLog ERROR "[ERROR] Directory 'nowhere' does not exist."]
            (Fail (SysExit 1)), store_of stale_creds)
  /\ (main lower_ascii granting home quiet_world (store_of stale_creds)
        {| user := "default"; folder := "docs" |}).1
    = mkProc (trace (_authenticate granting (store_of stale_creds) "default").1 ++
              [EvLog INFO "[INFO] No video files found in target directory."])
             (Return tt).
Proof.
  split.
  - exact (proj1 (main_checks_folder_then_authenticates lower_ascii granting home
                    quiet_world (store_of stale_creds)
                    {| user := "default"; folder := "nowhere" |}) eq_refl).
  - exact (proj2 (proj2 (proj2 (proj2
             (main_checks_folder_then_authenticates lower_ascii granting home
                quiet_world (store_of stale_creds)
                {| user := "default"; folder := "docs" |}) eq_refl)))
             fresh_creds docs_folder eq_refl eq_refl eq_refl eq_refl).
Defined.

End PyMore.

(* ===================================================================== *)
(*  Part VI.  More about the API client                                   *)
(* ===================================================================== *)

Module ApiMore.
Import Api ApiFacts.
#[local] Open Scope list_scope.




(** X15.  The form that uploadVideo posts holds no key twice and no key
    but video, subtitle, profile, title, description, privacy and language,
    in that order, the video first; it has between five and seven entries,
    and the request built does not depend on what the server answers. *)
Theorem uploadVideo_form_keys
    (video : File) (subtitle : option File) (options : option UploadOptions) :
  let form := uploadVideo_form video subtitle options in
  NoDup (keys form)
  /\ keys form `sublist_of` FORM_KEYS
  /\ head form = Some ("video", FormFile video)
  /\ (5 <= length form <= 7)%nat
  /\ (forall a1 a2, (uploadVideo video subtitle options a1).1
                    = (uploadVideo video subtitle options a2).1).
Proof.
  intros form. unfold form, keys, FORM_KEYS, uploadVideo_form, append.
  destruct options as [[pr ti de pv la]|]; destruct subtitle as [f|];
    try (destruct ti as [t|]; [destruct (String.eqb t "") eqn:Ht|]);
    cbn; rewrite ?Ht; cbn;
    (split; [repeat (apply NoDup_cons; split;
                     [rewrite ?elem_of_cons, elem_of_nil; intuition discriminate|]);
             apply NoDup_nil_2|]);
    (split; [repeat first [apply sublist_nil | apply sublist_skip | apply sublist_cons]|]);
    (split; [done|]); (split; [lia|done]).
Qed.

(** X16.  uploadVideo resolves only for a response that is ok and whose
    body could be read, and then to that body.  For a response that is not
    ok it rejects with the detail of the body when that is a non-empty
    string, with "Upload failed" when the detail is missing, null, the
    empty string or another value that is false, and with the detail
    turned into a string when it is another value that is true, which for
    an empty list is the empty message.  When the body cannot be read, or
    fetch itself rejects, uploadVideo rejects with that error. *)
Theorem uploadVideo_outcome
    (video : File) (subtitle : option File) (options : option UploadOptions)
    (answer : UploadAnswer) :
  let r := (uploadVideo video subtitle options answer).2 in
  (forall resp, r = inl resp <-> answer = UploadOk resp)
  /\ (forall d, answer = UploadNotOk (Some d) -> d <> "" -> r = inr d)
  /\ (answer = UploadNotOk None \/ answer = UploadNotOk (Some "") ->
        r = inr "Upload failed")
  /\ (forall text, answer = UploadNotOkValue true text -> r = inr text)
  /\ (forall text, answer = UploadNotOkValue false text -> r = inr "Upload failed")
  /\ (forall msg,
        answer = UploadOkUnread msg \/ answer = UploadNotOkUnread msg
        \/ answer = UploadRejected msg ->
        r = inr msg).
Proof.
  intros r. unfold r, uploadVideo. cbn [snd].
  split; [|split; [|split; [|split; [|split]]]].
  - intros resp. destruct answer; split; intros H; simplify_eq; done.
  - intros d -> Hd. unfold or_else, truthy.
    by destruct (String.eqb_spec d "").
  - by intros [-> | ->].
  - by intros text ->.
  - by intros text ->.
  - by intros msg [-> | [-> | ->]].
Qed.

Lemma uploadVideo_outcome_witness :
  (uploadVideo clip_file None None (UploadNotOk (Some ""))).2 = inr "Upload failed"
  /\ (uploadVideo clip_file None None (UploadNotOkValue true "")).2 = inr "".
Proof.
  split.
  - exact (proj1 (proj2 (proj2
      (uploadVideo_outcome clip_file None None (UploadNotOk (Some "")))))
      (or_intror eq_refl)).
  - exact (proj1 (proj2 (proj2 (proj2
      (uploadVideo_outcome clip_file None None (UploadNotOkValue true "")))))
      "" eq_refl).
Defined.

(* --------------------------------------------------------------------- *)
(*  More about polling                                                    *)
(* --------------------------------------------------------------------- *)

Lemma poll_loop_cons jobId onUpdate ms active t rest :
  poll_loop jobId onUpdate ms active (t :: rest) =
    let act := if cancelled t then false else active in
    match (poll jobId onUpdate ms act (answer t)).2 with
    | NoTimer => (poll jobId onUpdate ms act (answer t)).1.1
    | Timer d =>
        (poll jobId onUpdate ms act (answer t)).1.1 ++
        SetTimeout d :: poll_loop jobId onUpdate ms
                          (poll jobId onUpdate ms act (answer t)).1.2 rest
    end.
Proof.
  cbn [poll_loop].
  by destruct (poll jobId onUpdate ms (if cancelled t then false else active) (answer t))
    as [[evs act'] [|d]].
Qed.

(* A run of poll that sets a timer leaves the loop active. *)
Lemma poll_timer_active jobId onUpdate ms active a d :
  (poll jobId onUpdate ms active a).2 = Timer d ->
  active = true /\ (poll jobId onUpdate ms active a).1.2 = true.
Proof.
  unfold poll. destruct active; cbn [negb]; [|done].
  destruct a as [job|msg]; [destruct (onUpdate job); [destruct (terminal job)|]|];
    cbn; done.
Qed.

Lemma requests_app t1 t2 : requests (t1 ++ t2) = requests t1 ++ requests t2.
Proof. apply omap_app. Qed.

Lemma updates_app t1 t2 : updates (t1 ++ t2) = updates t1 ++ updates t2.
Proof. apply omap_app. Qed.

Lemma requests_timer d t : requests (SetTimeout d :: t) = requests t.
Proof. reflexivity. Qed.

Lemma updates_timer d t : updates (SetTimeout d :: t) = updates t.
Proof. reflexivity. Qed.

Lemma poll_loop_cancelled jobId onUpdate ms active pre rest a :
  poll_loop jobId onUpdate ms active (pre ++ mkTick true a :: rest)
    = poll_loop jobId onUpdate ms active (pre ++ [mkTick true a])
  /\ requests (poll_loop jobId onUpdate ms active (pre ++ mkTick true a :: rest))
     = requests (poll_loop jobId onUpdate ms active pre)
  /\ updates (poll_loop jobId onUpdate ms active (pre ++ mkTick true a :: rest))
     = updates (poll_loop jobId onUpdate ms active pre).
Proof.
  revert active. induction pre as [|t pre IH]; intros active.
  - cbn [app]. rewrite !poll_loop_cons. cbn [cancelled answer]. by cbn.
  - cbn [app]. rewrite !poll_loop_cons. cbv zeta.
    destruct ((poll jobId onUpdate ms (if cancelled t then false else active) (answer t)).2)
      as [|d]; [done|].
    destruct (IH (poll jobId onUpdate ms (if cancelled t then false else active)
                    (answer t)).1.2) as (I1 & I2 & I3).
    split; [by rewrite I1|].
    by rewrite !requests_app, !updates_app, !requests_timer, !updates_timer, I2, I3.
Qed.

(* The firing under way when the loop is cancelled hands its status over. *)
Lemma poll_loop_last_delivery jobId onUpdate ms job a rest :
  updates (poll_loop jobId onUpdate ms true
             (mkTick false (StatusJob job) :: mkTick true a :: rest)) = [job].
Proof.
  rewrite poll_loop_cons. cbn [cancelled answer]. cbv zeta. unfold poll.
  cbn [negb].
  destruct (onUpdate job); [destruct (terminal job)|]; cbn [fst snd];
    rewrite ?updates_app, ?updates_timer; done.
Qed.

(** X17.  Cancelling stops the loop at the next firing of poll: a firing
    that begins after the function returned by pollUploadStatus was called
    does nothing, and so does everything after it; no request is made, the
    callback is not called and no timer is set, whatever the server would
    have answered.  The firing that was under way is not cut short: when
    its request brings a status, the callback is still called with it,
    once. *)
Theorem cancel_stops_polling
    (jobId : string) (onUpdate : UploadJob -> Completion) (intervalMs : option Z)
    (pre rest : list Tick) (a : StatusAnswer) :
  pollUploadStatus jobId onUpdate intervalMs (pre ++ mkTick true a :: rest) =
  pollUploadStatus jobId onUpdate intervalMs (pre ++ [mkTick true a])
  /\ requests (pollUploadStatus jobId onUpdate intervalMs (pre ++ mkTick true a :: rest))
     = requests (pollUploadStatus jobId onUpdate intervalMs pre)
  /\ updates (pollUploadStatus jobId onUpdate intervalMs (pre ++ mkTick true a :: rest))
     = updates (pollUploadStatus jobId onUpdate intervalMs pre)
  /\ pollUploadStatus jobId onUpdate intervalMs (mkTick true a :: rest) = []
  /\ (forall job,
        updates (pollUploadStatus jobId onUpdate intervalMs
                   (mkTick false (StatusJob job) :: mkTick true a :: rest)) = [job]).
Proof.
  unfold pollUploadStatus.
  destruct (poll_loop_cancelled jobId onUpdate
              (default DEFAULT_INTERVAL_MS intervalMs) true pre rest a)
    as (H1 & H2 & H3).
  split; [exact H1|]. split; [exact H2|]. split; [exact H3|].
  split; [done|]. intros job. apply poll_loop_last_delivery.
Qed.

Lemma poll_loop_statuses jobId onUpdate ms active ticks :
  exists k,
    (k <= length ticks)%nat
    /\ requests (poll_loop jobId onUpdate ms active ticks) = replicate k jobId
    /\ updates (poll_loop jobId onUpdate ms active ticks) = omap tick_job (take k ticks)
    /\ Forall (fun tk => cancelled tk = false) (take k ticks).
Proof.
  revert active. induction ticks as [|[c a] rest IH]; intros active.
  - exists 0%nat. by cbn.
  - rewrite poll_loop_cons. cbn [cancelled answer]. cbv zeta.
    destruct (if c then false else active) eqn:Hact.
    2: { exists 0%nat. cbn. split; [lia|]. split; [done|]. split; done. }
    assert (Hc : c = false) by (by destruct c).
    unfold poll. cbn [negb]. subst c.
    destruct (IH true) as (k & Hk & Hq & Hu & Hn).
    destruct a as [job|msg]; [destruct (onUpdate job); [destruct (terminal job)|]|];
      cbn [fst snd].
    + exists 1%nat. cbn [length take]. split; [lia|]. split; [done|]. split; [done|].
      by repeat constructor.
    + exists (S k). cbn [length take].
      rewrite requests_app, updates_app, requests_timer, updates_timer, Hq, Hu.
      split; [lia|]. split; [done|]. split; [done|]. by constructor.
    + exists (S k). cbn [length take].
      rewrite requests_app, updates_app, requests_timer, updates_timer, Hq, Hu.
      split; [lia|]. split; [done|]. split; [done|]. by constructor.
    + exists (S k). cbn [length take].
      rewrite requests_app, updates_app, requests_timer, updates_timer, Hq, Hu.
      split; [lia|]. split; [done|]. split; [done|]. by constructor.
Qed.

(** X18.  The callback is handed the statuses that the server delivered,
    in order, each once and none skipped, up to the point where the loop
    stopped; every request asks for the job id that was given; and there
    are never more requests than firings of poll. *)
Theorem callback_sees_statuses_in_order
    (jobId : string) (onUpdate : UploadJob -> Completion) (intervalMs : option Z)
    (ticks : list Tick) :
  let t := pollUploadStatus jobId onUpdate intervalMs ticks in
  exists k,
    (k <= length ticks)%nat
    /\ requests t = replicate k jobId
    /\ updates t = omap tick_job (take k ticks)
    /\ Forall (fun tk => cancelled tk = false) (take k ticks).
Proof. apply poll_loop_statuses. Qed.

End ApiMore.

(* ===================================================================== *)
(*  Part VII.  Properties of the dashboard                                *)
(* ===================================================================== *)

Module DashFacts.
Import Dash.
#[local] Open Scope list_scope.

Lemma app_cons (c : Ascii.ascii) (a b : string) :
  String c a +:+ b = String c (a +:+ b).
Proof. reflexivity. Qed.

Lemma app_empty_l (b : string) : "" +:+ b = b.
Proof. reflexivity. Qed.

Lemma canonicalize_dot (c : Ascii.ascii) : canonicalize c = dot -> c = dot.
Proof. destruct c as [[] [] [] [] [] [] [] []]; vm_compute; congruence. Qed.

Lemma canonicalize_slash (c : Ascii.ascii) : canonicalize c = slash -> c = slash.
Proof. destruct c as [[] [] [] [] [] [] [] []]; vm_compute; congruence. Qed.

Lemma eqb_ci_sym (a b : string) : eqb_ci a b = eqb_ci b a.
Proof.
  revert b; induction a as [|x a IH]; intros [|y b]; simpl; try done.
  by rewrite IH, Ascii.eqb_sym.
Qed.

Lemma eqb_ci_trans (a b c : string) :
  eqb_ci a b = true -> eqb_ci b c = true -> eqb_ci a c = true.
Proof.
  revert b c; induction a as [|x a IH]; intros [|y b] [|z c]; simpl; try done.
  intros [Hxy Hab]%andb_true_iff [Hyz Hbc]%andb_true_iff.
  apply Ascii.eqb_eq in Hxy, Hyz. apply andb_true_iff; split.
  - apply Ascii.eqb_eq; congruence.
  - eauto.
Qed.

Lemma eqb_ci_respects (p a b : string) :
  eqb_ci a b = true -> eqb_ci p a = eqb_ci p b.
Proof.
  intros Hab. destruct (eqb_ci p a) eqn:Hpa, (eqb_ci p b) eqn:Hpb; try done.
  - by rewrite (eqb_ci_trans p a b) in Hpb.
  - rewrite eqb_ci_sym in Hab. by rewrite (eqb_ci_trans p b a) in Hpa.
Qed.

Lemma ends_ci_respects (p a b : string) :
  eqb_ci a b = true -> ends_ci p a = ends_ci p b.
Proof.
  revert b; induction a as [|x a IH]; intros [|y b] Hab; simpl in Hab; try done.
  apply andb_true_iff in Hab as [Hxy Hab].
  cbn [ends_ci]. rewrite (IH b Hab). f_equal.
  apply eqb_ci_respects. simpl. by rewrite Hxy, Hab.
Qed.

Lemma ends_ci_tail (p : string) (c : Ascii.ascii) (s : string) :
  ends_ci p s = true -> ends_ci p (String c s) = true.
Proof. intros H. cbn [ends_ci]. rewrite H. apply orb_true_r. Qed.

Lemma ends_ci_whole (p s : string) : eqb_ci p s = true -> ends_ci p s = true.
Proof. intros H. destruct s; cbn [ends_ci]; by rewrite H. Qed.

(* Two patterns that end the same name: one of them ends the other. *)
Lemma ends_ci_comparable (p q s : string) :
  ends_ci p s = true -> ends_ci q s = true ->
  ends_ci p q || ends_ci q p = true.
Proof.
  induction s as [|c s IH]; cbn [ends_ci]; intros Hp Hq.
  - rewrite orb_false_r in Hp, Hq. apply orb_true_iff; left.
    apply ends_ci_whole. rewrite eqb_ci_sym in Hq. eauto using eqb_ci_trans.
  - apply orb_true_iff in Hp as [Hp|Hp]; apply orb_true_iff in Hq as [Hq|Hq].
    + apply orb_true_iff; left. apply ends_ci_whole.
      rewrite eqb_ci_sym in Hq. eauto using eqb_ci_trans.
    + apply orb_true_iff; right.
      rewrite (ends_ci_respects q p (String c s) Hp). by apply ends_ci_tail.
    + apply orb_true_iff; left.
      rewrite (ends_ci_respects p q (String c s) Hq). by apply ends_ci_tail.
    + auto.
Qed.

(* Two lists of types that are apart never accept one name. *)
Lemma test_types_apart (ts us : list string) (name : string) :
  apart ts us = true -> test_types ts name = true -> test_types us name = false.
Proof.
  unfold apart, test_types. intros Hap Ht.
  apply existsb_exists in Ht as (t & Hint & Ht).
  apply not_true_iff_false. intros (u & Hinu & Hu)%existsb_exists.
  rewrite forallb_forall in Hap. specialize (Hap t Hint).
  rewrite forallb_forall in Hap. specialize (Hap u Hinu).
  by rewrite (ends_ci_comparable _ _ _ Ht Hu) in Hap.
Qed.

Lemma ends_ci_split (p s : string) :
  ends_ci p s = true -> exists pre suf, s = pre +:+ suf /\ eqb_ci p suf = true.
Proof.
  induction s as [|c s IH]; cbn [ends_ci]; intros H.
  - rewrite orb_false_r in H. by exists "", "".
  - apply orb_true_iff in H as [H|H].
    + by exists "", (String c s).
    + destruct (IH H) as (pre & suf & -> & Hs). by exists (String c pre), suf.
Qed.

Lemma plain_eqb_ci (t s : string) :
  plain t = true -> eqb_ci t s = true -> plain s = true.
Proof.
  revert s; induction t as [|x t IH]; intros [|y s]; simpl; try done.
  intros [[Hs Hd]%andb_true_iff Ht]%andb_true_iff [Hxy Hts]%andb_true_iff.
  apply Ascii.eqb_eq in Hxy.
  rewrite (IH s Ht Hts), andb_true_r.
  apply andb_true_iff; split; apply negb_true_iff, Ascii.eqb_neq; intros ->.
  - apply canonicalize_slash in Hxy as ->. by vm_compute in Hs.
  - apply canonicalize_dot in Hxy as ->. by vm_compute in Hd.
Qed.

Lemma is_extension_eqb_ci (t s : string) :
  is_extension t = true -> eqb_ci t s = true -> is_extension s = true.
Proof.
  destruct t as [|x t]; [done|]. destruct s as [|y s]; [done|].
  apply plain_eqb_ci.
Qed.

Lemma plain_with_dot (a b : string) : plain (a +:+ String dot b) = false.
Proof.
  induction a as [|c a IH].
  - reflexivity.
  - rewrite app_cons. simpl. by rewrite IH, andb_false_r.
Qed.

Lemma is_extension_with_dot (a b : string) :
  is_extension (a +:+ String dot b) = false.
Proof.
  destruct a as [|c a].
  - reflexivity.
  - rewrite app_cons. apply (plain_with_dot (String c a) b).
Qed.

Lemma strip_extension_app (base ext : string) :
  is_extension ext = true ->
  strip_extension (base +:+ String dot ext) = base.
Proof.
  intros Hext. induction base as [|c base IH].
  - rewrite app_empty_l. cbn [strip_extension]. by rewrite Hext.
  - rewrite app_cons. cbn [strip_extension].
    rewrite is_extension_with_dot, andb_false_r. by rewrite IH.
Qed.

Lemma strip_extension_shape (s : string) :
  strip_extension s = s \/
  exists ext, is_extension ext = true /\ s = strip_extension s +:+ String dot ext.
Proof.
  induction s as [|c s IH]; [by left|].
  cbn [strip_extension].
  destruct (Ascii.eqb c dot && is_extension s) eqn:Hc.
  - apply andb_true_iff in Hc as [->%Ascii.eqb_eq Hs]. right. by exists s.
  - destruct IH as [->|(ext & Hext & Hs)]; [by left|].
    right. exists ext. split; [done|]. rewrite app_cons. by rewrite <- Hs.
Qed.

(** X19.  No file name is taken both for a video and for a subtitle: a
    name that ends in one of the video extensions, in any mix of upper
    and lower case, ends in none of the subtitle extensions. *)
Theorem video_is_no_subtitle (f : Api.File) :
  is_video f = true -> is_subtitle f = false.
Proof. apply test_types_apart. by vm_compute. Qed.

Lemma video_is_no_subtitle_witness :
  is_video trip_mp4 = true /\ is_subtitle trip_mp4 = false.
Proof.
  split; [by vm_compute|]. apply (video_is_no_subtitle trip_mp4). by vm_compute.
Defined.

(** X20.  The title given to a video: the name of a file taken for a
    video is its title followed by a dot and an extension that is, up to
    the case of its letters, one of the seven video types; nothing else of
    the name is removed, whatever dots the rest of it holds. *)
Theorem video_title_is_name_less_extension (f : Api.File) :
  is_video f = true ->
  exists ext t,
    Api.file_name f = strip_extension (Api.file_name f) +:+ "." +:+ ext
    /\ t ∈ VIDEO_TYPES /\ eqb_ci t ext = true.
Proof.
  unfold is_video, test_types. intros (t & Hin & Ht)%existsb_exists.
  apply ends_ci_split in Ht as (pre & suf & Hname & Hsuf).
  destruct suf as [|c ext]; [done|].
  change ("." +:+ t) with (String dot t) in Hsuf. cbn [eqb_ci] in Hsuf.
  apply andb_true_iff in Hsuf as [Hc Hext].
  apply Ascii.eqb_eq in Hc. symmetry in Hc.
  change (canonicalize dot) with dot in Hc. apply canonicalize_dot in Hc as ->.
  assert (is_extension t = true) as Ht.
  { clear -Hin. unfold VIDEO_TYPES in Hin.
    repeat (apply in_inv in Hin as [<-|Hin]; [by vm_compute|]). by destruct Hin. }
  exists ext, t. rewrite Hname.
  rewrite strip_extension_app by eauto using is_extension_eqb_ci.
  split; [done|]. split; [by apply list_elem_of_In|done].
Qed.

Lemma video_title_is_name_less_extension_witness :
  exists ext t,
    Api.file_name trip_mp4 = strip_extension (Api.file_name trip_mp4) +:+ "." +:+ ext
    /\ t ∈ VIDEO_TYPES /\ eqb_ci t ext = true.
Proof. apply (video_title_is_name_less_extension trip_mp4). by vm_compute. Defined.

(** X21.  A name made of a base, a dot and an extension, that is one or
    more characters other than a dot and a slash, loses exactly the dot
    and the extension, whatever the base holds. *)
Theorem strip_extension_round_trip (base ext : string) :
  is_extension ext = true ->
  strip_extension (base +:+ "." +:+ ext) = base.
Proof. apply strip_extension_app. Qed.

Lemma strip_extension_round_trip_witness :
  strip_extension ("my.holiday/day.1" +:+ "." +:+ "srt") = "my.holiday/day.1".
Proof. apply (strip_extension_round_trip "my.holiday/day.1" "srt"). reflexivity. Defined.

(** X22.  Removing the extension removes at most one final part: the
    result is the name itself, or the name is the result followed by a
    dot and an extension. *)
Theorem strip_extension_removes_last_part (s : string) :
  strip_extension s = s \/
  exists ext, is_extension ext = true /\ s = strip_extension s +:+ "." +:+ ext.
Proof. apply strip_extension_shape. Qed.

Section FilesFacts.
Variable toLowerCase : string -> string.
Variable random_id : nat -> string.

Lemma head_filter_bool {A} (P : A -> bool) (l : list A) :
  match head (filter P l) with
  | Some x => exists l1 l2, l = l1 ++ x :: l2 /\ P x = true
                            /\ Forall (fun y => P y = false) l1
  | None => Forall (fun y => P y = false) l
  end.
Proof.
  induction l as [|a l IH]; [by constructor|].
  rewrite filter_cons. destruct (P a) eqn:Ha.
  - rewrite decide_True by (by apply Is_true_true).
    simpl. by exists [], l.
  - rewrite decide_False by (by apply Is_true_false).
    destruct (head (filter P l)) as [x|].
    + destruct IH as (l1 & l2 & -> & Hx & Hl1).
      exists (a :: l1), l2. by repeat split; [|constructor].
    + by constructor.
Qed.

(** X23.  What a drop of files adds to the list: the entries already
    listed are kept, in front; one entry is added for each dropped file
    whose name is that of a video, in the order of the drop, and one line
    is logged for each.  A new entry is pending at progress 0, with no
    job, link or error, and is titled by the name of its video less the
    extension.  Its subtitle is the first dropped subtitle file whose name
    less the extension equals the title once both are put in lower case;
    it has none exactly when no dropped subtitle file does. *)
Theorem processFiles_pairs_by_base_name
    (files : list UploadFile) (filesArray : list Api.File) :
  let out := processFiles toLowerCase random_id files filesArray in
  exists newFiles,
    out.1 = files ++ newFiles
    /\ video <$> newFiles = filter is_video filesArray
    /\ length out.2 = length newFiles
    /\ Forall (fun f =>
         status f = StPending /\ progress f = 0 /\ jobId f = None
         /\ videoUrl f = None /\ error f = None
         /\ title f = strip_extension (Api.file_name (video f))
         /\ match subtitle f with
            | Some sub =>
                exists before after,
                  filter is_subtitle filesArray = before ++ sub :: after
                  /\ toLowerCase (strip_extension (Api.file_name sub))
                     = toLowerCase (title f)
                  /\ Forall (fun other =>
                       toLowerCase (strip_extension (Api.file_name other))
                       <> toLowerCase (title f)) before
            | None =>
                forall sub, sub ∈ filesArray -> is_subtitle sub = true ->
                  toLowerCase (strip_extension (Api.file_name sub))
                  <> toLowerCase (title f)
            end) newFiles.
Proof.
  cbn zeta. exists (new_files toLowerCase random_id filesArray).
  split; [done|]. split; [|split].
  - unfold new_files. rewrite fmap_imap.
    apply list_eq. intros i. rewrite list_lookup_imap.
    by destruct (filter is_video filesArray !! i).
  - unfold processFiles. cbn [snd]. by rewrite length_fmap.
  - unfold new_files. apply Forall_lookup. intros i f Hf.
    rewrite list_lookup_imap in Hf.
    destruct (filter is_video filesArray !! i) as [v|]; [|done].
    injection Hf as <-. cbn [status progress jobId videoUrl error title video subtitle].
    do 6 (split; [done|]).
    unfold matching_subtitle.
    pose proof (head_filter_bool
      (fun sub => String.eqb (toLowerCase (strip_extension (Api.file_name sub)))
                             (toLowerCase (strip_extension (Api.file_name v))))
      (filter is_subtitle filesArray)) as H.
    destruct (head _) as [sub|].
    + destruct H as (l1 & l2 & Hl & Hsub & Hl1). exists l1, l2.
      split; [done|]. split; [by apply String.eqb_eq|].
      eapply Forall_impl; [exact Hl1|]. intros y Hy. by apply String.eqb_neq.
    + intros sub Hin Hsub. rewrite Forall_forall in H.
      apply String.eqb_neq, H. apply list_elem_of_filter. by rewrite Hsub.
Qed.

End FilesFacts.


(* --------------------------------------------------------------------- *)
(*  startUpload                                                           *)
(* --------------------------------------------------------------------- *)

Lemma Forall2_compose {A B C} (R1 : A -> B -> Prop) (R2 : B -> C -> Prop)
    (R3 : A -> C -> Prop) (a : list A) (b : list B) (c : list C) :
  (forall x y z, R1 x y -> R2 y z -> R3 x z) ->
  Forall2 R1 a b -> Forall2 R2 b c -> Forall2 R3 a c.
Proof.
  intros H H1. revert c.
  induction H1; intros c' H2; inversion H2; subst; constructor; eauto.
Qed.

Lemma Forall2_and_r {A B} (R : A -> B -> Prop) (Q : B -> Prop)
    (a : list A) (b : list B) :
  Forall2 R a b -> Forall Q b -> Forall2 (fun x y => R x y /\ Q y) a b.
Proof.
  induction 1; intros HQ; [constructor|].
  inversion HQ; subst. constructor; auto.
Qed.

Lemma touches_refl (i : string) (l : list UploadFile) : Forall2 (touches i) l l.
Proof. apply Forall_Forall2_diag, Forall_forall. intros f _. by repeat split. Qed.

Lemma touches_trans (i : string) (a b c : list UploadFile) :
  Forall2 (touches i) a b -> Forall2 (touches i) b c -> Forall2 (touches i) a c.
Proof.
  apply Forall2_compose.
  intros x y z (I1 & V1 & S1 & T1 & E1) (I2 & V2 & S2 & T2 & E2).
  unfold touches. rewrite I2, V2, S2, T2.
  do 4 (split; [done|]). intros Hx.
  rewrite E2 by (by rewrite I1). auto.
Qed.

Lemma set_where_touches (i : string) (g : UploadFile -> UploadFile)
    (prev : list UploadFile) :
  keeps g -> Forall2 (touches i) prev (set_where i g prev).
Proof.
  intros Hg. unfold set_where. apply Forall2_fmap_r.
  apply Forall_Forall2_diag, Forall_forall. intros f _. cbn.
  destruct (String.eqb_spec (id f) i) as [Hi|Hi].
  - destruct (Hg f) as (? & ? & ? & ?). unfold touches.
    do 4 (split; [done|]). intros Hn. by destruct Hn.
  - unfold touches. by do 4 (split; [done|]).
Qed.

Lemma set_where_settles (i : string) (g : UploadFile -> UploadFile)
    (prev : list UploadFile) :
  (forall f, settled (g f) = true) ->
  Forall (fun f' => id f' = i -> settled f' = true) (set_where i g prev).
Proof.
  intros Hg. unfold set_where. apply Forall_fmap, Forall_forall. intros f _.
  cbn. destruct (String.eqb_spec (id f) i) as [Hi|Hi]; [auto|done].
Qed.

Lemma keeps_with_status s : keeps (with_status s).
Proof. by intros f. Qed.

Lemma keeps_with_jobId j : keeps (with_jobId j).
Proof. by intros f. Qed.

Lemma keeps_with_job job : keeps (with_job job).
Proof. by intros f. Qed.

Lemma keeps_with_failure msg : keeps (with_failure msg).
Proof. by intros f. Qed.

Lemma settled_with_job (job : Api.UploadJob) (f : UploadFile) :
  settled (with_job job f) = Api.terminal job.
Proof.
  unfold settled, with_job, job_status, Api.terminal. cbn [status].
  by destruct (Api.completed job), (Api.truthy (Api.error job)).
Qed.

Lemma on_job_state file job prev :
  (on_job file job prev).1.1 = set_where (id file) (with_job job) prev.
Proof.
  unfold on_job. by destruct (Api.completed job), (Api.truthy (Api.error job)).
Qed.

Lemma on_job_resolved file job prev :
  (on_job file job prev).2 = Api.terminal job.
Proof.
  unfold on_job, Api.terminal.
  by destruct (Api.completed job), (Api.truthy (Api.error job)).
Qed.

Lemma on_job_lines file job prev :
  uploads (on_job file job prev).1.2 = [] /\ pollings (on_job file job prev).1.2 = [].
Proof.
  unfold on_job.
  by destruct (Api.completed job), (Api.truthy (Api.error job)),
              (Api.subtitle_uploaded job).
Qed.


Lemma pollings_app a b : pollings (a ++ b) = pollings a ++ pollings b.
Proof. apply omap_app. Qed.

Lemma deliver_cons file e evs prev :
  deliver file (e :: evs) prev =
    match e with
    | Api.OnUpdate job =>
        let called := on_job file job prev in
        let later := deliver file evs called.1.1 in
        (later.1.1, Polling e :: called.1.2 ++ later.1.2, called.2 || later.2)
    | _ =>
        let later := deliver file evs prev in
        (later.1.1, Polling e :: later.1.2, later.2)
    end.
Proof. reflexivity. Qed.

(* The state after a polling loop: the statuses applied one by one. *)
Lemma deliver_state file evs prev :
  (deliver file evs prev).1.1 =
    foldl (fun p job => set_where (id file) (with_job job) p) prev (Api.updates evs).
Proof.
  revert prev. induction evs as [|e evs IH]; intros prev; [done|].
  rewrite deliver_cons. destruct e; cbv zeta; cbn [fst snd]; rewrite IH; try done.
  by rewrite on_job_state.
Qed.

(* The promise is resolved when one of the statuses is terminal. *)
Lemma deliver_resolved file evs prev :
  (deliver file evs prev).2 = existsb Api.terminal (Api.updates evs).
Proof.
  revert prev. induction evs as [|e evs IH]; intros prev; [done|].
  rewrite deliver_cons. destruct e; cbv zeta; cbn [fst snd]; rewrite IH; try done.
  by rewrite on_job_resolved.
Qed.

Lemma deliver_pollings file evs prev :
  pollings (deliver file evs prev).1.2 = evs.
Proof.
  revert prev. induction evs as [|e evs IH]; intros prev; [done|].
  rewrite deliver_cons. destruct e; cbv zeta; cbn [fst snd];
    change (pollings (Polling ?p :: ?l)) with (p :: pollings l);
    rewrite ?pollings_app, IH; try done.
  by rewrite (proj2 (on_job_lines _ _ _)).
Qed.


Lemma foldl_touches i (jobs : list Api.UploadJob) prev :
  Forall2 (touches i) prev
    (foldl (fun p job => set_where i (with_job job) p) prev jobs).
Proof.
  revert prev. induction jobs as [|job jobs IH]; intros prev;
    [apply touches_refl|].
  cbn [foldl]. eapply touches_trans; [|apply IH].
  apply set_where_touches, keeps_with_job.
Qed.

(* A polling loop that nobody cancels, with a callback that does not
   throw: a terminal status is the last thing that it sees. *)
Lemma poll_quiet_terminal jobId ms (answers : list Api.StatusAnswer) :
  existsb Api.terminal
    (Api.updates (Api.poll_loop jobId Api.quiet ms true (Api.mkTick false <$> answers)))
    = true ->
  exists pre job,
    Api.poll_loop jobId Api.quiet ms true (Api.mkTick false <$> answers)
      = pre ++ [Api.OnUpdate job]
    /\ Api.terminal job = true.
Proof.
  induction answers as [|a answers IH]; [done|].
  rewrite fmap_cons, ApiMore.poll_loop_cons. cbn [Api.cancelled Api.answer]. cbv zeta.
  unfold Api.poll. cbn [negb]. destruct a as [job|msg].
  - change (Api.quiet job) with Api.Returns. cbv beta iota.
    destruct (Api.terminal job) eqn:Hjob; cbn [fst snd].
    + intros _. by exists [Api.GetStatus jobId], job.
    + rewrite ApiMore.updates_app, ApiMore.updates_timer.
      change (Api.updates [Api.GetStatus jobId; Api.OnUpdate job]) with [job].
      cbn [app existsb]. rewrite Hjob, orb_false_l. intros H.
      destruct (IH H) as (pre & j & -> & Hj).
      by exists (Api.GetStatus jobId :: Api.OnUpdate job :: Api.SetTimeout ms :: pre), j.
  - cbn [fst snd]. rewrite ApiMore.updates_app, ApiMore.updates_timer.
    change (Api.updates [Api.GetStatus jobId; Api.ConsoleError]) with (@nil Api.UploadJob).
    cbn [app]. intros H. destruct (IH H) as (pre & j & -> & Hj).
    by exists (Api.GetStatus jobId :: Api.ConsoleError :: Api.SetTimeout (ms * 2) :: pre), j.
Qed.

(* What the body of the loop makes of the list. *)
Lemma upload_one_touches st file s prev :
  Forall2 (fun f f' =>
      touches (id file) f f'
      /\ ((upload_one st file s prev).2 = true -> id f = id file -> settled f' = true))
    prev (upload_one st file s prev).1.1.
Proof.
  assert (Hintro : forall res b,
    Forall2 (touches (id file)) prev b ->
    (res = true -> Forall (fun f' => id f' = id file -> settled f' = true) b) ->
    Forall2 (fun f f' => touches (id file) f f'
                         /\ (res = true -> id f = id file -> settled f' = true)) prev b).
  { intros res b Ht Hs. destruct res.
    - eapply Forall2_impl; [apply (Forall2_and_r _ _ _ _ Ht (Hs eq_refl))|].
      intros f f' [Hf Hq]. split; [done|]. intros _ Hi. apply Hq.
      by rewrite (proj1 Hf).
    - eapply Forall2_impl; [exact Ht|]. intros f f' Hf. by split. }
  unfold upload_one. cbv zeta.
  destruct (Api.uploadVideo _ _ _ _).2 as [response|msg]; cbn [fst snd].
  - rewrite deliver_state, deliver_resolved. apply Hintro.
    + eapply touches_trans; [|apply foldl_touches].
      eapply touches_trans; apply set_where_touches;
        [apply keeps_with_status|apply keeps_with_jobId].
    + unfold Api.pollUploadStatus. intros H.
      apply poll_quiet_terminal in H as (pre & job & -> & Hjob).
      rewrite ApiMore.updates_app, foldl_app. cbn [Api.updates omap foldl].
      apply set_where_settles. intros f. by rewrite settled_with_job.
  - apply Hintro.
    + eapply touches_trans; apply set_where_touches;
        [apply keeps_with_status|apply keeps_with_failure].
    + intros _. by apply set_where_settles.
Qed.

Lemma upload_each_cons st file rest served prev :
  upload_each st (file :: rest) served prev =
    if is_completed file then upload_each st rest served prev
    else match served with
         | [] => (prev, [], false)
         | s :: served' =>
             let one := upload_one st file s prev in
             if one.2 then
               let more := upload_each st rest served' one.1.1 in
               (more.1.1, one.1.2 ++ more.1.2, more.2)
             else one
         end.
Proof. unfold is_completed. cbn [upload_each]. by destruct (status file). Qed.

Lemma unfinished_cons file rest :
  unfinished (file :: rest) =
    if is_completed file then unfinished rest else file :: unfinished rest.
Proof.
  unfold unfinished. rewrite filter_cons. by destruct (is_completed file).
Qed.

(* What the loop makes of the list. *)
Lemma upload_each_batch st todo served prev :
  Forall2 (batch todo (upload_each st todo served prev).2) prev
    (upload_each st todo served prev).1.1.
Proof.
  revert served prev. induction todo as [|file rest IH]; intros served prev.
  - cbn. apply Forall_Forall2_diag, Forall_forall. intros f _.
    unfold batch. do 5 (split; [done|]). intros _ H. by apply elem_of_nil in H.
  - rewrite upload_each_cons. unfold batch. rewrite unfinished_cons.
    destruct (is_completed file) eqn:Hc; [apply IH|].
    destruct served as [|s served'].
    { cbn [fst snd]. apply Forall_Forall2_diag, Forall_forall. intros f _.
      by do 5 (split; [done|]). }
    cbv zeta. pose proof (upload_one_touches st file s prev) as H1.
    destruct (upload_one st file s prev).2 eqn:Hres.
    + cbn [fst snd]. eapply Forall2_compose; [|exact H1|apply IH].
      intros f f1 f' [(I1 & V1 & S1 & T1 & E1) Hs] (I2 & V2 & S2 & T2 & E2 & F2).
      rewrite I2, V2, S2, T2, I1 in *.
      do 4 (split; [done|]). rewrite fmap_cons, not_elem_of_cons, elem_of_cons.
      split.
      * intros [Hne Hnin]. rewrite (E2 Hnin). exact (E1 Hne).
      * intros Hfin [Hi|Hin]; [|exact (F2 Hfin Hin)].
        destruct (decide (id f ∈ id <$> unfinished rest)) as [Hin|Hnin];
          [exact (F2 Hfin Hin)|].
        rewrite (E2 Hnin). exact (Hs eq_refl Hi).
    + eapply Forall2_impl; [exact H1|].
      intros f f1 [(I1 & V1 & S1 & T1 & E1) Hs].
      do 4 (split; [done|]). rewrite fmap_cons, not_elem_of_cons.
      split; [|by rewrite Hres]. intros [Hne _]. exact (E1 Hne).
Qed.



(** X24.  startUpload does nothing without a sign-in or without files: the
    list is left as it is, no request is sent, one ERROR line is logged,
    and the function returns. *)
Theorem startUpload_needs_sign_in_and_files
    (st : Settings) (files : list UploadFile) (served : list Served) :
  signed_in st = false \/ files = [] ->
  let r := startUpload st files served in
  r.1.1 = files /\ uploads r.1.2 = [] /\ pollings r.1.2 = [] /\ r.2 = true
  /\ exists msg, r.1.2 = [AddLog ERROR msg].
Proof.
  intros H. unfold startUpload. destruct (signed_in st); cbn [negb].
  - destruct H as [H| ->]; [done|]. cbn. eauto 6.
  - cbn. eauto 6.
Qed.

Lemma startUpload_needs_sign_in_and_files_witness :
  (startUpload (mkSettings None "default" Api.private "en") queue server).1.1 = queue.
Proof.
  apply (startUpload_needs_sign_in_and_files
           (mkSettings None "default" Api.private "en") queue server).
  left. reflexivity.
Defined.

Lemma startUpload_run st files served :
  signed_in st = true -> files <> [] ->
  startUpload st files served =
    let run := upload_each st files served files in
    (run.1.1,
     SetIsProcessing true
     :: AddLog INFO ("開始上傳 " +:+ pretty (length files) +:+ " 個視頻...")
     :: (run.1.2
         ++ (if run.2 then [AddLog INFO "批量上傳完成!"; SetIsProcessing false]
             else [])),
     run.2).
Proof.
  intros Hs Hf. unfold startUpload. rewrite Hs. cbn [negb]. by destruct files.
Qed.


(** X26.  When startUpload returns after a sign-in, no file is left
    pending or uploading: every entry of the list is completed or in
    error, whether its upload request was turned away or its job ended. *)
Theorem startUpload_settles_every_file
    (st : Settings) (files : list UploadFile) (served : list Served) :
  signed_in st = true ->
  (startUpload st files served).2 = true ->
  Forall (fun f => settled f = true) (startUpload st files served).1.1.
Proof.
  intros Hs. destruct files as [|f0 files].
  { intros _. unfold startUpload. rewrite Hs. cbn. constructor. }
  rewrite startUpload_run by done. cbv zeta. cbn [fst snd]. intros Hfin.
  pose proof (upload_each_batch st (f0 :: files) served (f0 :: files)) as H.
  rewrite Hfin in H. eapply Forall2_Forall_r; [exact H|].
  apply Forall_forall. intros f Hin f' (_ & _ & _ & _ & E & F).
  destruct (is_completed f) eqn:Hc.
  - destruct (decide (id f ∈ id <$> unfinished (f0 :: files))) as [Hi|Hn]; [auto|].
    rewrite (E Hn). unfold settled. unfold is_completed in Hc.
    by destruct (status f).
  - apply F; [done|]. apply list_elem_of_fmap. exists f. split; [done|].
    apply list_elem_of_filter. by rewrite Hc.
Qed.

Lemma startUpload_settles_every_file_witness :
  Forall (fun f => settled f = true) (startUpload signed queue server).1.1.
Proof.
  apply (startUpload_settles_every_file signed queue server); reflexivity.
Defined.

(** X27.  startUpload neither adds, removes nor reorders entries, and it
    changes of an entry only the status, the progress, the job, the link
    and the error: id, video, subtitle and title stay.  An entry whose id
    is not that of a file that is not completed is left exactly as it
    was. *)
Theorem startUpload_keeps_the_list
    (st : Settings) (files : list UploadFile) (served : list Served) :
  Forall2 (fun f f' =>
      id f' = id f /\ video f' = video f /\ subtitle f' = subtitle f
      /\ title f' = title f
      /\ ((id f ∉ id <$> unfinished files) -> f' = f))
    files (startUpload st files served).1.1.
Proof.
  assert (Hrefl : forall l : list UploadFile,
    Forall2 (fun f f' =>
      id f' = id f /\ video f' = video f /\ subtitle f' = subtitle f
      /\ title f' = title f /\ ((id f ∉ id <$> unfinished files) -> f' = f)) l l).
  { intros l. apply Forall_Forall2_diag, Forall_forall. intros f _. by repeat split. }
  destruct (signed_in st) eqn:Hs.
  2: { unfold startUpload. rewrite Hs. apply Hrefl. }
  destruct files as [|f0 files].
  { unfold startUpload. rewrite Hs. apply Hrefl. }
  rewrite startUpload_run by done. cbv zeta. cbn [fst snd].
  eapply Forall2_impl; [apply upload_each_batch|].
  intros f f' (I & V & S & T & E & _). by repeat split.
Qed.

(** X28.  The loop moves on from a file exactly when its upload request
    was turned away, or the polling of its job has handed over a status
    that is completed or has an error and has stopped with it: no status
    request for that job is made afterwards. *)
Theorem upload_one_moves_on_when_polling_stopped
    (st : Settings) (file : UploadFile) (s : Served) (prev : list UploadFile) :
  let r := upload_one st file s prev in
  r.2 = true <->
    (exists msg,
       (Api.uploadVideo (video file) (subtitle file) (Some (options_for st file))
          (upload_answer s)).2 = inr msg)
    \/ (exists job,
          last (pollings r.1.2) = Some (Api.OnUpdate job)
          /\ Api.terminal job = true).
Proof.
  cbv zeta. unfold upload_one. cbv zeta.
  destruct (Api.uploadVideo _ _ _ _).2 as [response|msg]; cbn [fst snd].
  - change (pollings (AddLog ?l ?m :: UploadVideo ?q :: ?t)) with (pollings t).
    rewrite deliver_pollings, deliver_resolved. unfold Api.pollUploadStatus. split.
    + intros H. right. apply poll_quiet_terminal in H as (pre & job & -> & Hjob).
      exists job. by rewrite last_snoc.
    + intros [[msg [=]]|(job & Hlast & Hjob)].
      apply last_Some in Hlast as [pre ->].
      rewrite ApiMore.updates_app, existsb_app. cbn. by rewrite Hjob, orb_true_r.
  - split; [|done]. intros _. left. by exists msg.
Qed.

End DashFacts.
